(** * pandas_ti: the ZigZag pivot detector, the range indicators and the
    DataFrame accessor

    A shallow embedding of [ZigZagClass] and of the [ZigZag] indicator
    (src/pandas_ti/indicators_dataframe/ZigZag.py), of [TR] and [RTR]
    (src/pandas_ti/indicators) and of the column mapping of the accessor
    (src/pandas_ti/ti_accessor.py), followed by their properties.

    Conventions of the embedding.
    - A price is a NumPy [float64] scalar, as [ZigZag] feeds them.  It is
      modelled by [float]: the special values NaN, -inf, +inf, and finite
      values as rationals.  Comparisons follow IEEE 754 (every comparison
      with NaN is false); division follows NumPy (a division by zero yields
      an infinity or NaN, it does not raise, as it would on Python's own
      [float]).
    - The threshold test of the engine rounds the result of each of its
      two operations.  The rounding is a parameter ([Rounding]) constrained
      by what the rounding to nearest of IEEE 754 guarantees, and the
      properties of the engine hold for every such rounding.  The range
      indicators are in exact arithmetic.
    - The sign of zero is not modelled: a division by zero is a division
      by +0.0.
    - An attribute that may hold Python's [None] is an [option].
    - An exception is the [Raise] case of [result].
    - [self] is threaded explicitly: a method that mutates the engine
      returns the new engine. *)

From Stdlib Require Import ZArith QArith Qabs Bool List Lia Lqa.
From stdpp Require Import base option list gmap strings.
Import ListNotations.

Local Open Scope Z_scope.

(** ** Prices *)

Inductive float : Type :=
  | NaN
  | NInf
  | PInf
  | Fin (q : Q).

(** [pd.isna] on a scalar. *)
Definition isna (x : float) : bool :=
  match x with NaN => true | _ => false end.

(** [a < b] *)
Definition flt (a b : float) : bool :=
  match a, b with
  | NaN, _ => false
  | _, NaN => false
  | _, NInf => false
  | NInf, _ => true
  | PInf, _ => false
  | Fin _, PInf => true
  | Fin x, Fin y => negb (Qle_bool y x)
  end.

(** [a <= b] *)
Definition fle (a b : float) : bool :=
  match a, b with
  | NaN, _ => false
  | _, NaN => false
  | NInf, _ => true
  | _, PInf => true
  | PInf, _ => false
  | Fin _, NInf => false
  | Fin x, Fin y => Qle_bool x y
  end.

(** [a > b] and [a >= b] *)
Definition fgt (a b : float) : bool := flt b a.
Definition fge (a b : float) : bool := fle b a.

(** [-a] *)
Definition fopp (a : float) : float :=
  match a with
  | NaN => NaN
  | NInf => PInf
  | PInf => NInf
  | Fin x => Fin (- x)
  end.

(** [a - b] *)
Definition fsub (a b : float) : float :=
  match a, b with
  | NaN, _ => NaN
  | _, NaN => NaN
  | PInf, PInf => NaN
  | NInf, NInf => NaN
  | PInf, _ => PInf
  | NInf, _ => NInf
  | Fin _, PInf => NInf
  | Fin _, NInf => PInf
  | Fin x, Fin y => Fin (x - y)
  end.

(** The sign test used by division: [Lt], [Eq] or [Gt] against zero. *)
Definition Qsign (x : Q) : comparison := (x ?= 0)%Q.

(** [a / b] *)
Definition fdiv (a b : float) : float :=
  match a, b with
  | NaN, _ => NaN
  | _, NaN => NaN
  | (PInf | NInf), (PInf | NInf) => NaN
  | PInf, Fin y => match Qsign y with Lt => NInf | _ => PInf end
  | NInf, Fin y => match Qsign y with Lt => PInf | _ => NInf end
  | Fin _, (PInf | NInf) => Fin 0
  | Fin x, Fin y =>
      match Qsign y with
      | Eq => match Qsign x with Lt => NInf | Eq => NaN | Gt => PInf end
      | _ => Fin (x / y)
      end
  end.

(** [abs(a)] *)
Definition fabs (a : float) : float :=
  match a with
  | NaN => NaN
  | NInf | PInf => PInf
  | Fin x => Fin (Qabs x)
  end.

(** ** Exceptions *)

Inductive exn : Type := ValueError | TypeError | KeyError | IndexError.

Inductive result (A : Type) : Type :=
  | Ok (a : A)
  | Raise (e : exn).
Arguments Ok {A} a.
Arguments Raise {A} e.

#[export] Instance result_ret : MRet result := λ A, @Ok A.
#[export] Instance result_bind : MBind result := λ A B f m,
  match m with
  | Ok a => f a
  | Raise e => Raise e
  end.

(** ** Rounding

    A float64 operation returns its exact result rounded to float64 (to an
    infinity on overflow).  The rounding is not computed here: the engine
    is verified for every rounding that never yields NaN, is monotone,
    commutes with negation and leaves the dyadic numbers of float64's range
    as they are, which the rounding to nearest of IEEE 754 does. *)
Class Rounding : Type := {
  rnd : Q → float;
  rnd_not_nan : ∀ x, isna (rnd x) = false;
  rnd_mono : ∀ x y, (x <= y)%Q → fle (rnd x) (rnd y) = true;
  rnd_opp : ∀ x, rnd (- x) = fopp (rnd x);
  rnd_dyadic : ∀ (n : Z) (k : N),
    (Z.abs n <= 2 ^ 53)%Z → (k <= 1000)%N →
    rnd (n # Z.to_pos (2 ^ Z.of_N k)) = Fin (n # Z.to_pos (2 ^ Z.of_N k))
}.

(** Exact arithmetic, the rounding that changes nothing. *)
Definition exact_rounding : Rounding :=
  {| rnd := Fin;
     rnd_not_nan := λ _, eq_refl;
     rnd_mono := λ x y H, proj2 (Qle_bool_iff x y) H;
     rnd_opp := λ _, eq_refl;
     rnd_dyadic := λ _ _ _ _, eq_refl |}.

(** * The range indicators

    [TR] and [RTR] (src/pandas_ti/indicators/TR.py, RTR.py).  A [float64]
    Series is modelled by the list of its values in order.  The three
    Series passed to an indicator share their index, so they have the same
    length and arithmetic pairs their values by position; [astype(float)]
    leaves such a Series as it is. *)

(** [s.shift(1)]: a NaN in front, the last value dropped. *)
Definition shift1 (s : list float) : list float :=
  match s with
  | [] => []
  | _ :: _ => NaN :: take (length s - 1) s
  end.

(** [s.iloc[0]] *)
Definition iloc0 (s : list float) : result float :=
  match s with
  | [] => Raise IndexError
  | x :: _ => Ok x
  end.

(** [s.iloc[0] = v] *)
Definition iloc0_set (s : list float) (v : float) : result (list float) :=
  match s with
  | [] => Raise IndexError
  | _ :: t => Ok (v :: t)
  end.

(** [a - b], [a.abs()] and [a / b] on Series of one index. *)
Definition ssub (a b : list float) : list float := zip_with fsub a b.
Definition sabs (a : list float) : list float := fabs <$> a.
Definition sdiv (a b : list float) : list float := zip_with fdiv a b.

(** The larger of two values, a NaN being skipped. *)
Definition fmax_skipna (a b : float) : float :=
  if isna a then b
  else if isna b then a
  else if flt a b then b else a.

(** The maximum of a row with [skipna=True]: NaN only when every value of
    the row is NaN. *)
Definition row_max (xs : list float) : float := foldr fmax_skipna NaN xs.

(** [pd.concat([a, b, c], axis=1).max(axis=1)] *)
Definition concat_max (a b c : list float) : list float :=
  zip_with (λ x yz, row_max [x; yz.1; yz.2]) a (zip b c).

(** [TR] *)
Definition TR (High Low Close : list float) : result (list float) :=
  let previous_close := shift1 Close in
  c0 ← iloc0 Close;
  previous_close ← iloc0_set previous_close c0;
  let tr1 := sabs (ssub High Low) in
  let tr2 := sabs (ssub High previous_close) in
  let tr3 := sabs (ssub previous_close Low) in
  let tr := concat_max tr1 tr2 tr3 in
  Ok tr.

(** [RTR] *)
Definition RTR (High Low Close : list float) : result (list float) :=
  let previous_close := shift1 Close in
  c0 ← iloc0 Close;
  previous_close ← iloc0_set previous_close c0;
  let tr1 := sabs (ssub High Low) in
  let tr2 := sabs (ssub High previous_close) in
  let tr3 := sabs (ssub previous_close Low) in
  let tr := concat_max tr1 tr2 tr3 in
  let rtr := sdiv tr previous_close in
  Ok rtr.

(** * The DataFrame accessor

    [TechnicalIndicatorsAccessor] (src/pandas_ti/ti_accessor.py): the
    mapping of the standard OHLCV names to the columns of the DataFrame.
    A key and a column name are strings, of ASCII characters as far as
    [str.lower] is concerned; the DataFrame is the list of its column
    names; a [dict] is a finite map (the order of its keys matters only
    for the text of an error message), and the [dict] a caller passes is
    the list of its items in order.  The registration of the indicator
    functions as methods is not modelled. *)

Module ti_accessor.

Local Open Scope string_scope.

(** [str.lower] *)
Definition ascii_lower (c : Ascii.ascii) : Ascii.ascii :=
  let n := Ascii.nat_of_ascii c in
  if (65 <=? n)%nat && (n <=? 90)%nat then Ascii.ascii_of_nat (n + 32)
  else c.

Fixpoint lower (s : string) : string :=
  match s with
  | EmptyString => EmptyString
  | String c s' => String (ascii_lower c) (lower s')
  end.

Record TechnicalIndicatorsAccessor : Type := {
  _df : list string;
  _column_mapping : gmap string string
}.

Definition default_mapping : gmap string string :=
  <["open" := "Open"]> (<["high" := "High"]> (<["low" := "Low"]>
    (<["close" := "Close"]> (<["volume" := "Volume"]> ∅)))).

Definition common_variations : list (string * list string) :=
  [ ("open", ["Open"; "OPEN"; "open"; "O"; "PriceOpen"]);
    ("high", ["High"; "HIGH"; "high"; "H"; "PriceHigh"]);
    ("low", ["Low"; "LOW"; "low"; "L"; "PriceLow"]);
    ("close", ["Close"; "CLOSE"; "close"; "C"; "PriceClose"; "Adj Close"]);
    ("volume", ["Volume"; "VOLUME"; "volume"; "Vol"; "V"]) ].

(** [_initialize_column_mapping].  A mapping that is [None] or empty is
    falsy: the columns are then detected, each key taking the first of its
    variations that is a column, or its default name when none is. *)
Definition _initialize_column_mapping (df : list string)
    (column_mapping : option (list (string * string)))
    : gmap string string :=
  match column_mapping with
  | Some ((_ :: _) as items) =>
      foldl (λ m kv, <[lower kv.1 := kv.2]> m) ∅ items ∪ default_mapping
  | _ =>
      foldl (λ auto_mapping kv,
               <[kv.1 := match find (λ var, bool_decide (var ∈ df)) kv.2 with
                         | Some var => var
                         | None => default_mapping !!! kv.1
                         end]> auto_mapping)
            ∅ common_variations
  end.

(** [_validate_columns] *)
Definition _validate_columns (self : TechnicalIndicatorsAccessor)
    : result unit :=
  let missing_cols :=
    (filter (λ kv, kv.2 ∉ _df self) (map_to_list (_column_mapping self))).*2 in
  match missing_cols with
  | [] => Ok tt
  | _ :: _ => Raise ValueError
  end.

(** [__init__] *)
Definition __init__ (df : list string)
    (column_mapping : option (list (string * string)))
    : result TechnicalIndicatorsAccessor :=
  let self := {| _df := df;
                 _column_mapping :=
                   _initialize_column_mapping df column_mapping |} in
  _ ← _validate_columns self;
  Ok self.

(** [set_column_mapping]: the mapping is assigned before it is validated,
    so the accessor holds it also when the call raises. *)
Definition set_column_mapping (self : TechnicalIndicatorsAccessor)
    (column_mapping : list (string * string))
    : TechnicalIndicatorsAccessor * result unit :=
  let self := {| _df := _df self;
                 _column_mapping :=
                   _initialize_column_mapping (_df self)
                     (Some column_mapping) |} in
  (self, _validate_columns self).

End ti_accessor.

Section engine.

Context {R : Rounding}.

(** A float64 result: a finite exact result is rounded. *)
Definition round (a : float) : float :=
  match a with
  | Fin x => rnd x
  | _ => a
  end.

(** ** The engine *)

Inductive extreme : Type := High | Low.

#[export] Instance extreme_eq_dec : EqDecision extreme.
Proof. solve_decision. Defined.

Definition opposite (t : extreme) : extreme :=
  match t with High => Low | Low => High end.

(** [historic_dic]: a dict of five lists of equal length, one entry per
    processed bar.  In the ['type'] column [None] stands for [np.nan]. *)
Record historic : Type := {
  col_index : list Z;
  col_High : list float;
  col_Low : list float;
  col_ZigZag : list float;
  col_type : list (option extreme)
}.

(** One row of [debug_dic] (a dict of thirteen lists appended together;
    kept here as a list of rows).  In the last two columns [None] stands
    for [np.nan]. *)
Record debug_row : Type := {
  d_index : Z;
  d_High : float;
  d_Low : float;
  d_swing_high : float;
  d_swing_high_idx : option Z;
  d_swing_low : float;
  d_swing_low_idx : option Z;
  d_candidate_price : option float;
  d_candidate_idx : option Z;
  d_confirmed : bool;
  d_last_confirmed_type : option extreme;
  d_last_confirmed_price : option float;
  d_last_confirmed_idx : option Z
}.

Record ZigZagClass : Type := {
  pct : float;
  debug : bool;
  last_confirmed_type : option extreme;
  last_confirmed_price : option float;
  last_confirmed_idx : option Z;
  confirmed : bool;
  swing_high : float;
  swing_high_idx : option Z;
  swing_low : float;
  swing_low_idx : option Z;
  candidate_price : option float;
  candidate_idx : option Z;
  historic_dic : historic;
  _index_to_pos : gmap Z nat;
  debug_dic : list debug_row
}.

(** Attribute assignments. *)

Definition set_last_confirmed (t : option extreme) (p : option float)
    (i : option Z) (zz : ZigZagClass) : ZigZagClass :=
  {| pct := pct zz; debug := debug zz;
     last_confirmed_type := t; last_confirmed_price := p;
     last_confirmed_idx := i; confirmed := confirmed zz;
     swing_high := swing_high zz; swing_high_idx := swing_high_idx zz;
     swing_low := swing_low zz; swing_low_idx := swing_low_idx zz;
     candidate_price := candidate_price zz; candidate_idx := candidate_idx zz;
     historic_dic := historic_dic zz; _index_to_pos := _index_to_pos zz;
     debug_dic := debug_dic zz |}.

Definition set_confirmed (b : bool) (zz : ZigZagClass) : ZigZagClass :=
  {| pct := pct zz; debug := debug zz;
     last_confirmed_type := last_confirmed_type zz;
     last_confirmed_price := last_confirmed_price zz;
     last_confirmed_idx := last_confirmed_idx zz; confirmed := b;
     swing_high := swing_high zz; swing_high_idx := swing_high_idx zz;
     swing_low := swing_low zz; swing_low_idx := swing_low_idx zz;
     candidate_price := candidate_price zz; candidate_idx := candidate_idx zz;
     historic_dic := historic_dic zz; _index_to_pos := _index_to_pos zz;
     debug_dic := debug_dic zz |}.

Definition set_swing_high (v : float) (i : option Z) (zz : ZigZagClass)
    : ZigZagClass :=
  {| pct := pct zz; debug := debug zz;
     last_confirmed_type := last_confirmed_type zz;
     last_confirmed_price := last_confirmed_price zz;
     last_confirmed_idx := last_confirmed_idx zz; confirmed := confirmed zz;
     swing_high := v; swing_high_idx := i;
     swing_low := swing_low zz; swing_low_idx := swing_low_idx zz;
     candidate_price := candidate_price zz; candidate_idx := candidate_idx zz;
     historic_dic := historic_dic zz; _index_to_pos := _index_to_pos zz;
     debug_dic := debug_dic zz |}.

Definition set_swing_low (v : float) (i : option Z) (zz : ZigZagClass)
    : ZigZagClass :=
  {| pct := pct zz; debug := debug zz;
     last_confirmed_type := last_confirmed_type zz;
     last_confirmed_price := last_confirmed_price zz;
     last_confirmed_idx := last_confirmed_idx zz; confirmed := confirmed zz;
     swing_high := swing_high zz; swing_high_idx := swing_high_idx zz;
     swing_low := v; swing_low_idx := i;
     candidate_price := candidate_price zz; candidate_idx := candidate_idx zz;
     historic_dic := historic_dic zz; _index_to_pos := _index_to_pos zz;
     debug_dic := debug_dic zz |}.

Definition set_candidate (p : option float) (i : option Z) (zz : ZigZagClass)
    : ZigZagClass :=
  {| pct := pct zz; debug := debug zz;
     last_confirmed_type := last_confirmed_type zz;
     last_confirmed_price := last_confirmed_price zz;
     last_confirmed_idx := last_confirmed_idx zz; confirmed := confirmed zz;
     swing_high := swing_high zz; swing_high_idx := swing_high_idx zz;
     swing_low := swing_low zz; swing_low_idx := swing_low_idx zz;
     candidate_price := p; candidate_idx := i;
     historic_dic := historic_dic zz; _index_to_pos := _index_to_pos zz;
     debug_dic := debug_dic zz |}.

Definition set_historic (h : historic) (m : gmap Z nat) (zz : ZigZagClass)
    : ZigZagClass :=
  {| pct := pct zz; debug := debug zz;
     last_confirmed_type := last_confirmed_type zz;
     last_confirmed_price := last_confirmed_price zz;
     last_confirmed_idx := last_confirmed_idx zz; confirmed := confirmed zz;
     swing_high := swing_high zz; swing_high_idx := swing_high_idx zz;
     swing_low := swing_low zz; swing_low_idx := swing_low_idx zz;
     candidate_price := candidate_price zz; candidate_idx := candidate_idx zz;
     historic_dic := h; _index_to_pos := m;
     debug_dic := debug_dic zz |}.

Definition set_debug_dic (d : list debug_row) (zz : ZigZagClass)
    : ZigZagClass :=
  {| pct := pct zz; debug := debug zz;
     last_confirmed_type := last_confirmed_type zz;
     last_confirmed_price := last_confirmed_price zz;
     last_confirmed_idx := last_confirmed_idx zz; confirmed := confirmed zz;
     swing_high := swing_high zz; swing_high_idx := swing_high_idx zz;
     swing_low := swing_low zz; swing_low_idx := swing_low_idx zz;
     candidate_price := candidate_price zz; candidate_idx := candidate_idx zz;
     historic_dic := historic_dic zz; _index_to_pos := _index_to_pos zz;
     debug_dic := d |}.

(** The attribute values [__init__] assigns.  Without [debug] the attribute
    [debug_dic] does not exist; the empty list stands for both. *)
Definition fresh (pct0 : float) (debug0 : bool) : ZigZagClass :=
  {| pct := pct0; debug := debug0;
     last_confirmed_type := None; last_confirmed_price := None;
     last_confirmed_idx := None; confirmed := false;
     swing_high := NInf; swing_high_idx := None;
     swing_low := PInf; swing_low_idx := None;
     candidate_price := None; candidate_idx := None;
     historic_dic := {| col_index := []; col_High := [];
                        col_Low := []; col_ZigZag := [];
                        col_type := [] |};
     _index_to_pos := ∅;
     debug_dic := [] |}.

(** [__init__]: [pct <= 0] raises [ValueError]. *)
Definition __init__ (pct0 : float) (debug0 : bool) : result ZigZagClass :=
  if fle pct0 (Fin 0) then Raise ValueError else Ok (fresh pct0 debug0).

(** [_update_df]: one row appended to every column, and the position of the
    row recorded under its index (a later row with the same index replaces
    the earlier position). *)
Definition _update_df (zz : ZigZagClass) (high low : float) (idx : Z)
    : ZigZagClass :=
  let h := historic_dic zz in
  let h' := {| col_index := col_index h ++ [idx];
               col_High := col_High h ++ [high];
               col_Low := col_Low h ++ [low];
               col_ZigZag := col_ZigZag h ++ [NaN];
               col_type := col_type h ++ [None] |} in
  set_historic h' (<[idx := (length (col_index h') - 1)%nat]> (_index_to_pos zz)) zz.

(** [_debug_state] *)
Definition _debug_state (zz : ZigZagClass) (high low : float) (idx : Z)
    : ZigZagClass :=
  let row :=
    {| d_index := idx; d_High := high; d_Low := low;
       d_swing_high := swing_high zz; d_swing_high_idx := swing_high_idx zz;
       d_swing_low := swing_low zz; d_swing_low_idx := swing_low_idx zz;
       d_candidate_price := candidate_price zz;
       d_candidate_idx := candidate_idx zz;
       d_confirmed := confirmed zz;
       d_last_confirmed_type := last_confirmed_type zz;
       d_last_confirmed_price :=
         if confirmed zz then last_confirmed_price zz else None;
       d_last_confirmed_idx :=
         if confirmed zz then last_confirmed_idx zz else None |} in
  set_debug_dic (debug_dic zz ++ [row]) zz.

(** [_pct_change]: the difference is rounded, and so is the quotient. *)
Definition _pct_change (reference new : float) : float :=
  round (fdiv (round (fsub new reference)) reference).

(** [_reset_swings]: the swing of the side just confirmed goes back to its
    sentinel, at the current index. *)
Definition _reset_swings (zz : ZigZagClass) (confirmed0 : extreme)
    (high low : float) (idx : Z) : ZigZagClass :=
  match confirmed0 with
  | High => set_swing_high NInf (Some idx) zz
  | Low => set_swing_low PInf (Some idx) zz
  end.

(** [_update_swings] *)
Definition _update_swings (zz : ZigZagClass) (confirmed0 : option extreme)
    (high low : float) (idx : Z) : ZigZagClass :=
  match confirmed0 with
  | None =>
      let zz := if fgt high (swing_high zz)
                then set_swing_high high (Some idx) zz else zz in
      if flt low (swing_low zz)
      then set_swing_low low (Some idx) zz else zz
  | Some High =>
      if flt low (swing_low zz) then
        let zz := set_swing_low low (Some idx) zz in
        _reset_swings zz High high low idx
      else if fgt high (swing_high zz) then
        set_swing_high high (Some idx) zz
      else zz
  | Some Low =>
      if flt (swing_high zz) high then
        let zz := set_swing_high high (Some idx) zz in
        _reset_swings zz Low high low idx
      else if flt low (swing_low zz) then
        set_swing_low low (Some idx) zz
      else zz
  end.

(** [lst[pos] = x]: raises [IndexError] out of range. *)
Definition list_assign {A : Type} (l : list A) (pos : nat) (x : A)
    : result (list A) :=
  if (pos <? length l)%nat then Ok (<[pos := x]> l) else Raise IndexError.

(** [_confirm_pivot]: the row of the pivot's index is annotated, the pivot
    becomes the last confirmed one, and the candidate is cleared.  [idx] is
    a swing index and may be [None], which is not a key of
    [_index_to_pos]. *)
Definition _confirm_pivot (zz : ZigZagClass) (price : float)
    (idx : option Z) (extreme_type : extreme) : result ZigZagClass :=
  pos ← match idx ≫= λ i, _index_to_pos zz !! i with
        | Some pos => Ok pos
        | None => Raise KeyError
        end;
  let h := historic_dic zz in
  zcol ← list_assign (col_ZigZag h) pos price;
  tcol ← list_assign (col_type h) pos (Some extreme_type);
  let h' := {| col_index := col_index h; col_High := col_High h;
               col_Low := col_Low h; col_ZigZag := zcol;
               col_type := tcol |} in
  let zz := set_historic h' (_index_to_pos zz) zz in
  let zz := set_last_confirmed (Some extreme_type) (Some price) idx zz in
  let zz := set_confirmed true zz in
  Ok (set_candidate None None zz).

(** [a < b] on swing indices: comparing with [None] raises [TypeError]. *)
Definition idx_lt (a b : option Z) : result bool :=
  match a, b with
  | Some x, Some y => Ok (x <? y)
  | _, _ => Raise TypeError
  end.

(** A confirmed pivot, as the specification names the event. *)
Record pivot : Type := {
  p_price : float;
  p_index : Z;
  p_type : extreme
}.

(** The test of step 1 of [update]: NaN in either price, or [high < low]. *)
Definition invalid_bar (high low : float) : bool :=
  isna high || isna low || flt high low.

(** [update].  Both exits of the method return Python's [None]: the bare
    [return] of an invalid bar and the end of the body.  The second
    component is that return value, typed so that the pivot record the
    specification expects could be expressed. *)
Definition update (zz : ZigZagClass) (high low : float) (idx : Z)
    : result (ZigZagClass * option pivot) :=
  (* 1. Update & Validate new data *)
  let zz := _update_df zz high low idx in
  if invalid_bar high low then Ok (zz, None)
  else
    (* 2. Update swings *)
    let zz := _update_swings zz (last_confirmed_type zz) high low idx in
    (* 3. System logic *)
    let zz := set_confirmed false zz in
    zz ← match last_confirmed_type zz with
         | None =>
             up ← idx_lt (swing_low_idx zz) (swing_high_idx zz);
             if up : bool then
               let change := _pct_change (swing_low zz) (swing_high zz) in
               zz ← (if fge change (pct zz) then
                       zz ← _confirm_pivot zz (swing_low zz)
                              (swing_low_idx zz) Low;
                       Ok (_reset_swings zz Low high low idx)
                     else Ok zz);
               Ok (set_candidate (Some (swing_low zz)) (swing_low_idx zz) zz)
             else
               down ← idx_lt (swing_high_idx zz) (swing_low_idx zz);
               if down : bool then
                 let change := _pct_change (swing_high zz) (swing_low zz) in
                 zz ← (if fge change (pct zz) then
                         zz ← _confirm_pivot zz (swing_high zz)
                                (swing_high_idx zz) High;
                         Ok (_reset_swings zz High high low idx)
                       else Ok zz);
                 Ok (set_candidate (Some (swing_high zz))
                       (swing_high_idx zz) zz)
               else Ok zz
         | Some High =>
             let change := _pct_change (swing_low zz) (swing_high zz) in
             zz ← (if fge change (pct zz) then
                     zz ← _confirm_pivot zz (swing_low zz)
                            (swing_low_idx zz) Low;
                     Ok (_reset_swings zz Low high low idx)
                   else Ok zz);
             Ok (set_candidate (Some (swing_low zz)) (swing_low_idx zz) zz)
         | Some Low =>
             let change :=
               fopp (_pct_change (swing_high zz) (swing_low zz)) in
             zz ← (if fge change (pct zz) then
                     zz ← _confirm_pivot zz (swing_high zz)
                            (swing_high_idx zz) High;
                     Ok (_reset_swings zz High high low idx)
                   else Ok zz);
             Ok (set_candidate (Some (swing_high zz)) (swing_high_idx zz) zz)
         end;
    (* 4. Debug *)
    let zz := if debug zz then _debug_state zz high low idx else zz in
    Ok (zz, None).

(** ** Feeding a stream of bars *)

Record bar : Type := {
  b_idx : Z;
  b_high : float;
  b_low : float
}.

(** The loop of [ZigZag]: one [update] per bar, in order; an exception
    ends it. *)
Fixpoint run (zz : ZigZagClass) (bars : list bar) : result ZigZagClass :=
  match bars with
  | [] => Ok zz
  | b :: bs =>
      r ← update zz (b_high b) (b_low b) (b_idx b);
      run (fst r) bs
  end.

(** What a completed call of [update] confirmed, read off the engine: on a
    valid bar [confirmed] is cleared before step 3 and set by
    [_confirm_pivot] only, which also stores the pivot in the
    [last_confirmed_*] attributes.  An invalid bar returns before step 3. *)
Definition confirmation (b : bar) (zz' : ZigZagClass) : option pivot :=
  if invalid_bar (b_high b) (b_low b) then None
  else if confirmed zz' then
    match last_confirmed_price zz', last_confirmed_idx zz',
          last_confirmed_type zz' with
    | Some p, Some i, Some t =>
        Some {| p_price := p; p_index := i; p_type := t |}
    | _, _, _ => None
    end
  else None.

(** The pivots confirmed along a stream, in the order of confirmation, up
    to the end of the stream or to the call that raised. *)
Fixpoint confirmations (zz : ZigZagClass) (bars : list bar) : list pivot :=
  match bars with
  | [] => []
  | b :: bs =>
      match update zz (b_high b) (b_low b) (b_idx b) with
      | Ok (zz', _) =>
          option_list (confirmation b zz') ++ confirmations zz' bs
      | Raise _ => []
      end
  end.

(** ** The pivots series *)

(** A label of the index of a Series: an integer, Python's [None] (in an
    index of objects) or NaN (in an index of [float64], which shows an
    integer label as the float equal to it). *)
Inductive label : Type := Lbl (i : Z) | Lbl_None | Lbl_NaN.

#[export] Instance label_eq_dec : EqDecision label.
Proof. solve_decision. Defined.

(** A pandas Series as its (label, value) pairs in order.  A value may be
    Python's [None], in a Series of objects. *)
Definition series : Type := list (label * option float).

(** [pd.Series(values, index=index)]: the lengths must agree. *)
Definition Series (values : list float) (index : list Z) : result series :=
  if (length values =? length index)%nat
  then Ok (zip (Lbl <$> index) (Some <$> values))
  else Raise ValueError.

(** [s.loc[k] = v] on the Series [pivots] builds, whose labels are
    integers.  Every entry labelled [k] is overwritten; when no label
    matches, the Series is enlarged by one entry at its end.  A Series with
    entries holds [float64] values and integer labels: a value [None] is
    stored as NaN, and the enlargement by the label [None] casts the index
    to [float64] and stores the label as NaN.  The empty Series holds
    objects and keeps both as they are. *)
Definition loc_set (s : series) (k : option Z) (v : option float) : series :=
  match s with
  | [] => [(from_option Lbl Lbl_None k, v)]
  | _ :: _ =>
      let v := Some (default NaN v) in
      match k with
      | Some i =>
          if decide (Lbl i ∈ s.*1)
          then (λ e, if decide (e.1 = Lbl i) then (e.1, v) else e) <$> s
          else s ++ [(Lbl i, v)]
      | None => s ++ [(Lbl_NaN, v)]
      end
  end.

(** [pivots] *)
Definition pivots (zz : ZigZagClass) : result series :=
  s ← Series (col_ZigZag (historic_dic zz)) (col_index (historic_dic zz));
  Ok (loc_set s (candidate_idx zz) (candidate_price zz)).

(** [ZigZag]: the indicator over a whole table of bars. *)
Definition ZigZag (bars : list bar) (pct0 : float) : result series :=
  zz ← __init__ pct0 false;
  zz ← run zz bars;
  pivots zz.

(** ** The history as a table *)

(** One row of the DataFrame [df] returns: the index and the four other
    columns of [historic_dic]. *)
Record df_row : Type := {
  r_index : Z;
  r_High : float;
  r_Low : float;
  r_ZigZag : float;
  r_type : option extreme
}.

(** The rows of five columns of the same length. *)
Fixpoint rows (index : list Z) (High Low ZigZag0 : list float)
    (type : list (option extreme)) : list df_row :=
  match index, High, Low, ZigZag0, type with
  | i :: index', h :: High', l :: Low', z :: ZigZag', t :: type' =>
      {| r_index := i; r_High := h; r_Low := l; r_ZigZag := z; r_type := t |}
      :: rows index' High' Low' ZigZag' type'
  | _, _, _, _, _ => []
  end.

(** [df]: [pd.DataFrame] of a dict of lists raises [ValueError] unless all
    lists have the same length; the ['index'] column then becomes the
    index. *)
Definition df (zz : ZigZagClass) : result (list df_row) :=
  let h := historic_dic zz in
  let n := length (col_index h) in
  if (length (col_High h) =? n)%nat && (length (col_Low h) =? n)%nat &&
     (length (col_ZigZag h) =? n)%nat && (length (col_type h) =? n)%nat
  then Ok (rows (col_index h) (col_High h) (col_Low h) (col_ZigZag h)
             (col_type h))
  else Raise ValueError.

(** * Vocabulary of the properties *)

(** The branch of step 3 of [update] after a last confirmed [High]: a low
    pivot is confirmed when the swing high is [pct] above the swing low. *)
Definition after_high (zz : ZigZagClass) (high low : float) (idx : Z)
    : result ZigZagClass :=
  let change := _pct_change (swing_low zz) (swing_high zz) in
  zz ← (if fge change (pct zz) then
          zz ← _confirm_pivot zz (swing_low zz) (swing_low_idx zz) Low;
          Ok (_reset_swings zz Low high low idx)
        else Ok zz);
  Ok (set_candidate (Some (swing_low zz)) (swing_low_idx zz) zz).

(** The branch of step 3 after a last confirmed [Low]. *)
Definition after_low (zz : ZigZagClass) (high low : float) (idx : Z)
    : result ZigZagClass :=
  let change := fopp (_pct_change (swing_high zz) (swing_low zz)) in
  zz ← (if fge change (pct zz) then
          zz ← _confirm_pivot zz (swing_high zz) (swing_high_idx zz) High;
          Ok (_reset_swings zz High high low idx)
        else Ok zz);
  Ok (set_candidate (Some (swing_high zz)) (swing_high_idx zz) zz).

(** The branch of step 3 before the first pivot: the direction is that of
    the earlier swing. *)
Definition bootstrap (zz : ZigZagClass) (high low : float) (idx : Z)
    : result ZigZagClass :=
  up ← idx_lt (swing_low_idx zz) (swing_high_idx zz);
  if up : bool then
    let change := _pct_change (swing_low zz) (swing_high zz) in
    zz ← (if fge change (pct zz) then
            zz ← _confirm_pivot zz (swing_low zz) (swing_low_idx zz) Low;
            Ok (_reset_swings zz Low high low idx)
          else Ok zz);
    Ok (set_candidate (Some (swing_low zz)) (swing_low_idx zz) zz)
  else
    down ← idx_lt (swing_high_idx zz) (swing_low_idx zz);
    if down : bool then
      let change := _pct_change (swing_high zz) (swing_low zz) in
      zz ← (if fge change (pct zz) then
              zz ← _confirm_pivot zz (swing_high zz) (swing_high_idx zz) High;
              Ok (_reset_swings zz High high low idx)
            else Ok zz);
      Ok (set_candidate (Some (swing_high zz)) (swing_high_idx zz) zz)
    else Ok zz.

(** The engine a successful [_confirm_pivot] leaves behind. *)
Definition annotated (zz : ZigZagClass) (pos : nat) (price : float)
    (idx : option Z) (t : extreme) : ZigZagClass :=
  let h := historic_dic zz in
  set_candidate None None
    (set_confirmed true
       (set_last_confirmed (Some t) (Some price) idx
          (set_historic
             {| col_index := col_index h; col_High := col_High h;
                col_Low := col_Low h;
                col_ZigZag := <[pos := price]> (col_ZigZag h);
                col_type := <[pos := Some t]> (col_type h) |}
             (_index_to_pos zz) zz))).

(** The engine after the confirmation of a low pivot at row [pos]: the
    swing low is back at its sentinel and is also the new candidate. *)
Definition low_pivoted (zz : ZigZagClass) (pos : nat) (j i : Z)
    : ZigZagClass :=
  set_candidate (Some PInf) (Some i)
    (set_swing_low PInf (Some i)
       (annotated zz pos (swing_low zz) (Some j) Low)).

(** The same for a high pivot. *)
Definition high_pivoted (zz : ZigZagClass) (pos : nat) (j i : Z)
    : ZigZagClass :=
  set_candidate (Some NInf) (Some i)
    (set_swing_high NInf (Some i)
       (annotated zz pos (swing_high zz) (Some j) High)).

(** The row a pivot at index [j] is written to. *)
Definition row_of (zz : ZigZagClass) (j : Z) (pos : nat) : Prop :=
  _index_to_pos zz !! j = Some pos ∧
  (pos < length (col_ZigZag (historic_dic zz)))%nat ∧
  (pos < length (col_type (historic_dic zz)))%nat.

(** The engine as step 3 of [update] finds it on a valid bar: the row is
    appended, the swings are updated and [confirmed] is cleared. *)
Definition swung (zz : ZigZagClass) (h l : float) (i : Z) : ZigZagClass :=
  set_confirmed false
    (_update_swings (_update_df zz h l i) (last_confirmed_type zz) h l i).

(** Step 4 of [update]. *)
Definition traced (zz : ZigZagClass) (h l : float) (i : Z) : ZigZagClass :=
  if debug zz then _debug_state zz h l i else zz.

(** No type of [ts] repeats the one before it, [prev] being the type
    before the first. *)
Fixpoint alternates_from (prev : option extreme) (ts : list extreme) : Prop :=
  match ts with
  | [] => True
  | t :: ts' => prev ≠ Some t ∧ alternates_from (Some t) ts'
  end.

(** The scenario of the specification: threshold 0.05 and three bars. *)
Definition bars3 : list bar :=
  [ {| b_idx := 0; b_high := Fin 100; b_low := Fin 99 |};
    {| b_idx := 1; b_high := Fin 110; b_low := Fin 109 |};
    {| b_idx := 2; b_high := Fin 96; b_low := Fin 95 |} ].

(** The engine of the scenario after the given bars. *)
Definition fed (bars : list bar) : ZigZagClass :=
  match run (fresh (Fin 0.05) false) bars with
  | Ok zz => zz
  | Raise _ => fresh (Fin 0.05) false
  end.

(** The three bars of the scenario. *)
Definition bar0 : bar :=
  {| b_idx := 0; b_high := Fin 100; b_low := Fin 99 |}.

Definition bar1 : bar :=
  {| b_idx := 1; b_high := Fin 110; b_low := Fin 109 |}.

Definition bar2 : bar :=
  {| b_idx := 2; b_high := Fin 96; b_low := Fin 95 |}.

(** The two pivots of the scenario. *)
Definition low99 : pivot :=
  {| p_price := Fin 99; p_index := 0; p_type := Low |}.

Definition high110 : pivot :=
  {| p_price := Fin 110; p_index := 1; p_type := High |}.

(** A bar that is invalid, or whose prices are finite with a positive
    low. *)
Definition positive_bar (b : bar) : bool :=
  invalid_bar (b_high b) (b_low b) ||
  match b_high b, b_low b with
  | Fin _, Fin l => negb (Qle_bool l 0)
  | _, _ => false
  end.

(** [|q - p| / p], the relative move from pivot price [p] to pivot price
    [q], as float64 arithmetic computes it: the difference and the quotient
    are rounded. *)
Definition relative_move (p q : float) : float :=
  round (fdiv (fabs (round (fsub q p))) p).

(** A finite positive price. *)
Definition finite_pos (x : float) : Prop := ∃ q, x = Fin q ∧ (0 < q)%Q.

(** What holds of the engine between calls, on positive bars.
    - before the first valid bar both swings are at their sentinels;
    - later in the bootstrap both are finite, the low below the high;
    - after a Low pivot [P] the swing high is finite and passes the
      threshold test against [P]; the swing low is at its sentinel or
      finite;
    - after a High pivot [P] the swing low is finite and passes the
      threshold test against [P]; the swing high is at its sentinel or
      finite. *)
Inductive phase_inv (zz : ZigZagClass) : Prop :=
  | inv_fresh :
      last_confirmed_type zz = None → last_confirmed_price zz = None →
      swing_high zz = NInf → swing_low zz = PInf →
      phase_inv zz
  | inv_bootstrap (H L : Q) :
      last_confirmed_type zz = None → last_confirmed_price zz = None →
      swing_high zz = Fin H → swing_low zz = Fin L →
      (0 < L)%Q → (L <= H)%Q →
      phase_inv zz
  | inv_after_low (P H : Q) :
      last_confirmed_type zz = Some Low →
      last_confirmed_price zz = Some (Fin P) → (0 < P)%Q →
      swing_high zz = Fin H → (0 < H)%Q →
      fle (pct zz) (_pct_change (Fin P) (Fin H)) = true →
      swing_low zz = PInf ∨ finite_pos (swing_low zz) →
      phase_inv zz
  | inv_after_high (P L : Q) :
      last_confirmed_type zz = Some High →
      last_confirmed_price zz = Some (Fin P) → (0 < P)%Q →
      swing_low zz = Fin L → (0 < L)%Q →
      fle (pct zz) (fopp (_pct_change (Fin P) (Fin L))) = true →
      swing_high zz = NInf ∨ finite_pos (swing_high zz) →
      phase_inv zz.

(** The engine has seen a valid bar: in the bootstrap the swing high has
    left its sentinel. *)
Definition started (zz : ZigZagClass) : Prop :=
  last_confirmed_type zz = None → swing_high zz ≠ NInf.

(** Every pivot of [evs] is at least [p] away from its predecessor,
    [prev] being the price of the pivot confirmed before the first. *)
Fixpoint threshold_chain (p : float) (prev : option float)
    (evs : list pivot) : Prop :=
  match evs with
  | [] => True
  | e :: evs' =>
      (∀ P, prev = Some P → fge (relative_move P (p_price e)) p = true) ∧
      threshold_chain p (Some (p_price e)) evs'
  end.

(** A stream of negative prices. *)
Definition bars_neg : list bar :=
  [ {| b_idx := 0; b_high := Fin (-4); b_low := Fin (-4) |};
    {| b_idx := 1; b_high := Fin (-5); b_low := Fin (-5) |};
    {| b_idx := 2; b_high := Fin (-6); b_low := Fin (-6) |} ].

(** A bar that passes step 1 of [update]. *)
Definition valid_bar (b : bar) : bool :=
  negb (invalid_bar (b_high b) (b_low b)).

(** The swing [price] at [idx] is the high (for [High]) or the low (for
    [Low]) of a valid bar among [seen]. *)
Definition from_valid_bar (seen : list bar) (t : extreme) (price : float)
    (idx : option Z) : Prop :=
  ∃ b, b ∈ seen ∧ valid_bar b = true ∧ idx = Some (b_idx b) ∧
       price = match t with High => b_high b | Low => b_low b end.

(** Each swing is at its sentinel or comes from a valid bar seen so far. *)
Definition swings_from (seen : list bar) (zz : ZigZagClass) : Prop :=
  (swing_high zz = NInf ∨
   from_valid_bar seen High (swing_high zz) (swing_high_idx zz)) ∧
  (swing_low zz = PInf ∨
   from_valid_bar seen Low (swing_low zz) (swing_low_idx zz)).

(** The history after the bars [seen]: one row per bar, in order, and
    [_index_to_pos] sends an index to a row that carries it. *)
Record hist_ok (seen : list bar) (zz : ZigZagClass) : Prop := {
  hist_index : col_index (historic_dic zz) = b_idx <$> seen;
  hist_len_z : length (col_ZigZag (historic_dic zz)) = length seen;
  hist_len_t : length (col_type (historic_dic zz)) = length seen;
  hist_pos : ∀ j pos, _index_to_pos zz !! j = Some pos →
                      col_index (historic_dic zz) !! pos = Some j;
  hist_dom : ∀ b, b ∈ seen → is_Some (_index_to_pos zz !! b_idx b)
}.

(** Every valid bar of the stream raises the swing high and lowers the
    swing low at once: its high is above, and its low below, those of the
    valid bar before it ([sh] and [sl] to begin with). *)
Fixpoint widening (sh sl : float) (bars : list bar) : bool :=
  match bars with
  | [] => true
  | b :: bs =>
      if invalid_bar (b_high b) (b_low b) then widening sh sl bs
      else fgt (b_high b) sh && flt (b_low b) sl &&
           widening (b_high b) (b_low b) bs
  end.

(** A bar that is invalid, or whose high is above -inf and whose low is
    below +inf: the first such valid bar sets both swings. *)
Definition bounded_bar (b : bar) : bool :=
  invalid_bar (b_high b) (b_low b) ||
  (fgt (b_high b) NInf && flt (b_low b) PInf).

(** In the bootstrap the swing indices are both set as soon as a valid bar
    has been seen. *)
Definition bootstrap_ok (zz : ZigZagClass) : Prop :=
  last_confirmed_type zz = None →
  (swing_high zz = NInf ∧ swing_low zz = PInf) ∨
  (is_Some (swing_high_idx zz) ∧ is_Some (swing_low_idx zz)).

(** The row of [idx] can be annotated. *)
Definition can_annotate (zz : ZigZagClass) (idx : option Z) : Prop :=
  ∃ j pos, idx = Some j ∧ row_of zz j pos.

(** The swing indices and the candidate index are unset or the index of a
    bar seen so far. *)
Definition idx_seen (seen : list bar) (idx : option Z) : Prop :=
  idx = None ∨ ∃ b, b ∈ seen ∧ idx = Some (b_idx b).

Definition indices_seen (seen : list bar) (zz : ZigZagClass) : Prop :=
  idx_seen seen (swing_high_idx zz) ∧ idx_seen seen (swing_low_idx zz) ∧
  idx_seen seen (candidate_idx zz).

(** A candidate index comes with a candidate price. *)
Definition candidate_priced (zz : ZigZagClass) : Prop :=
  candidate_price zz = None → candidate_idx zz = None.

(** [pos] is the last row of [seen] that carries the index [j]. *)
Definition last_row_of (seen : list bar) (j : Z) (pos : nat) : Prop :=
  (∃ b, seen !! pos = Some b ∧ b_idx b = j) ∧
  ∀ m b', (pos < m)%nat → seen !! m = Some b' → b_idx b' ≠ j.

(** The pivot [e] lies on the right side of the price [P] of the pivot
    before it: a High above, a Low below. *)
Definition turns_from (P : float) (e : pivot) : Prop :=
  match p_type e with
  | High => flt P (p_price e) = true
  | Low => flt (p_price e) P = true
  end.

(** Every pivot of [evs] turns from its predecessor, [prev] being the
    price of the pivot confirmed before the first. *)
Fixpoint turning_chain (prev : option float) (evs : list pivot) : Prop :=
  match evs with
  | [] => True
  | e :: evs' =>
      (∀ P, prev = Some P → turns_from P e) ∧
      turning_chain (Some (p_price e)) evs'
  end.

(** The pivot a row of the debug trace reports: the row is flagged
    [confirmed] and carries the three [last_confirmed_*] values. *)
Definition traced_pivot (d : debug_row) : option pivot :=
  if d_confirmed d then
    match d_last_confirmed_price d, d_last_confirmed_idx d,
          d_last_confirmed_type d with
    | Some p, Some i, Some t =>
        Some {| p_price := p; p_index := i; p_type := t |}
    | _, _, _ => None
    end
  else None.

(** The first valid bar of a stream, if it has one. *)
Definition first_valid (bars : list bar) : option bar :=
  head (List.filter valid_bar bars).

(** No valid bar has been processed: the swings are as [__init__] set
    them. *)
Definition untouched (zz : ZigZagClass) : Prop :=
  last_confirmed_type zz = None ∧
  swing_high zz = NInf ∧ swing_high_idx zz = None ∧
  swing_low zz = PInf ∧ swing_low_idx zz = None.

(** Both swing indices are set. *)
Definition indexed (zz : ZigZagClass) : Prop :=
  is_Some (swing_high_idx zz) ∧ is_Some (swing_low_idx zz).

(** * Properties *)

(** ** Reading a successful computation backwards *)

Lemma bind_Ok {A B : Type} (m : result A) (f : A → result B) (b : B) :
  m ≫= f = Ok b → ∃ a, m = Ok a ∧ f a = Ok b.
Proof. destruct m as [a|e]; [by exists a | discriminate]. Qed.

Lemma list_assign_Ok {A : Type} (l : list A) (pos : nat) (x : A) (l' : list A) :
  list_assign l pos x = Ok l' → (pos < length l)%nat ∧ l' = <[pos := x]> l.
Proof.
  unfold list_assign. destruct (Nat.ltb_spec pos (length l)); [|discriminate].
  intros [= <-]. done.
Qed.

Lemma _confirm_pivot_Ok zz price idx t zz' :
  _confirm_pivot zz price idx t = Ok zz' →
  ∃ j pos, idx = Some j ∧ _index_to_pos zz !! j = Some pos ∧
    (pos < length (col_ZigZag (historic_dic zz)))%nat ∧
    (pos < length (col_type (historic_dic zz)))%nat ∧
    zz' = annotated zz pos price idx t.
Proof.
  unfold _confirm_pivot. intros H.
  apply bind_Ok in H as (pos & Hpos & H).
  apply bind_Ok in H as (zcol & Hz & H).
  apply bind_Ok in H as (tcol & Ht & H).
  apply list_assign_Ok in Hz as [Hlz ->].
  apply list_assign_Ok in Ht as [Hlt ->].
  destruct idx as [j|]; simpl in Hpos; [|discriminate].
  destruct (_index_to_pos zz !! j) as [pos'|] eqn:Hj; [|discriminate].
  injection Hpos as ->. injection H as <-.
  by exists j, pos.
Qed.

Lemma after_high_Ok zz h l i zz' :
  after_high zz h l i = Ok zz' →
  (fge (_pct_change (swing_low zz) (swing_high zz)) (pct zz) = false ∧
   zz' = set_candidate (Some (swing_low zz)) (swing_low_idx zz) zz) ∨
  (fge (_pct_change (swing_low zz) (swing_high zz)) (pct zz) = true ∧
   ∃ j pos, swing_low_idx zz = Some j ∧ row_of zz j pos ∧
            zz' = low_pivoted zz pos j i).
Proof.
  unfold after_high. intros H. apply bind_Ok in H as (zz1 & H1 & H).
  injection H as <-.
  destruct (fge _ _); [right | left].
  - split; [done|]. apply bind_Ok in H1 as (zzc & Hc & H1). injection H1 as <-.
    apply _confirm_pivot_Ok in Hc as (j & pos & Hj & Hpos & Hz & Ht & ->).
    exists j, pos. rewrite Hj. done.
  - injection H1 as <-. done.
Qed.

Lemma after_low_Ok zz h l i zz' :
  after_low zz h l i = Ok zz' →
  (fge (fopp (_pct_change (swing_high zz) (swing_low zz))) (pct zz) = false ∧
   zz' = set_candidate (Some (swing_high zz)) (swing_high_idx zz) zz) ∨
  (fge (fopp (_pct_change (swing_high zz) (swing_low zz))) (pct zz) = true ∧
   ∃ j pos, swing_high_idx zz = Some j ∧ row_of zz j pos ∧
            zz' = high_pivoted zz pos j i).
Proof.
  unfold after_low. intros H. apply bind_Ok in H as (zz1 & H1 & H).
  injection H as <-.
  destruct (fge _ _); [right | left].
  - split; [done|]. apply bind_Ok in H1 as (zzc & Hc & H1). injection H1 as <-.
    apply _confirm_pivot_Ok in Hc as (j & pos & Hj & Hpos & Hz & Ht & ->).
    exists j, pos. rewrite Hj. done.
  - injection H1 as <-. done.
Qed.

(** In the bootstrap both swing indices must be set, and the direction is
    that of the earlier one. *)
Lemma bootstrap_Ok zz h l i zz' :
  bootstrap zz h l i = Ok zz' →
  ∃ x y, swing_low_idx zz = Some x ∧ swing_high_idx zz = Some y ∧
    ((x = y ∧ zz' = zz) ∨
     (x < y ∧
      ((fge (_pct_change (swing_low zz) (swing_high zz)) (pct zz) = false ∧
        zz' = set_candidate (Some (swing_low zz)) (Some x) zz) ∨
       (fge (_pct_change (swing_low zz) (swing_high zz)) (pct zz) = true ∧
        ∃ pos, row_of zz x pos ∧ zz' = low_pivoted zz pos x i))) ∨
     (y < x ∧
      ((fge (_pct_change (swing_high zz) (swing_low zz)) (pct zz) = false ∧
        zz' = set_candidate (Some (swing_high zz)) (Some y) zz) ∨
       (fge (_pct_change (swing_high zz) (swing_low zz)) (pct zz) = true ∧
        ∃ pos, row_of zz y pos ∧ zz' = high_pivoted zz pos y i)))).
Proof.
  unfold bootstrap. intros H.
  destruct (swing_low_idx zz) as [x|] eqn:Hx; [|discriminate].
  destruct (swing_high_idx zz) as [y|] eqn:Hy; [|discriminate].
  exists x, y. split; [done|]. split; [done|]. simpl in H.
  destruct (Z.ltb_spec x y) as [Hxy|Hxy].
  - right; left. split; [done|].
    apply bind_Ok in H as (zz1 & H1 & H). injection H as <-.
    destruct (fge _ _); [right | left].
    + split; [done|]. apply bind_Ok in H1 as (zzc & Hc & H1). injection H1 as <-.
      apply _confirm_pivot_Ok in Hc as (j & pos & [= <-] & Hpos & Hz & Ht & ->).
      by exists pos.
    + injection H1 as <-. by rewrite ?Hx, ?Hy.
  - destruct (Z.ltb_spec y x) as [Hyx|Hyx].
    + right; right. split; [done|].
      apply bind_Ok in H as (zz1 & H1 & H). injection H as <-.
      destruct (fge _ _); [right | left].
      * split; [done|]. apply bind_Ok in H1 as (zzc & Hc & H1). injection H1 as <-.
        apply _confirm_pivot_Ok in Hc as (j & pos & [= <-] & Hpos & Hz & Ht & ->).
        by exists pos.
      * injection H1 as <-. by rewrite ?Hx, ?Hy.
    + left. injection H as <-. split; [lia | done].
Qed.

(** What [_update_swings] leaves untouched. *)
Lemma _update_swings_frame zz c h l i :
  let zz' := _update_swings zz c h l i in
  pct zz' = pct zz ∧
  last_confirmed_type zz' = last_confirmed_type zz ∧
  last_confirmed_price zz' = last_confirmed_price zz ∧
  last_confirmed_idx zz' = last_confirmed_idx zz ∧
  candidate_price zz' = candidate_price zz ∧
  candidate_idx zz' = candidate_idx zz ∧
  historic_dic zz' = historic_dic zz ∧
  _index_to_pos zz' = _index_to_pos zz ∧
  debug zz' = debug zz ∧ debug_dic zz' = debug_dic zz.
Proof.
  unfold _update_swings, fgt.
  destruct c as [[]|]; simpl;
    repeat (match goal with |- context [if ?b then _ else _] => destruct b end;
            simpl); done.
Qed.

Lemma swung_frame zz h l i :
  pct (swung zz h l i) = pct zz ∧
  last_confirmed_type (swung zz h l i) = last_confirmed_type zz ∧
  last_confirmed_price (swung zz h l i) = last_confirmed_price zz ∧
  last_confirmed_idx (swung zz h l i) = last_confirmed_idx zz ∧
  confirmed (swung zz h l i) = false ∧
  candidate_price (swung zz h l i) = candidate_price zz ∧
  candidate_idx (swung zz h l i) = candidate_idx zz ∧
  historic_dic (swung zz h l i) = historic_dic (_update_df zz h l i) ∧
  _index_to_pos (swung zz h l i) = _index_to_pos (_update_df zz h l i) ∧
  debug (swung zz h l i) = debug zz ∧
  debug_dic (swung zz h l i) = debug_dic zz.
Proof.
  unfold swung. simpl.
  pose proof (_update_swings_frame (_update_df zz h l i)
                (last_confirmed_type zz) h l i) as F.
  simpl in F. destruct F as (? & ? & ? & ? & ? & ? & ? & ? & ? & ?).
  repeat split; assumption.
Qed.

(** The swings [_update_swings] leaves on a valid bar, by phase. *)
Lemma swung_swings zz h l i :
  (swing_high (swung zz h l i), swing_high_idx (swung zz h l i),
   swing_low (swung zz h l i), swing_low_idx (swung zz h l i)) =
  match last_confirmed_type zz with
  | None =>
      (if fgt h (swing_high zz) then h else swing_high zz,
       if fgt h (swing_high zz) then Some i else swing_high_idx zz,
       if flt l (swing_low zz) then l else swing_low zz,
       if flt l (swing_low zz) then Some i else swing_low_idx zz)
  | Some High =>
      if flt l (swing_low zz) then (NInf, Some i, l, Some i)
      else if fgt h (swing_high zz)
           then (h, Some i, swing_low zz, swing_low_idx zz)
           else (swing_high zz, swing_high_idx zz,
                 swing_low zz, swing_low_idx zz)
  | Some Low =>
      if flt (swing_high zz) h then (h, Some i, PInf, Some i)
      else if flt l (swing_low zz)
           then (swing_high zz, swing_high_idx zz, l, Some i)
           else (swing_high zz, swing_high_idx zz,
                 swing_low zz, swing_low_idx zz)
  end.
Proof.
  unfold swung, _update_swings, fgt.
  destruct (last_confirmed_type zz) as [[]|]; simpl;
    destruct (flt (swing_high zz) h) eqn:Hh; simpl;
    destruct (flt l (swing_low zz)) eqn:Hl; simpl; rewrite ?Hh, ?Hl; done.
Qed.

Lemma update_invalid zz h l i :
  invalid_bar h l = true → update zz h l i = Ok (_update_df zz h l i, None).
Proof. intros H. unfold update. cbv zeta. by rewrite H. Qed.

Lemma update_valid zz h l i :
  invalid_bar h l = false →
  update zz h l i =
    (zz2 ← match last_confirmed_type zz with
           | None => bootstrap (swung zz h l i) h l i
           | Some High => after_high (swung zz h l i) h l i
           | Some Low => after_low (swung zz h l i) h l i
           end;
     Ok (traced zz2 h l i, None)).
Proof.
  intros H. unfold update. cbv zeta. rewrite H. unfold swung.
  pose proof (_update_swings_frame (_update_df zz h l i)
                (last_confirmed_type (_update_df zz h l i)) h l i) as F.
  simpl in F. destruct F as (_ & F & _). simpl. by rewrite F.
Qed.

Lemma update_valid_Ok zz h l i zz' r :
  invalid_bar h l = false → update zz h l i = Ok (zz', r) →
  r = None ∧
  ∃ zz2, zz' = traced zz2 h l i ∧
    match last_confirmed_type zz with
    | None => bootstrap (swung zz h l i) h l i
    | Some High => after_high (swung zz h l i) h l i
    | Some Low => after_low (swung zz h l i) h l i
    end = Ok zz2.
Proof.
  intros Hv. rewrite (update_valid _ _ _ _ Hv). intros H.
  apply bind_Ok in H as (zz2 & H2 & [= <- <-]). eauto.
Qed.

(** Step 4 touches [debug_dic] only. *)
Lemma traced_frame zz h l i :
  pct (traced zz h l i) = pct zz ∧
  last_confirmed_type (traced zz h l i) = last_confirmed_type zz ∧
  last_confirmed_price (traced zz h l i) = last_confirmed_price zz ∧
  last_confirmed_idx (traced zz h l i) = last_confirmed_idx zz ∧
  confirmed (traced zz h l i) = confirmed zz ∧
  swing_high (traced zz h l i) = swing_high zz ∧
  swing_high_idx (traced zz h l i) = swing_high_idx zz ∧
  swing_low (traced zz h l i) = swing_low zz ∧
  swing_low_idx (traced zz h l i) = swing_low_idx zz ∧
  candidate_price (traced zz h l i) = candidate_price zz ∧
  candidate_idx (traced zz h l i) = candidate_idx zz ∧
  historic_dic (traced zz h l i) = historic_dic zz ∧
  _index_to_pos (traced zz h l i) = _index_to_pos zz.
Proof. unfold traced. by destruct (debug zz). Qed.

Arguments swung : simpl never.
Arguments traced : simpl never.
Arguments _update_df : simpl never.

(** [_update_df] touches the history only. *)
Lemma update_df_pct zz h l i : pct (_update_df zz h l i) = pct zz.
Proof. reflexivity. Qed.
Lemma update_df_debug zz h l i : debug (_update_df zz h l i) = debug zz.
Proof. reflexivity. Qed.
Lemma update_df_last_confirmed_type zz h l i :
  last_confirmed_type (_update_df zz h l i) = last_confirmed_type zz.
Proof. reflexivity. Qed.
Lemma update_df_last_confirmed_price zz h l i :
  last_confirmed_price (_update_df zz h l i) = last_confirmed_price zz.
Proof. reflexivity. Qed.
Lemma update_df_last_confirmed_idx zz h l i :
  last_confirmed_idx (_update_df zz h l i) = last_confirmed_idx zz.
Proof. reflexivity. Qed.
Lemma update_df_confirmed zz h l i :
  confirmed (_update_df zz h l i) = confirmed zz.
Proof. reflexivity. Qed.
Lemma update_df_swing_high zz h l i :
  swing_high (_update_df zz h l i) = swing_high zz.
Proof. reflexivity. Qed.
Lemma update_df_swing_high_idx zz h l i :
  swing_high_idx (_update_df zz h l i) = swing_high_idx zz.
Proof. reflexivity. Qed.
Lemma update_df_swing_low zz h l i :
  swing_low (_update_df zz h l i) = swing_low zz.
Proof. reflexivity. Qed.
Lemma update_df_swing_low_idx zz h l i :
  swing_low_idx (_update_df zz h l i) = swing_low_idx zz.
Proof. reflexivity. Qed.
Lemma update_df_candidate_price zz h l i :
  candidate_price (_update_df zz h l i) = candidate_price zz.
Proof. reflexivity. Qed.
Lemma update_df_candidate_idx zz h l i :
  candidate_idx (_update_df zz h l i) = candidate_idx zz.
Proof. reflexivity. Qed.
Lemma update_df_debug_dic zz h l i :
  debug_dic (_update_df zz h l i) = debug_dic zz.
Proof. reflexivity. Qed.
Lemma update_df_historic_dic zz h l i :
  historic_dic (_update_df zz h l i) =
    {| col_index := col_index (historic_dic zz) ++ [i];
       col_High := col_High (historic_dic zz) ++ [h];
       col_Low := col_Low (historic_dic zz) ++ [l];
       col_ZigZag := col_ZigZag (historic_dic zz) ++ [NaN];
       col_type := col_type (historic_dic zz) ++ [None] |}.
Proof. reflexivity. Qed.
Lemma update_df_index_to_pos zz h l i :
  _index_to_pos (_update_df zz h l i) =
    <[i := length (col_index (historic_dic zz))]> (_index_to_pos zz).
Proof.
  unfold _update_df. simpl. f_equal. rewrite length_app. simpl. lia.
Qed.

(** The frame lemmas, one attribute at a time, as rewrite rules. *)
Lemma traced_pct zz h l i : pct (traced zz h l i) = pct zz.
Proof. pose proof (traced_frame zz h l i). tauto. Qed.
Lemma traced_last_confirmed_type zz h l i :
  last_confirmed_type (traced zz h l i) = last_confirmed_type zz.
Proof. pose proof (traced_frame zz h l i). tauto. Qed.
Lemma traced_last_confirmed_price zz h l i :
  last_confirmed_price (traced zz h l i) = last_confirmed_price zz.
Proof. pose proof (traced_frame zz h l i). tauto. Qed.
Lemma traced_last_confirmed_idx zz h l i :
  last_confirmed_idx (traced zz h l i) = last_confirmed_idx zz.
Proof. pose proof (traced_frame zz h l i). tauto. Qed.
Lemma traced_confirmed zz h l i : confirmed (traced zz h l i) = confirmed zz.
Proof. pose proof (traced_frame zz h l i). tauto. Qed.
Lemma traced_swing_high zz h l i : swing_high (traced zz h l i) = swing_high zz.
Proof. pose proof (traced_frame zz h l i). tauto. Qed.
Lemma traced_swing_high_idx zz h l i :
  swing_high_idx (traced zz h l i) = swing_high_idx zz.
Proof. pose proof (traced_frame zz h l i). tauto. Qed.
Lemma traced_swing_low zz h l i : swing_low (traced zz h l i) = swing_low zz.
Proof. pose proof (traced_frame zz h l i). tauto. Qed.
Lemma traced_swing_low_idx zz h l i :
  swing_low_idx (traced zz h l i) = swing_low_idx zz.
Proof. pose proof (traced_frame zz h l i). tauto. Qed.
Lemma traced_candidate_price zz h l i :
  candidate_price (traced zz h l i) = candidate_price zz.
Proof. pose proof (traced_frame zz h l i). tauto. Qed.
Lemma traced_candidate_idx zz h l i :
  candidate_idx (traced zz h l i) = candidate_idx zz.
Proof. pose proof (traced_frame zz h l i). tauto. Qed.
Lemma traced_historic_dic zz h l i :
  historic_dic (traced zz h l i) = historic_dic zz.
Proof. pose proof (traced_frame zz h l i). tauto. Qed.
Lemma traced_index_to_pos zz h l i :
  _index_to_pos (traced zz h l i) = _index_to_pos zz.
Proof. pose proof (traced_frame zz h l i). tauto. Qed.
Lemma swung_pct zz h l i : pct (swung zz h l i) = pct zz.
Proof. pose proof (swung_frame zz h l i). tauto. Qed.
Lemma swung_last_confirmed_type zz h l i :
  last_confirmed_type (swung zz h l i) = last_confirmed_type zz.
Proof. pose proof (swung_frame zz h l i). tauto. Qed.
Lemma swung_last_confirmed_price zz h l i :
  last_confirmed_price (swung zz h l i) = last_confirmed_price zz.
Proof. pose proof (swung_frame zz h l i). tauto. Qed.
Lemma swung_last_confirmed_idx zz h l i :
  last_confirmed_idx (swung zz h l i) = last_confirmed_idx zz.
Proof. pose proof (swung_frame zz h l i). tauto. Qed.
Lemma swung_confirmed zz h l i : confirmed (swung zz h l i) = false.
Proof. pose proof (swung_frame zz h l i). tauto. Qed.
Lemma swung_candidate_price zz h l i :
  candidate_price (swung zz h l i) = candidate_price zz.
Proof. pose proof (swung_frame zz h l i). tauto. Qed.
Lemma swung_candidate_idx zz h l i :
  candidate_idx (swung zz h l i) = candidate_idx zz.
Proof. pose proof (swung_frame zz h l i). tauto. Qed.
Lemma swung_historic_dic zz h l i :
  historic_dic (swung zz h l i) = historic_dic (_update_df zz h l i).
Proof. pose proof (swung_frame zz h l i). tauto. Qed.
Lemma swung_index_to_pos zz h l i :
  _index_to_pos (swung zz h l i) = _index_to_pos (_update_df zz h l i).
Proof. pose proof (swung_frame zz h l i). tauto. Qed.
Lemma swung_debug zz h l i : debug (swung zz h l i) = debug zz.
Proof. pose proof (swung_frame zz h l i). tauto. Qed.
Lemma swung_debug_dic zz h l i : debug_dic (swung zz h l i) = debug_dic zz.
Proof. pose proof (swung_frame zz h l i). tauto. Qed.

Create Rewrite HintDb zigzag.
#[local] Hint Rewrite update_df_pct update_df_debug
  update_df_last_confirmed_type update_df_last_confirmed_price
  update_df_last_confirmed_idx update_df_confirmed update_df_swing_high
  update_df_swing_high_idx update_df_swing_low update_df_swing_low_idx
  update_df_candidate_price update_df_candidate_idx update_df_debug_dic
  update_df_historic_dic update_df_index_to_pos : zigzag.
#[local] Hint Rewrite traced_pct traced_last_confirmed_type
  traced_last_confirmed_price traced_last_confirmed_idx traced_confirmed
  traced_swing_high traced_swing_high_idx traced_swing_low
  traced_swing_low_idx traced_candidate_price traced_candidate_idx
  traced_historic_dic traced_index_to_pos
  swung_pct swung_last_confirmed_type swung_last_confirmed_price
  swung_last_confirmed_idx swung_confirmed swung_candidate_price
  swung_candidate_idx swung_historic_dic swung_index_to_pos swung_debug
  swung_debug_dic : zigzag.

#[local] Opaque swung traced _update_df.

Ltac frame := autorewrite with zigzag; simpl; autorewrite with zigzag.

(** Splits a completed call of [update] on a valid bar into the outcomes
    of step 3. *)
Ltac update_cases H Hv :=
  let zz2 := fresh "zz2" in
  let H2 := fresh "H2" in
  let Hl := fresh "Hlast" in
  apply (update_valid_Ok _ _ _ _ _ _ Hv) in H as (-> & zz2 & -> & H2);
  match type of H2 with
  | match last_confirmed_type ?zz with _ => _ end = _ =>
      destruct (last_confirmed_type zz) as [[]|] eqn:Hl;
      [ apply after_high_Ok in H2
          as [[Hch ->] | (Hch & j & pos & Hj & Hrow & ->)]
      | apply after_low_Ok in H2
          as [[Hch ->] | (Hch & j & pos & Hj & Hrow & ->)]
      | apply bootstrap_Ok in H2
          as (x & y & Hx & Hy &
              [[Hxy ->] | [(Hxy & [[Hch ->] | (Hch & pos & Hrow & ->)])
                          | (Hxy & [[Hch ->] | (Hch & pos & Hrow & ->)])]]) ]
  end.

(** ** Alternation of the confirmed pivots *)

(** How one call of [update] moves [last_confirmed_type]: a confirmation
    sets it to the type of the pivot, which differs from the type it held;
    without a confirmation it stays. *)
Lemma update_last_confirmed_type zz b zz' r :
  update zz (b_high b) (b_low b) (b_idx b) = Ok (zz', r) →
  match confirmation b zz' with
  | Some e => last_confirmed_type zz' = Some (p_type e) ∧
              last_confirmed_type zz ≠ Some (p_type e)
  | None => last_confirmed_type zz' = last_confirmed_type zz
  end.
Proof.
  intros H. unfold confirmation.
  destruct (invalid_bar (b_high b) (b_low b)) eqn:Hv.
  - rewrite (update_invalid _ _ _ _ Hv) in H. by injection H as <- <-.
  - update_cases H Hv; frame; rewrite ?Hlast; try done.
Qed.

Lemma confirmations_alternate_from zz bars :
  alternates_from (last_confirmed_type zz) (p_type <$> confirmations zz bars).
Proof.
  revert zz. induction bars as [|b bs IH]; intros zz; simpl; [done|].
  destruct (update zz (b_high b) (b_low b) (b_idx b)) as [[zz' r]|e] eqn:H;
    [|done].
  pose proof (update_last_confirmed_type _ _ _ _ H) as Ht.
  destruct (confirmation b zz') as [e|]; simpl.
  - destruct Ht as [Ht1 Ht2]. split; [congruence|]. rewrite <- Ht1. apply IH.
  - rewrite <- Ht. apply IH.
Qed.

Lemma alternates_from_adjacent prev ts k t t' :
  alternates_from prev ts → ts !! k = Some t → ts !! S k = Some t' →
  t' = opposite t.
Proof.
  revert prev k. induction ts as [|a ts IH]; intros prev k Halt Hk HSk;
    [done|].
  destruct Halt as [_ Halt]. destruct k as [|k]; simpl in *.
  - injection Hk as ->. destruct ts as [|a' ts]; [done|].
    injection HSk as ->. destruct Halt as [Hne _].
    destruct t, t'; simpl; congruence.
  - eapply IH; eauto.
Qed.

(** C1. For every stream of bars fed through [update], starting from any
    engine, two pivots confirmed one after the other have opposite types:
    the confirmed types alternate High, Low, High, ... or Low, High, ... *)
Theorem confirmed_types_alternate (zz : ZigZagClass) (bars : list bar)
    (k : nat) (p q : pivot) :
  confirmations zz bars !! k = Some p →
  confirmations zz bars !! S k = Some q →
  p_type q = opposite (p_type p).
Proof.
  intros Hp Hq.
  apply (alternates_from_adjacent (last_confirmed_type zz)
           (p_type <$> confirmations zz bars) k).
  - apply confirmations_alternate_from.
  - by rewrite list_lookup_fmap, Hp.
  - by rewrite list_lookup_fmap, Hq.
Qed.

(** ** Construction *)

(** C9. Construction raises (a [ValueError]) exactly when [pct <= 0];
    otherwise it yields an engine with [swing_high = -inf],
    [swing_low = +inf], no last confirmed pivot, no candidate and an empty
    history. *)
Theorem init_rejects_nonpositive_pct (pct0 : float) (debug0 : bool) :
  (__init__ pct0 debug0 = Raise ValueError ↔ fle pct0 (Fin 0) = true) ∧
  (fle pct0 (Fin 0) = false ↔
   ∃ zz, __init__ pct0 debug0 = Ok zz ∧
     pct zz = pct0 ∧ debug zz = debug0 ∧
     swing_high zz = NInf ∧ swing_low zz = PInf ∧
     swing_high_idx zz = None ∧ swing_low_idx zz = None ∧
     last_confirmed_type zz = None ∧ last_confirmed_price zz = None ∧
     last_confirmed_idx zz = None ∧
     candidate_price zz = None ∧ candidate_idx zz = None ∧
     historic_dic zz = {| col_index := []; col_High := []; col_Low := [];
                          col_ZigZag := []; col_type := [] |} ∧
     _index_to_pos zz = ∅ ∧ debug_dic zz = []).
Proof.
  unfold __init__. destruct (fle pct0 (Fin 0)).
  - split; [done|]. split; [done|]. by intros (zz & ? & _).
  - split; [done|]. split; [|done]. intros _. by exists (fresh pct0 debug0).
Qed.

(** ** The scenario of the specification *)

(** ** Order facts on prices *)

Lemma flt_irrefl x : flt x x = false.
Proof.
  destruct x as [| | |q]; simpl; try done.
  rewrite (proj2 (Qle_bool_iff q q)); [done | apply Qle_refl].
Qed.

Lemma flt_NInf_r x : flt x NInf = false.
Proof. by destruct x. Qed.

Lemma flt_PInf_l x : flt PInf x = false.
Proof. by destruct x. Qed.

Lemma flt_ne x y : flt x y = true → x ≠ y.
Proof. intros H ->. by rewrite flt_irrefl in H. Qed.

(** ** What [update] returns *)

(** C4, as the code behaves.  A completed call of [update] always returns
    [None].  What it confirmed is reported by the engine instead: after a
    confirmation [confirmed] is set, the [last_confirmed_*] attributes hold
    the pivot, and the history row of the pivot's index carries its price
    and type; without a confirmation the [last_confirmed_*] attributes are
    unchanged and the history has grown by one unannotated row. *)
Theorem update_returns_None (zz : ZigZagClass) (b : bar)
    (zz' : ZigZagClass) (r : option pivot) :
  update zz (b_high b) (b_low b) (b_idx b) = Ok (zz', r) →
  r = None ∧
  match confirmation b zz' with
  | Some e =>
      confirmed zz' = true ∧
      last_confirmed_type zz' = Some (p_type e) ∧
      last_confirmed_price zz' = Some (p_price e) ∧
      last_confirmed_idx zz' = Some (p_index e) ∧
      ∃ pos, _index_to_pos zz' !! p_index e = Some pos ∧
        col_ZigZag (historic_dic zz') !! pos = Some (p_price e) ∧
        col_type (historic_dic zz') !! pos = Some (Some (p_type e))
  | None =>
      last_confirmed_type zz' = last_confirmed_type zz ∧
      last_confirmed_price zz' = last_confirmed_price zz ∧
      last_confirmed_idx zz' = last_confirmed_idx zz ∧
      col_ZigZag (historic_dic zz') = col_ZigZag (historic_dic zz) ++ [NaN] ∧
      col_type (historic_dic zz') = col_type (historic_dic zz) ++ [None]
  end.
Proof.
  intros H. unfold confirmation.
  destruct (invalid_bar (b_high b) (b_low b)) eqn:Hv.
  - rewrite (update_invalid _ _ _ _ Hv) in H. injection H as <- <-.
    by autorewrite with zigzag.
  - update_cases H Hv; (split; [done|]); frame; try done;
      destruct Hrow as (Hpos & Hz & Ht);
      (repeat split; try done);
      exists pos; autorewrite with zigzag in Hpos, Hz, Ht;
      (split; [done|]);
      split; apply list_lookup_insert_eq; assumption.
Qed.

(** ** Candidate after a post-bootstrap update *)

(** C6. The candidate is assigned in step 3 of [update], which a call
    reaches on a valid bar (an invalid bar returns before it, see C5).
    When the last confirmed pivot is a High, a completed call that reaches
    the step leaves as candidate the swing low as it stands at the end of
    the call, value and index, whether or not the call confirmed a pivot;
    symmetrically the swing high when the last confirmed pivot is a Low. *)
Theorem candidate_tracks_swing (zz : ZigZagClass) (high low : float)
    (idx : Z) (zz' : ZigZagClass) (r : option pivot) :
  invalid_bar high low = false →
  update zz high low idx = Ok (zz', r) →
  (last_confirmed_type zz = Some High →
   candidate_price zz' = Some (swing_low zz') ∧
   candidate_idx zz' = swing_low_idx zz') ∧
  (last_confirmed_type zz = Some Low →
   candidate_price zz' = Some (swing_high zz') ∧
   candidate_idx zz' = swing_high_idx zz').
Proof.
  intros Hv H.
  update_cases H Hv; (split; [intros [=] | intros [=]]); by frame.
Qed.

(** ** Same-bar tie-break *)

(** C8. When the last confirmed pivot is a High and the bar makes a new
    swing low, a new high of the same bar is not taken: after the call the
    swing high is not the bar's high (on a valid bar it is back at its
    sentinel, on an invalid bar it is what it was).  Symmetrically for the
    swing low after a last confirmed Low. *)
Theorem same_bar_opposite_extreme_suppressed (zz : ZigZagClass)
    (high low : float) (idx : Z) (zz' : ZigZagClass) (r : option pivot) :
  update zz high low idx = Ok (zz', r) →
  flt low (swing_low zz) = true →
  fgt high (swing_high zz) = true →
  (last_confirmed_type zz = Some High →
   swing_high zz' ≠ high ∧
   swing_high zz' = if invalid_bar high low then swing_high zz else NInf) ∧
  (last_confirmed_type zz = Some Low →
   swing_low zz' ≠ low ∧
   swing_low zz' = if invalid_bar high low then swing_low zz else PInf).
Proof.
  intros H Hl Hh. unfold fgt in Hh.
  assert (high ≠ NInf) as HN by (intros ->; by rewrite flt_NInf_r in Hh).
  assert (low ≠ PInf) as HP by (intros ->; by rewrite flt_PInf_l in Hl).
  apply flt_ne in Hh as Hh'. apply flt_ne in Hl as Hl'.
  destruct (invalid_bar high low) eqn:Hv.
  - rewrite (update_invalid _ _ _ _ Hv) in H. injection H as <- <-.
    autorewrite with zigzag. done.
  - pose proof (swung_swings zz high low idx) as Hs. unfold fgt in Hs.
    rewrite Hl, Hh in Hs.
    update_cases H Hv; (split; [intros [=] | intros [=]]);
      rewrite ?Hlast in Hs; injection Hs as Hsh _ Hsl _;
      frame; rewrite ?Hsh, ?Hsl; done.
Qed.

(** ** Arithmetic of the threshold test *)

Local Open Scope Q_scope.

Lemma Qsign_pos q : 0 < q → Qsign q = Gt.
Proof. intros H. unfold Qsign. by apply Qgt_alt. Qed.

Lemma Qdiv_le_mono a b d : 0 < d → a <= b → a / d <= b / d.
Proof.
  intros Hd Hab. unfold Qdiv. apply Qmult_le_compat_r; [done|].
  apply Qlt_le_weak, Qinv_lt_0_compat, Hd.
Qed.

Lemma Qdiv_pos_inv a d : 0 < d → 0 < a / d → 0 < a.
Proof.
  intros Hd Ha. destruct (Qlt_le_dec 0 a) as [|Hle]; [done|].
  exfalso. apply (Qdiv_le_mono a 0 d Hd) in Hle.
  unfold Qdiv in Hle at 2. rewrite Qmult_0_l in Hle.
  apply (Qlt_irrefl 0). eapply Qlt_le_trans; eauto.
Qed.

Lemma fle_Fin_iff x y : fle (Fin x) (Fin y) = true ↔ x <= y.
Proof. simpl. apply Qle_bool_iff. Qed.

Lemma flt_Fin_iff x y : flt (Fin x) (Fin y) = true ↔ x < y.
Proof.
  simpl. rewrite negb_true_iff. split.
  - intros H. apply Qnot_le_lt. intros Hle.
    apply Qle_bool_iff in Hle. congruence.
  - intros H. apply not_true_is_false. intros Hle.
    apply Qle_bool_iff in Hle. by apply Qle_not_lt in Hle.
Qed.

Lemma flt_Fin_false x y : flt (Fin x) (Fin y) = false ↔ y <= x.
Proof.
  simpl. rewrite negb_false_iff. apply Qle_bool_iff.
Qed.

(** A threshold accepted by [__init__] is positive: whatever it is below is
    a positive finite number or +inf. *)
Lemma pct_le_pos p x : fle p (Fin 0) = false → fle p (Fin x) = true → 0 < x.
Proof.
  destruct p as [| | |c]; simpl; try done. intros Hc Hx.
  apply Qle_bool_iff in Hx. apply Qnot_le_lt. intros Hle.
  assert (Qle_bool c 0 = true) by (apply Qle_bool_iff; by eapply Qle_trans).
  congruence.
Qed.

Lemma pct_le_NInf p : fle p (Fin 0) = false → fle p NInf = false.
Proof. by destruct p. Qed.

Lemma pct_le_NaN p : fle p NaN = false.
Proof. by destruct p. Qed.

Lemma pct_le_mono p x y : fle p (Fin x) = true → x <= y → fle p (Fin y) = true.
Proof.
  destruct p as [| | |c]; simpl; try done. intros Hx Hxy.
  apply Qle_bool_iff. apply Qle_bool_iff in Hx. by eapply Qle_trans.
Qed.

(** ** Order and rounding *)

Lemma fle_trans a b c : fle a b = true → fle b c = true → fle a c = true.
Proof.
  destruct a as [| | |x], b as [| | |y], c as [| | |z]; simpl; try done.
  rewrite !Qle_bool_iff. apply Qle_trans.
Qed.

Lemma fle_Qeq x y : x == y → fle (Fin x) (Fin y) = true.
Proof. intros H. apply fle_Fin_iff. rewrite H. apply Qle_refl. Qed.

Lemma fle_fabs a : isna a = false → fle a (fabs a) = true.
Proof.
  destruct a as [| | |x]; simpl; try done. intros _.
  apply Qle_bool_iff, Qle_Qabs.
Qed.

Lemma fle_fopp_fabs a : isna a = false → fle (fopp a) (fabs a) = true.
Proof.
  destruct a as [| | |x]; simpl; try done. intros _.
  apply Qle_bool_iff. rewrite <- Qabs_opp. apply Qle_Qabs.
Qed.

Lemma fopp_antitone a b : fle a b = true → fle (fopp b) (fopp a) = true.
Proof.
  destruct a as [| | |x], b as [| | |y]; simpl; try done.
  rewrite !Qle_bool_iff. apply Qopp_le_compat.
Qed.

Lemma fdiv_mono a b d :
  0 < d → fle a b = true → fle (fdiv a (Fin d)) (fdiv b (Fin d)) = true.
Proof.
  intros Hd. destruct a as [| | |x], b as [| | |y]; simpl;
    rewrite ?(Qsign_pos d Hd); simpl; try done.
  rewrite !Qle_bool_iff. by apply Qdiv_le_mono.
Qed.

Lemma fdiv_fopp a d :
  0 < d → isna a = false →
  fle (fopp (fdiv a (Fin d))) (fdiv (fopp a) (Fin d)) = true.
Proof.
  intros Hd. destruct a as [| | |x]; simpl;
    rewrite ?(Qsign_pos d Hd); simpl; try done.
  intros _. apply Qle_bool_iff. apply Qle_lteq. right. unfold Qdiv. ring.
Qed.

Lemma isna_fdiv a d : 0 < d → isna (fdiv a (Fin d)) = isna a.
Proof.
  intros Hd. destruct a as [| | |x]; simpl; rewrite ?(Qsign_pos d Hd); done.
Qed.

Lemma isna_round a : isna (round a) = isna a.
Proof. destruct a as [| | |x]; simpl; try done. apply rnd_not_nan. Qed.

Lemma round_mono a b : fle a b = true → fle (round a) (round b) = true.
Proof.
  destruct a as [| | |x], b as [| | |y]; simpl; try done.
  - intros _. pose proof (rnd_not_nan y). by destruct (rnd y).
  - intros _. pose proof (rnd_not_nan x). by destruct (rnd x).
  - rewrite Qle_bool_iff. apply rnd_mono.
Qed.

Lemma round_opp a : round (fopp a) = fopp (round a).
Proof. destruct a as [| | |x]; simpl; try done. apply rnd_opp. Qed.

Lemma rnd_zero : rnd 0 = Fin 0.
Proof. by apply (rnd_dyadic 0 0). Qed.

Lemma rnd_nonpos x : x <= 0 → fle (rnd x) (Fin 0) = true.
Proof. intros H. rewrite <- rnd_zero. by apply rnd_mono. Qed.

Lemma rnd_nonneg x : 0 <= x → fle (Fin 0) (rnd x) = true.
Proof. intros H. rewrite <- rnd_zero. by apply rnd_mono. Qed.

(** A value the threshold is below is above zero. *)
Lemma pct_above_zero p x :
  fle p (Fin 0) = false → fle p x = true → fle x (Fin 0) = false.
Proof.
  intros Hp Hx. apply not_true_is_false. intros H0.
  by rewrite (fle_trans _ _ _ Hx H0) in Hp.
Qed.

(** ** The change [_pct_change] computes *)

(** A swing at its sentinel never passes the threshold test. *)
Lemma pct_change_PInf x : _pct_change PInf x = NaN.
Proof. by destruct x. Qed.

Lemma pct_change_NInf x : _pct_change NInf x = NaN.
Proof. by destruct x. Qed.

Lemma pct_change_Fin r n :
  _pct_change (Fin r) (Fin n) = round (fdiv (rnd (n - r)) (Fin r)).
Proof. reflexivity. Qed.

Lemma pct_change_Fin_NInf r : 0 < r → _pct_change (Fin r) NInf = NInf.
Proof. intros Hr. unfold _pct_change. simpl. by rewrite (Qsign_pos r Hr). Qed.

Lemma pct_change_Fin_PInf r : 0 < r → _pct_change (Fin r) PInf = PInf.
Proof. intros Hr. unfold _pct_change. simpl. by rewrite (Qsign_pos r Hr). Qed.

(** On a positive reference the change grows with the new price, whatever
    the rounding. *)
Lemma pct_change_mono r a b :
  0 < r → a <= b →
  fle (_pct_change (Fin r) (Fin a)) (_pct_change (Fin r) (Fin b)) = true.
Proof.
  intros Hr Hab. rewrite !pct_change_Fin.
  apply round_mono, fdiv_mono; [done|]. apply rnd_mono. lra.
Qed.

Lemma pct_change_nonpos r n :
  0 < r → n <= r → fle (_pct_change (Fin r) (Fin n)) (Fin 0) = true.
Proof.
  intros Hr Hn. rewrite pct_change_Fin.
  apply (fle_trans _ (round (fdiv (Fin 0) (Fin r)))).
  - apply round_mono, fdiv_mono; [done|]. apply rnd_nonpos. lra.
  - simpl. rewrite (Qsign_pos r Hr). simpl. apply rnd_nonpos.
    apply Qle_lteq. right. unfold Qdiv. ring.
Qed.

Lemma pct_change_nonneg r n :
  0 < r → r <= n → fle (Fin 0) (_pct_change (Fin r) (Fin n)) = true.
Proof.
  intros Hr Hn. rewrite pct_change_Fin.
  apply (fle_trans _ (round (fdiv (Fin 0) (Fin r)))).
  - simpl. rewrite (Qsign_pos r Hr). simpl. apply rnd_nonneg.
    apply Qle_lteq. right. unfold Qdiv. ring.
  - apply round_mono, fdiv_mono; [done|]. apply rnd_nonneg. lra.
Qed.

(** A change that passes a positive threshold is a rise; its opposite
    passing is a fall. *)
Lemma pct_change_rise p r n :
  fle p (Fin 0) = false → 0 < r →
  fle p (_pct_change (Fin r) (Fin n)) = true → r < n.
Proof.
  intros Hp Hr H. apply Qnot_le_lt. intros Hle.
  pose proof (pct_above_zero _ _ Hp H) as Hz.
  by rewrite (pct_change_nonpos r n Hr Hle) in Hz.
Qed.

Lemma pct_change_fall p r n :
  fle p (Fin 0) = false → 0 < r →
  fle p (fopp (_pct_change (Fin r) (Fin n))) = true → n < r.
Proof.
  intros Hp Hr H. apply Qnot_le_lt. intros Hle.
  pose proof (fopp_antitone _ _ (pct_change_nonneg r n Hr Hle)) as H0.
  assert (fle (fopp (Fin 0)) (Fin 0) = true) as Hz by reflexivity.
  pose proof (pct_above_zero _ _ Hp H) as Hn.
  by rewrite (fle_trans _ _ _ H0 Hz) in Hn.
Qed.

(** ** Threshold between consecutive pivots *)

Lemma positive_bar_valid b :
  positive_bar b = true → invalid_bar (b_high b) (b_low b) = false →
  ∃ h l, b_high b = Fin h ∧ b_low b = Fin l ∧ 0 < l ∧ l <= h.
Proof.
  unfold positive_bar. intros Hp Hv. rewrite Hv in Hp. simpl in Hp.
  destruct (b_high b) as [| | |h]; try done.
  destruct (b_low b) as [| | |l]; try done.
  exists h, l. split; [done|]. split; [done|].
  apply negb_true_iff in Hp. split.
  - apply Qnot_le_lt. intros Hle. apply Qle_bool_iff in Hle. congruence.
  - unfold invalid_bar in Hv. simpl in Hv. by apply negb_false_iff, Qle_bool_iff in Hv.
Qed.

(** The threshold test of [after_high] and of the upward bootstrap. *)
Lemma confirm_up p r x :
  fle p (Fin 0) = false → 0 < r →
  x = NInf ∨ (∃ n, x = Fin n) →
  fge (_pct_change (Fin r) x) p = true →
  ∃ n, x = Fin n ∧ fle p (_pct_change (Fin r) (Fin n)) = true ∧ r < n.
Proof.
  intros Hp Hr [-> | [n ->]] H; unfold fge in H.
  - rewrite (pct_change_Fin_NInf r Hr) in H.
    by rewrite (pct_le_NInf p Hp) in H.
  - exists n. split; [done|]. split; [done|]. by eapply pct_change_rise.
Qed.

(** The threshold test of [after_low]. *)
Lemma confirm_down p r x :
  fle p (Fin 0) = false → 0 < r →
  x = PInf ∨ (∃ n, x = Fin n) →
  fge (fopp (_pct_change (Fin r) x)) p = true →
  ∃ n, x = Fin n ∧ fle p (fopp (_pct_change (Fin r) (Fin n))) = true ∧ n < r.
Proof.
  intros Hp Hr [-> | [n ->]] H; unfold fge in H.
  - rewrite (pct_change_Fin_PInf r Hr) in H. simpl in H.
    by rewrite (pct_le_NInf p Hp) in H.
  - exists n. split; [done|]. split; [done|]. by eapply pct_change_fall.
Qed.

(** The downward test of the bootstrap computes a change that is never
    positive on positive prices. *)
Lemma confirm_bootstrap_down p H L :
  fle p (Fin 0) = false → 0 < L → L <= H →
  fge (_pct_change (Fin H) (Fin L)) p = false.
Proof.
  intros Hp HL HLH. apply not_true_is_false. intros Hc.
  assert (0 < H) as HH by lra. unfold fge in Hc.
  pose proof (pct_above_zero _ _ Hp Hc) as Hz.
  by rewrite (pct_change_nonpos H L HH HLH) in Hz.
Qed.

(** The relative move between two finite prices. *)
Lemma relative_move_Fin P Q0 :
  relative_move (Fin P) (Fin Q0) =
    round (fdiv (fabs (rnd (Q0 - P))) (Fin P)).
Proof. reflexivity. Qed.

Lemma threshold_up p P H :
  0 < P → fle p (_pct_change (Fin P) (Fin H)) = true →
  fge (relative_move (Fin P) (Fin H)) p = true.
Proof.
  intros HP Hle. unfold fge. eapply fle_trans; [exact Hle|].
  rewrite pct_change_Fin, relative_move_Fin.
  apply round_mono, fdiv_mono; [done|]. apply fle_fabs, rnd_not_nan.
Qed.

Lemma threshold_down p P L :
  0 < P → fle p (fopp (_pct_change (Fin P) (Fin L))) = true →
  fge (relative_move (Fin P) (Fin L)) p = true.
Proof.
  intros HP Hle. unfold fge. eapply fle_trans; [exact Hle|].
  rewrite pct_change_Fin, relative_move_Fin, <- round_opp.
  apply round_mono.
  eapply fle_trans; [apply fdiv_fopp; [done | apply rnd_not_nan]|].
  apply fdiv_mono; [done|]. apply fle_fopp_fabs, rnd_not_nan.
Qed.

(** [phase_inv] reads the threshold, the last confirmed pivot and the swings
    only. *)
Lemma phase_inv_ext zz zz' :
  pct zz' = pct zz →
  last_confirmed_type zz' = last_confirmed_type zz →
  last_confirmed_price zz' = last_confirmed_price zz →
  swing_high zz' = swing_high zz → swing_low zz' = swing_low zz →
  phase_inv zz → phase_inv zz'.
Proof.
  intros Hp Ht Hpr Hh Hl [| H L | P H | P L];
    [ apply inv_fresh | apply (inv_bootstrap _ H L)
    | apply (inv_after_low _ P H) | apply (inv_after_high _ P L) ];
    congruence.
Qed.

Ltac use_swings :=
  repeat match goal with
  | H : swing_high (swung _ _ _ _) = _
    |- context [swing_high (swung _ _ _ _)] => rewrite H
  | H : swing_low (swung _ _ _ _) = _
    |- context [swing_low (swung _ _ _ _)] => rewrite H
  end.

Ltac use_swings_hyp :=
  repeat match goal with
  | Hc : fge _ _ = _ |- _ => progress autorewrite with zigzag in Hc
  | H : swing_high (swung _ _ _ _) = _, Hc : fge _ _ = _ |- _ =>
      rewrite H in Hc
  | H : swing_low (swung _ _ _ _) = _, Hc : fge _ _ = _ |- _ =>
      rewrite H in Hc
  end.

Lemma update_phase_inv zz b zz' r :
  fle (pct zz) (Fin 0) = false → phase_inv zz → positive_bar b = true →
  update zz (b_high b) (b_low b) (b_idx b) = Ok (zz', r) →
  pct zz' = pct zz ∧ phase_inv zz' ∧
  (invalid_bar (b_high b) (b_low b) = false → started zz') ∧
  (started zz → started zz') ∧
  match confirmation b zz' with
  | Some e =>
      last_confirmed_price zz' = Some (p_price e) ∧
      ∀ P, last_confirmed_price zz = Some P →
           fge (relative_move P (p_price e)) (pct zz) = true
  | None => last_confirmed_price zz' = last_confirmed_price zz
  end.
Proof.
  intros Hp Hinv Hb H. unfold confirmation, started.
  destruct (invalid_bar (b_high b) (b_low b)) eqn:Hv.
  - rewrite (update_invalid _ _ _ _ Hv) in H. injection H as <- <-.
    autorewrite with zigzag. split; [done|].
    split; [by apply (phase_inv_ext zz); autorewrite with zigzag|]. done.
  - destruct (positive_bar_valid b Hb Hv) as (h & l & Hh & Hl & Hl0 & Hlh).
    rewrite Hh, Hl in *.
    pose proof (swung_swings zz (Fin h) (Fin l) (b_idx b)) as Hs.
    destruct Hinv as [Ht Hpr Hsh Hsl | H0 L0 Ht Hpr Hsh Hsl HL0 HLH
                     | P H0 Ht Hpr HP Hsh HH0 Hth Hsl
                     | P L0 Ht Hpr HP Hsl HL0 Hth Hsh].
    + (* first valid bar *)
      rewrite Ht, Hsh, Hsl in Hs. simpl in Hs.
      injection Hs as Hs1 Hs2 Hs3 Hs4.
      update_cases H Hv; try congruence; frame;
        rewrite Hs4 in Hx; rewrite Hs2 in Hy;
        try (injection Hx as <-; injection Hy as <-;
             exfalso; revert Hxy; apply Z.lt_irrefl).
      split; [done|]. split.
      { apply (inv_bootstrap _ h l); frame; use_swings; done. }
      use_swings. done.
    + (* bootstrap *)
      rewrite Ht, Hsh, Hsl in Hs. unfold fgt in Hs.
      assert (∃ H1 L1, swing_high (swung zz (Fin h) (Fin l) (b_idx b)) = Fin H1 ∧
                       swing_low (swung zz (Fin h) (Fin l) (b_idx b)) = Fin L1 ∧
                       0 < L1 ∧ L1 <= H1) as (H1 & L1 & Hs1 & Hs3 & HL1 & HLH1).
      { destruct (flt (Fin H0) (Fin h)) eqn:C1;
          destruct (flt (Fin l) (Fin L0)) eqn:C2;
          injection Hs as Hs1 _ Hs3 _;
          try apply flt_Fin_iff in C1; try apply flt_Fin_iff in C2;
          try apply flt_Fin_false in C1; try apply flt_Fin_false in C2;
          eexists _, _; (split; [exact Hs1|]); (split; [exact Hs3|]); lra. }
      clear Hs.
      update_cases H Hv; try congruence; frame; use_swings_hyp.
      * split; [done|]. split.
        { apply (inv_bootstrap _ H1 L1); frame; use_swings; done. }
        use_swings. repeat split; try done; intros; congruence.
      * split; [done|]. split.
        { apply (inv_bootstrap _ H1 L1); frame; use_swings; done. }
        use_swings. repeat split; try done; intros; congruence.
      * apply (confirm_up _ _ _ Hp HL1) in Hch as (n & [= <-] & Hn & Hlt);
          [|eauto].
        split; [done|]. split.
        { apply (inv_after_low _ L1 H1); frame; use_swings;
            try done; [lra | by left]. }
        use_swings. repeat split; try done. intros P0 HP0. congruence.
      * split; [done|]. split.
        { apply (inv_bootstrap _ H1 L1); frame; use_swings; done. }
        use_swings. repeat split; try done; intros; congruence.
      * by rewrite (confirm_bootstrap_down _ _ _ Hp HL1 HLH1) in Hch.
    + (* after a Low pivot *)
      rewrite Ht, Hsh in Hs.
      assert (∃ H1, swing_high (swung zz (Fin h) (Fin l) (b_idx b)) = Fin H1 ∧
                    H0 <= H1 ∧
                    (swing_low (swung zz (Fin h) (Fin l) (b_idx b)) = PInf ∨
                     finite_pos (swing_low (swung zz (Fin h) (Fin l) (b_idx b)))))
        as (H1 & Hs1 & HH1 & Hs3).
      { destruct (flt (Fin H0) (Fin h)) eqn:C1.
        - injection Hs as Hs1 _ Hs3 _. apply flt_Fin_iff in C1.
          exists h. split; [done|]. split; [lra|]. by left.
        - destruct (flt (Fin l) (swing_low zz)) eqn:C2;
            injection Hs as Hs1 _ Hs3 _; exists H0;
            (split; [done|]); (split; [lra|]).
          + right. exists l. done.
          + by rewrite Hs3. }
      clear Hs.
      assert (fle (pct zz) (_pct_change (Fin P) (Fin H1)) = true) as Hth1.
      { eapply fle_trans; [exact Hth|]. by apply pct_change_mono. }
      assert (0 < H1) as HH1pos by lra.
      update_cases H Hv; try congruence; frame; use_swings_hyp.
      * split; [done|]. split.
        { apply (inv_after_low _ P H1); frame; use_swings; done. }
        use_swings. repeat split; try done; intros; congruence.
      * apply (confirm_down _ _ _ Hp HH1pos) in Hch as (n & Hn & Hthn & Hlt).
        2:{ destruct Hs3 as [->|(q & -> & _)]; eauto. }
        assert (0 < n) as Hnpos.
        { destruct Hs3 as [Hs3|(q & Hs3 & Hq)]; congruence. }
        split; [done|]. split.
        { apply (inv_after_high _ H1 n); frame; use_swings;
            try done. by left. }
        use_swings. repeat split; try done.
        intros P0 HP0. rewrite Hpr in HP0. injection HP0 as <-.
        by apply threshold_up.
    + (* after a High pivot *)
      rewrite Ht, Hsl in Hs. unfold fgt in Hs.
      assert (∃ L1, swing_low (swung zz (Fin h) (Fin l) (b_idx b)) = Fin L1 ∧
                    0 < L1 ∧ L1 <= L0 ∧
                    (swing_high (swung zz (Fin h) (Fin l) (b_idx b)) = NInf ∨
                     finite_pos (swing_high (swung zz (Fin h) (Fin l) (b_idx b)))))
        as (L1 & Hs3 & HL1 & HL10 & Hs1).
      { destruct (flt (Fin l) (Fin L0)) eqn:C1.
        - injection Hs as Hs1 _ Hs3 _. apply flt_Fin_iff in C1.
          exists l. split; [done|]. split; [done|]. split; [lra|]. by left.
        - destruct (flt (swing_high zz) (Fin h)) eqn:C2;
            injection Hs as Hs1 _ Hs3 _; exists L0;
            (split; [done|]); (split; [done|]); (split; [lra|]).
          + right. exists h. split; [done|lra].
          + by rewrite Hs1. }
      clear Hs.
      assert (fle (pct zz) (fopp (_pct_change (Fin P) (Fin L1))) = true)
        as Hth1.
      { eapply fle_trans; [exact Hth|].
        by apply fopp_antitone, pct_change_mono. }
      update_cases H Hv; try congruence; frame; use_swings_hyp.
      * split; [done|]. split.
        { apply (inv_after_high _ P L1); frame; use_swings; done. }
        use_swings. repeat split; try done; intros; congruence.
      * apply (confirm_up _ _ _ Hp HL1) in Hch as (n & Hn & Hthn & Hlt).
        2:{ destruct Hs1 as [->|(q & -> & _)]; eauto. }
        split; [done|]. split.
        { apply (inv_after_low _ L1 n); frame; use_swings;
            try done; [lra | by left]. }
        use_swings. repeat split; try done.
        intros P0 HP0. rewrite Hpr in HP0. injection HP0 as <-.
        by apply threshold_down.
Qed.

Lemma confirmations_threshold_chain zz bars :
  fle (pct zz) (Fin 0) = false → phase_inv zz →
  forallb positive_bar bars = true →
  threshold_chain (pct zz) (last_confirmed_price zz) (confirmations zz bars).
Proof.
  revert zz. induction bars as [|b bs IH]; intros zz Hp Hinv Hbars;
    simpl; [done|].
  simpl in Hbars. apply andb_true_iff in Hbars as [Hb Hbs].
  destruct (update zz (b_high b) (b_low b) (b_idx b)) as [[zz' r]|e] eqn:H;
    [|done].
  destruct (update_phase_inv _ _ _ _ Hp Hinv Hb H)
    as (Hpct & Hinv' & _ & _ & Hev).
  assert (fle (pct zz') (Fin 0) = false) as Hp' by (by rewrite Hpct).
  specialize (IH zz' Hp' Hinv' Hbs). rewrite Hpct in IH.
  destruct (confirmation b zz') as [e|]; simpl.
  - destruct Hev as [He1 He2]. rewrite He1 in IH. done.
  - by rewrite Hev in IH.
Qed.

Lemma threshold_chain_adjacent p prev evs k e e' :
  threshold_chain p prev evs →
  evs !! k = Some e → evs !! S k = Some e' →
  fge (relative_move (p_price e) (p_price e')) p = true.
Proof.
  revert prev k. induction evs as [|a evs IH]; intros prev k Hc Hk HSk;
    [done|].
  destruct Hc as [_ Hc]. destruct k as [|k]; simpl in *.
  - injection Hk as ->. destruct evs as [|a' evs]; [done|].
    injection HSk as ->. destruct Hc as [Hc _]. by apply Hc.
  - eapply IH; eauto.
Qed.

Lemma init_phase_inv pct0 debug0 zz0 :
  __init__ pct0 debug0 = Ok zz0 →
  pct zz0 = pct0 ∧ fle (pct zz0) (Fin 0) = false ∧ phase_inv zz0.
Proof.
  unfold __init__. destruct (fle pct0 (Fin 0)) eqn:Hp; [done|].
  intros [= <-]. split; [done|]. split; [done|]. by apply inv_fresh.
Qed.

(** C2, on positive prices and as float64 arithmetic computes the move.
    When every valid bar of the stream has finite prices and a positive
    low, two pivots confirmed one after the other by a newly constructed
    engine are at least [pct] apart, relative to the earlier one:
    [|q - p| / p >= pct], where the difference and the quotient are the
    rounded results of the two operations, whatever the rounding.  The
    exact quotient may be below [pct] by the rounding error. *)
Theorem threshold_between_pivots (pct0 : float) (debug0 : bool)
    (zz0 : ZigZagClass) (bars : list bar) (k : nat) (p q : pivot) :
  __init__ pct0 debug0 = Ok zz0 →
  forallb positive_bar bars = true →
  confirmations zz0 bars !! k = Some p →
  confirmations zz0 bars !! S k = Some q →
  fge (relative_move (p_price p) (p_price q)) pct0 = true.
Proof.
  intros Hinit Hbars Hp Hq.
  destruct (init_phase_inv _ _ _ Hinit) as (Hpct & Hpos & Hinv).
  rewrite <- Hpct.
  eapply threshold_chain_adjacent; [|exact Hp|exact Hq].
  by apply confirmations_threshold_chain.
Qed.

(** ** The invariant along a stream *)

Lemma run_phase_inv zz bars zz' :
  fle (pct zz) (Fin 0) = false → phase_inv zz →
  forallb positive_bar bars = true →
  run zz bars = Ok zz' →
  phase_inv zz' ∧ (started zz ∨ existsb valid_bar bars = true → started zz').
Proof.
  revert zz. induction bars as [|b bs IH]; intros zz Hp Hinv Hbars Hrun;
    simpl in *.
  - injection Hrun as <-. split; [done|]. by intros [?|?].
  - apply andb_true_iff in Hbars as [Hb Hbs].
    apply bind_Ok in Hrun as ([zz1 r] & H & Hrun). simpl in Hrun.
    destruct (update_phase_inv _ _ _ _ Hp Hinv Hb H)
      as (Hpct & Hinv' & Hst1 & Hst2 & _).
    assert (fle (pct zz1) (Fin 0) = false) as Hp' by (by rewrite Hpct).
    destruct (IH zz1 Hp' Hinv' Hbs Hrun) as [Hinv2 Hst].
    split; [done|]. intros Hor. apply Hst.
    unfold valid_bar in Hor at 1.
    destruct (invalid_bar (b_high b) (b_low b)); simpl in Hor.
    + destruct Hor as [?|?]; [left; by apply Hst2 | by right].
    + left. by apply Hst1.
Qed.

(** ** Where pivots come from *)

Local Open Scope Z_scope.

Lemma from_valid_bar_mono seen b t price idx :
  from_valid_bar seen t price idx → from_valid_bar (seen ++ [b]) t price idx.
Proof.
  intros (b' & Hin & Hrest). exists b'. split; [|done].
  apply elem_of_app. by left.
Qed.

Lemma from_valid_bar_last seen b t :
  valid_bar b = true →
  from_valid_bar (seen ++ [b]) t
    (match t with High => b_high b | Low => b_low b end) (Some (b_idx b)).
Proof.
  intros Hv. exists b. split; [|done]. apply elem_of_app. right.
  by apply list_elem_of_singleton.
Qed.

Lemma swings_from_swung seen zz b :
  valid_bar b = true → swings_from seen zz →
  swings_from (seen ++ [b]) (swung zz (b_high b) (b_low b) (b_idx b)).
Proof.
  intros Hv [Hh Hl]. unfold swings_from.
  assert (swing_high zz = NInf ∨
          from_valid_bar (seen ++ [b]) High (swing_high zz) (swing_high_idx zz))
    as Hh' by (destruct Hh; [by left | right; by apply from_valid_bar_mono]).
  assert (swing_low zz = PInf ∨
          from_valid_bar (seen ++ [b]) Low (swing_low zz) (swing_low_idx zz))
    as Hl' by (destruct Hl; [by left | right; by apply from_valid_bar_mono]).
  pose proof (from_valid_bar_last seen b High Hv) as Nh.
  pose proof (from_valid_bar_last seen b Low Hv) as Nl.
  pose proof (swung_swings zz (b_high b) (b_low b) (b_idx b)) as Hs.
  unfold fgt in Hs.
  destruct (last_confirmed_type zz) as [[]|];
    destruct (flt (swing_high zz) (b_high b));
    destruct (flt (b_low b) (swing_low zz));
    injection Hs as -> -> -> ->; split; auto.
Qed.

(** The threshold test fails on a swing at its sentinel. *)
Lemma confirm_not_PInf x p : fge (_pct_change PInf x) p = false.
Proof. unfold fge. rewrite pct_change_PInf. apply pct_le_NaN. Qed.

Lemma confirm_not_NInf x p : fge (_pct_change NInf x) p = false.
Proof. unfold fge. rewrite pct_change_NInf. apply pct_le_NaN. Qed.

Lemma confirm_opp_not_NInf x p : fge (fopp (_pct_change NInf x)) p = false.
Proof. unfold fge. rewrite pct_change_NInf. apply pct_le_NaN. Qed.

(** One call of [update]: the swings keep coming from valid bars, and so
    does the pivot it confirms. *)
Lemma update_swings_from seen zz b zz' r :
  swings_from seen zz →
  update zz (b_high b) (b_low b) (b_idx b) = Ok (zz', r) →
  swings_from (seen ++ [b]) zz' ∧
  ∀ e, confirmation b zz' = Some e →
       from_valid_bar (seen ++ [b]) (p_type e) (p_price e) (Some (p_index e)).
Proof.
  intros Hsw H. unfold confirmation.
  destruct (invalid_bar (b_high b) (b_low b)) eqn:Hv.
  - rewrite (update_invalid _ _ _ _ Hv) in H. injection H as <- <-.
    split; [|done]. destruct Hsw as [Hh Hl]. unfold swings_from.
    autorewrite with zigzag.
    split; [destruct Hh | destruct Hl];
      (by left) || (right; by apply from_valid_bar_mono).
  - assert (valid_bar b = true) as Hvb by (unfold valid_bar; by rewrite Hv).
    destruct (swings_from_swung seen zz b Hvb Hsw) as [Hh Hl].
    update_cases H Hv; unfold swings_from; frame; (split; [split|]);
      try done; try (by left).
    + intros e [= <-]. simpl. destruct Hl as [Hl|Hl].
      * use_swings_hyp. by rewrite confirm_not_PInf in Hch.
      * by rewrite Hj in Hl.
    + intros e [= <-]. simpl. destruct Hh as [Hh|Hh].
      * use_swings_hyp. by rewrite confirm_opp_not_NInf in Hch.
      * by rewrite Hj in Hh.
    + intros e [= <-]. simpl. destruct Hl as [Hl|Hl].
      * use_swings_hyp. by rewrite confirm_not_PInf in Hch.
      * by rewrite Hx in Hl.
    + intros e [= <-]. simpl. destruct Hh as [Hh|Hh].
      * use_swings_hyp. by rewrite confirm_not_NInf in Hch.
      * by rewrite Hy in Hh.
Qed.

(** ** The history *)

(** What one call of [update] does to the history: one row is appended and
    indexed; a confirmation then annotates the row of the pivot's index. *)
Lemma update_historic zz b zz' r :
  update zz (b_high b) (b_low b) (b_idx b) = Ok (zz', r) →
  col_index (historic_dic zz') = col_index (historic_dic zz) ++ [b_idx b] ∧
  col_High (historic_dic zz') = col_High (historic_dic zz) ++ [b_high b] ∧
  col_Low (historic_dic zz') = col_Low (historic_dic zz) ++ [b_low b] ∧
  _index_to_pos zz' =
    <[b_idx b := length (col_index (historic_dic zz))]> (_index_to_pos zz) ∧
  match confirmation b zz' with
  | None =>
      col_ZigZag (historic_dic zz') = col_ZigZag (historic_dic zz) ++ [NaN] ∧
      col_type (historic_dic zz') = col_type (historic_dic zz) ++ [None]
  | Some e =>
      ∃ pos, _index_to_pos zz' !! p_index e = Some pos ∧
        col_ZigZag (historic_dic zz') =
          <[pos := p_price e]> (col_ZigZag (historic_dic zz) ++ [NaN]) ∧
        col_type (historic_dic zz') =
          <[pos := Some (p_type e)]> (col_type (historic_dic zz) ++ [None])
  end.
Proof.
  intros H. unfold confirmation.
  destruct (invalid_bar (b_high b) (b_low b)) eqn:Hv.
  - rewrite (update_invalid _ _ _ _ Hv) in H. injection H as <- <-.
    by autorewrite with zigzag.
  - update_cases H Hv; frame; try done;
      destruct Hrow as (Hpos & _ & _); autorewrite with zigzag in Hpos;
      (repeat split; try done); by exists pos.
Qed.

Lemma hist_ok_fresh pct0 debug0 : hist_ok [] (fresh pct0 debug0).
Proof.
  split; simpl; try done.
  intros b H. by apply elem_of_nil in H.
Qed.

Lemma update_hist_ok seen zz b zz' r :
  hist_ok seen zz →
  update zz (b_high b) (b_low b) (b_idx b) = Ok (zz', r) →
  hist_ok (seen ++ [b]) zz'.
Proof.
  intros [Hi Hz Ht Hp Hd] H.
  destruct (update_historic _ _ _ _ H) as (Hi' & _ & _ & Hm & Hc).
  assert (length (col_index (historic_dic zz)) = length seen) as Hlen
    by (by rewrite Hi, length_fmap).
  split.
  - by rewrite Hi', Hi, fmap_app.
  - destruct (confirmation b zz') as [e|].
    + destruct Hc as (pos & _ & -> & _).
      rewrite length_insert, !length_app. simpl. lia.
    + destruct Hc as [-> _]. rewrite !length_app. simpl. lia.
  - destruct (confirmation b zz') as [e|].
    + destruct Hc as (pos & _ & _ & ->).
      rewrite length_insert, !length_app. simpl. lia.
    + destruct Hc as [_ ->]. rewrite !length_app. simpl. lia.
  - intros j pos. rewrite Hm, Hi'. destruct (decide (b_idx b = j)) as [<-|Hne].
    + rewrite lookup_insert_eq. intros [= <-].
      by rewrite lookup_app_r, Nat.sub_diag.
    + rewrite lookup_insert_ne by done. intros Hj.
      apply Hp in Hj. by apply lookup_app_l_Some.
  - intros b' Hin. rewrite Hm. destruct (decide (b_idx b = b_idx b')) as [->|Hne].
    + rewrite lookup_insert_eq. eauto.
    + rewrite lookup_insert_ne by done. apply Hd.
      apply elem_of_app in Hin as [Hin|Hin]; [done|].
      apply list_elem_of_singleton in Hin. congruence.
Qed.

(** A row whose index no valid bar carries is never annotated. *)
Lemma update_row_kept seen zz b zz' r n i :
  hist_ok seen zz → swings_from seen zz →
  col_index (historic_dic zz) !! n = Some i →
  (∀ b', b' ∈ seen ++ [b] → valid_bar b' = true → b_idx b' ≠ i) →
  update zz (b_high b) (b_low b) (b_idx b) = Ok (zz', r) →
  col_ZigZag (historic_dic zz') !! n = col_ZigZag (historic_dic zz) !! n ∧
  col_type (historic_dic zz') !! n = col_type (historic_dic zz) !! n.
Proof.
  intros Hok Hsw Hn Hfree H.
  pose proof (update_hist_ok _ _ _ _ _ Hok H) as Hok'.
  destruct Hok as [Hi Hz Ht Hp Hd].
  destruct (update_historic _ _ _ _ H) as (Hi' & _ & _ & Hm & Hc).
  destruct (update_swings_from _ _ _ _ _ Hsw H) as [_ Hev].
  assert (n < length seen)%nat as Hlt.
  { apply lookup_lt_Some in Hn. by rewrite Hi, length_fmap in Hn. }
  destruct (confirmation b zz') as [e|].
  - destruct Hc as (pos & Hpos & -> & ->).
    destruct (Hev e eq_refl) as (b' & Hin & Hv & [= Hidx] & _).
    assert (pos ≠ n) as Hne.
    { intros ->. apply (hist_pos _ _ Hok') in Hpos.
      rewrite Hi', lookup_app_l in Hpos
        by (by rewrite Hi, length_fmap).
      rewrite Hn in Hpos. injection Hpos as Hpos.
      apply (Hfree b' Hin Hv). congruence. }
    rewrite !list_lookup_insert_ne by done.
    rewrite !lookup_app_l by lia. done.
  - destruct Hc as [-> ->]. rewrite !lookup_app_l by lia. done.
Qed.

Lemma run_app zz bars1 bars2 :
  run zz (bars1 ++ bars2) = (zz1 ← run zz bars1; run zz1 bars2).
Proof.
  revert zz. induction bars1 as [|b bs IH]; intros zz; simpl; [done|].
  destruct (update zz (b_high b) (b_low b) (b_idx b)) as [[zz1 r]|e];
    simpl; [apply IH | done].
Qed.

Lemma app_cons_snoc {A : Type} (l : list A) (x : A) (k : list A) :
  l ++ x :: k = (l ++ [x]) ++ k.
Proof. by rewrite <- app_assoc. Qed.

Lemma run_invariants seen zz bars zz' :
  hist_ok seen zz → swings_from seen zz → run zz bars = Ok zz' →
  hist_ok (seen ++ bars) zz' ∧ swings_from (seen ++ bars) zz'.
Proof.
  revert seen zz. induction bars as [|b bs IH]; intros seen zz Hok Hsw Hrun;
    simpl in Hrun.
  - injection Hrun as <-. by rewrite app_nil_r.
  - apply bind_Ok in Hrun as ([zz1 r] & H & Hrun). simpl in Hrun.
    rewrite app_cons_snoc.
    destruct (update_swings_from _ _ _ _ _ Hsw H) as [Hsw1 _].
    apply (IH (seen ++ [b]) zz1); [|done|done].
    by eapply update_hist_ok.
Qed.

Lemma confirmations_from_valid_bar seen zz bars e :
  swings_from seen zz → e ∈ confirmations zz bars →
  from_valid_bar (seen ++ bars) (p_type e) (p_price e) (Some (p_index e)).
Proof.
  revert seen zz. induction bars as [|b bs IH]; intros seen zz Hsw Hin;
    simpl in Hin; [by apply elem_of_nil in Hin|].
  destruct (update zz (b_high b) (b_low b) (b_idx b)) as [[zz1 r]|x] eqn:H;
    [|by apply elem_of_nil in Hin].
  destruct (update_swings_from _ _ _ _ _ Hsw H) as [Hsw1 Hev].
  rewrite app_cons_snoc.
  apply elem_of_app in Hin as [Hin|Hin].
  - destruct (confirmation b zz1) as [e'|]; simpl in Hin;
      [|by apply elem_of_nil in Hin].
    apply list_elem_of_singleton in Hin as ->.
    destruct (Hev e' eq_refl) as (b' & Hb' & Hrest).
    exists b'. split; [|done]. apply elem_of_app. by left.
  - by apply (IH (seen ++ [b]) zz1).
Qed.

Lemma run_row_kept seen zz bars zz' n i :
  hist_ok seen zz → swings_from seen zz →
  col_index (historic_dic zz) !! n = Some i →
  (∀ b', b' ∈ seen ++ bars → valid_bar b' = true → b_idx b' ≠ i) →
  run zz bars = Ok zz' →
  col_ZigZag (historic_dic zz') !! n = col_ZigZag (historic_dic zz) !! n ∧
  col_type (historic_dic zz') !! n = col_type (historic_dic zz) !! n.
Proof.
  revert seen zz. induction bars as [|b bs IH];
    intros seen zz Hok Hsw Hn Hfree Hrun; simpl in Hrun.
  - by injection Hrun as <-.
  - apply bind_Ok in Hrun as ([zz1 r] & H & Hrun). simpl in Hrun.
    rewrite app_cons_snoc in Hfree.
    destruct (update_row_kept seen zz b zz1 r n i Hok Hsw Hn) as [Hz Ht];
      [|done|].
    { intros b' Hb'. apply Hfree, elem_of_app. by left. }
    destruct (update_historic _ _ _ _ H) as (Hi' & _).
    destruct (update_swings_from _ _ _ _ _ Hsw H) as [Hsw1 _].
    destruct (IH (seen ++ [b]) zz1) as [Hz' Ht']; try done.
    + by eapply update_hist_ok.
    + rewrite Hi'. by apply lookup_app_l_Some.
    + by rewrite Hz', Ht'.
Qed.

Lemma swings_from_fresh pct0 debug0 : swings_from [] (fresh pct0 debug0).
Proof. split; by left. Qed.

(** ** Invalid bars *)

(** C5. A bar with a NaN price or with [high < low] is appended to the
    history and changes nothing else: swings, candidate and last confirmed
    pivot stay, and the call confirms nothing.  The bar never becomes a
    pivot either: whatever a newly constructed engine confirms along a
    stream is the high or the low of a valid bar, at that bar's index; so
    no pivot sits at the index of an invalid bar (when no valid bar shares
    that index), and the history row of the invalid bar stays
    unannotated. *)
Theorem invalid_bar_absorbed :
  (∀ (zz : ZigZagClass) (high low : float) (idx : Z),
     isna high = true ∨ isna low = true ∨ flt high low = true →
     ∃ zz', update zz high low idx = Ok (zz', None) ∧
       historic_dic zz' =
         {| col_index := col_index (historic_dic zz) ++ [idx];
            col_High := col_High (historic_dic zz) ++ [high];
            col_Low := col_Low (historic_dic zz) ++ [low];
            col_ZigZag := col_ZigZag (historic_dic zz) ++ [NaN];
            col_type := col_type (historic_dic zz) ++ [None] |} ∧
       swing_high zz' = swing_high zz ∧
       swing_high_idx zz' = swing_high_idx zz ∧
       swing_low zz' = swing_low zz ∧
       swing_low_idx zz' = swing_low_idx zz ∧
       candidate_price zz' = candidate_price zz ∧
       candidate_idx zz' = candidate_idx zz ∧
       last_confirmed_type zz' = last_confirmed_type zz ∧
       last_confirmed_price zz' = last_confirmed_price zz ∧
       last_confirmed_idx zz' = last_confirmed_idx zz ∧
       confirmed zz' = confirmed zz ∧
       confirmation {| b_idx := idx; b_high := high; b_low := low |} zz'
         = None) ∧
  (∀ (pct0 : float) (debug0 : bool) (zz0 : ZigZagClass)
     (pre : list bar) (bad : bar) (post : list bar),
     __init__ pct0 debug0 = Ok zz0 →
     invalid_bar (b_high bad) (b_low bad) = true →
     (∀ b, b ∈ pre ++ post → valid_bar b = true → b_idx b ≠ b_idx bad) →
     (∀ e, e ∈ confirmations zz0 (pre ++ bad :: post) →
        p_index e ≠ b_idx bad ∧
        ∃ b, b ∈ pre ++ post ∧ valid_bar b = true ∧ p_index e = b_idx b ∧
             p_price e = match p_type e with
                         | High => b_high b
                         | Low => b_low b
                         end) ∧
     (∀ zz, run zz0 (pre ++ bad :: post) = Ok zz →
        col_ZigZag (historic_dic zz) !! length pre = Some NaN ∧
        col_type (historic_dic zz) !! length pre = Some None)).
Proof.
  split.
  - intros zz high low idx Hbad.
    assert (invalid_bar high low = true) as Hv.
    { unfold invalid_bar. destruct Hbad as [-> | [-> | ->]]; simpl;
        rewrite ?orb_true_r; done. }
    exists (_update_df zz high low idx).
    split; [by apply update_invalid|]. unfold confirmation. simpl.
    rewrite Hv. by autorewrite with zigzag.
  - intros pct0 debug0 zz0 pre bad post Hinit Hbad Hfree.
    assert (zz0 = fresh pct0 debug0) as ->.
    { unfold __init__ in Hinit. destruct (fle pct0 (Fin 0)); congruence. }
    assert (valid_bar bad = false) as Hnv
      by (unfold valid_bar; by rewrite Hbad).
    split.
    + intros e He.
      apply (confirmations_from_valid_bar [] _ _ _
               (swings_from_fresh pct0 debug0)) in He
        as (b & Hin & Hv & [= Hidx] & Hprice).
      simpl in Hin.
      assert (b ∈ pre ++ post) as Hin'.
      { apply elem_of_app in Hin as [Hin|Hin]; [apply elem_of_app; by left|].
        apply elem_of_cons in Hin as [->|Hin]; [congruence|].
        apply elem_of_app; by right. }
      split; [rewrite Hidx; by apply Hfree|]. by exists b.
    + intros zz Hrun. rewrite run_app in Hrun.
      apply bind_Ok in Hrun as (zz1 & Hpre & Hrun). simpl in Hrun.
      apply bind_Ok in Hrun as ([zz2 r] & Hupd & Hpost). simpl in Hpost.
      destruct (run_invariants [] _ _ _ (hist_ok_fresh pct0 debug0)
                  (swings_from_fresh pct0 debug0) Hpre) as [Hok1 Hsw1].
      simpl in Hok1, Hsw1.
      pose proof (update_hist_ok _ _ _ _ _ Hok1 Hupd) as Hok2.
      destruct (update_swings_from _ _ _ _ _ Hsw1 Hupd) as [Hsw2 _].
      rewrite (update_invalid _ _ _ _ Hbad) in Hupd. injection Hupd as <- <-.
      destruct (run_row_kept (pre ++ [bad]) _ post zz (length pre) (b_idx bad)
                  Hok2 Hsw2) as [Hz Ht]; [| |done|].
      * rewrite (hist_index _ _ Hok2), fmap_app.
        rewrite lookup_app_r by (by rewrite length_fmap).
        by rewrite length_fmap, Nat.sub_diag.
      * intros b Hin Hv. apply elem_of_app in Hin as [Hin|Hin].
        -- apply elem_of_app in Hin as [Hin|Hin].
           ++ apply Hfree; [apply elem_of_app; by left | done].
           ++ apply list_elem_of_singleton in Hin. congruence.
        -- apply Hfree; [apply elem_of_app; by right | done].
      * rewrite Hz, Ht. autorewrite with zigzag. simpl.
        rewrite !lookup_app_r
          by (rewrite ?(hist_len_z _ _ Hok1), ?(hist_len_t _ _ Hok1); done).
        by rewrite (hist_len_z _ _ Hok1), (hist_len_t _ _ Hok1), Nat.sub_diag.
Qed.

(** ** Bootstrap while both swings sit on the same bar *)

Lemma bootstrap_same_idx zz h l i j :
  swing_low_idx zz = Some j → swing_high_idx zz = Some j →
  bootstrap zz h l i = Ok zz.
Proof.
  intros Hl Hh. unfold bootstrap. rewrite Hl, Hh. simpl.
  by rewrite Z.ltb_irrefl.
Qed.

Lemma run_widening zz bars :
  last_confirmed_type zz = None →
  candidate_price zz = None → candidate_idx zz = None →
  swing_low_idx zz = swing_high_idx zz →
  widening (swing_high zz) (swing_low zz) bars = true →
  ∃ zz', run zz bars = Ok zz' ∧ confirmations zz bars = [] ∧
    last_confirmed_type zz' = None ∧
    candidate_price zz' = None ∧ candidate_idx zz' = None ∧
    swing_low_idx zz' = swing_high_idx zz' ∧
    (is_Some (swing_low_idx zz) ∨ existsb valid_bar bars = true →
     is_Some (swing_low_idx zz')) ∧
    col_index (historic_dic zz') =
      col_index (historic_dic zz) ++ (b_idx <$> bars) ∧
    col_ZigZag (historic_dic zz') =
      col_ZigZag (historic_dic zz) ++ replicate (length bars) NaN.
Proof.
  revert zz. induction bars as [|b bs IH]; intros zz Ht Hcp Hci Hidx Hw.
  - exists zz. simpl. rewrite !app_nil_r. repeat split; try done.
    by intros [?|?].
  - simpl in Hw. simpl. unfold valid_bar at 1.
    destruct (invalid_bar (b_high b) (b_low b)) eqn:Hv.
    + rewrite (update_invalid _ _ _ _ Hv). simpl.
      destruct (IH (_update_df zz (b_high b) (b_low b) (b_idx b)))
        as (zz' & Hrun & Hev & Ht' & Hcp' & Hci' & Hidx' & Hs & Hcol & Hz);
        autorewrite with zigzag; try done.
      exists zz'. unfold confirmation. rewrite Hv. simpl.
      autorewrite with zigzag in Hcol, Hz, Hs. simpl in Hcol, Hz.
      rewrite <- !app_assoc in Hcol, Hz. by repeat split.
    + apply andb_true_iff in Hw as [Hw Hws].
      apply andb_true_iff in Hw as [Hwh Hwl].
      pose proof (swung_swings zz (b_high b) (b_low b) (b_idx b)) as Hsw.
      rewrite Ht, Hwh, Hwl in Hsw. injection Hsw as Hs1 Hs2 Hs3 Hs4.
      rewrite (update_valid _ _ _ _ Hv), Ht.
      rewrite (bootstrap_same_idx _ _ _ _ _ Hs4 Hs2). simpl.
      destruct (IH (traced (swung zz (b_high b) (b_low b) (b_idx b))
                      (b_high b) (b_low b) (b_idx b)))
        as (zz' & Hrun & Hev & Ht' & Hcp' & Hci' & Hidx' & Hs & Hcol & Hz);
        autorewrite with zigzag; try done; try congruence.
      exists zz'. unfold confirmation. rewrite Hv. autorewrite with zigzag.
      simpl. autorewrite with zigzag in Hcol, Hz, Hs. simpl in Hcol, Hz.
      rewrite <- !app_assoc in Hcol, Hz. repeat split; try done.
      intros _. apply Hs. left. rewrite Hs4. eauto.
Qed.

(** A stream with exactly one valid bar, whose high is above -inf and
    whose low is below +inf, is such a stream. *)
Lemma widening_one_valid_bar (pre : list bar) (b : bar) (post : list bar) :
  existsb valid_bar pre = false → existsb valid_bar post = false →
  fgt (b_high b) NInf = true → flt (b_low b) PInf = true →
  invalid_bar (b_high b) (b_low b) = false →
  widening NInf PInf (pre ++ b :: post) = true.
Proof.
  intros Hpre Hpost Hh Hl Hv.
  assert (∀ sh sl bs, existsb valid_bar bs = false → widening sh sl bs = true)
    as Hnone.
  { intros sh sl bs. revert sh sl. induction bs as [|x bs IH]; intros sh sl Hx;
      simpl; [done|].
    simpl in Hx. apply orb_false_iff in Hx as [Hx Hbs].
    unfold valid_bar in Hx. apply negb_false_iff in Hx. rewrite Hx. by apply IH. }
  induction pre as [|x pre IH]; cbn [app widening].
  - rewrite Hv, Hh, Hl. cbn [andb]. by apply Hnone.
  - simpl in Hpre. apply orb_false_iff in Hpre as [Hx Hpre].
    unfold valid_bar in Hx. apply negb_false_iff in Hx. rewrite Hx. by apply IH.
Qed.

(** C10, as the code behaves.  While every valid bar moves both swings at
    once (as a first valid bar does when its high is above -inf and its low
    below +inf), the stream is processed without a confirmation, both swing
    indices are the same, the two direction tests of the bootstrap are
    false, and the candidate stays [None]; [pivots] then returns the
    (unannotated) history with one more entry at its end: labelled [None]
    and holding [None] when no bar has been processed, labelled NaN and
    holding NaN otherwise. *)
Theorem bootstrap_same_bar_no_candidate (pct0 : float) (debug0 : bool)
    (zz0 : ZigZagClass) (bars : list bar) :
  __init__ pct0 debug0 = Ok zz0 →
  widening NInf PInf bars = true →
  ∃ zz, run zz0 bars = Ok zz ∧ confirmations zz0 bars = [] ∧
    last_confirmed_type zz = None ∧
    swing_low_idx zz = swing_high_idx zz ∧
    (existsb valid_bar bars = true →
     idx_lt (swing_low_idx zz) (swing_high_idx zz) = Ok false ∧
     idx_lt (swing_high_idx zz) (swing_low_idx zz) = Ok false) ∧
    candidate_price zz = None ∧ candidate_idx zz = None ∧
    pivots zz =
      Ok (zip (Lbl <$> (b_idx <$> bars))
              (replicate (length bars) (Some NaN)) ++
          [match bars with
           | [] => (Lbl_None, None)
           | _ :: _ => (Lbl_NaN, Some NaN)
           end]).
Proof.
  intros Hinit Hw.
  assert (zz0 = fresh pct0 debug0) as ->.
  { unfold __init__ in Hinit. destruct (fle pct0 (Fin 0)); congruence. }
  destruct (run_widening (fresh pct0 debug0) bars)
    as (zz & Hrun & Hev & Ht & Hcp & Hci & Hidx & Hs & Hcol & Hz); try done.
  simpl in Hcol, Hz.
  exists zz. split; [done|]. split; [done|]. split; [done|]. split; [done|].
  split; [|split; [done|split; [done|]]].
  - intros Hex. specialize (Hs (or_intror Hex)). destruct Hs as [i Hi].
    rewrite <- Hidx, Hi. simpl. by rewrite Z.ltb_irrefl.
  - unfold pivots, Series. rewrite Hcol, Hz, Hcp, Hci.
    rewrite length_replicate, length_fmap, Nat.eqb_refl. simpl.
    rewrite fmap_replicate. by destruct bars.
Qed.

(** ** No exception on streams of finite prices *)

Lemma _confirm_pivot_total zz price idx t :
  can_annotate zz idx → ∃ zz', _confirm_pivot zz price idx t = Ok zz'.
Proof.
  intros (j & pos & -> & Hpos & Hz & Ht). unfold _confirm_pivot. simpl.
  rewrite Hpos. simpl. unfold list_assign.
  apply Nat.ltb_lt in Hz, Ht. rewrite Hz. simpl. rewrite Ht. simpl. eauto.
Qed.

Lemma after_high_total zz h l i :
  (fge (_pct_change (swing_low zz) (swing_high zz)) (pct zz) = true →
   can_annotate zz (swing_low_idx zz)) →
  ∃ zz', after_high zz h l i = Ok zz'.
Proof.
  intros Hc. unfold after_high. destruct (fge _ _); simpl; [|eauto].
  destruct (_confirm_pivot_total zz (swing_low zz) _ Low (Hc eq_refl))
    as [zzc ->]. simpl. eauto.
Qed.

Lemma after_low_total zz h l i :
  (fge (fopp (_pct_change (swing_high zz) (swing_low zz))) (pct zz) = true →
   can_annotate zz (swing_high_idx zz)) →
  ∃ zz', after_low zz h l i = Ok zz'.
Proof.
  intros Hc. unfold after_low. destruct (fge _ _); simpl; [|eauto].
  destruct (_confirm_pivot_total zz (swing_high zz) _ High (Hc eq_refl))
    as [zzc ->]. simpl. eauto.
Qed.

Lemma bootstrap_total zz h l i :
  is_Some (swing_low_idx zz) → is_Some (swing_high_idx zz) →
  (fge (_pct_change (swing_low zz) (swing_high zz)) (pct zz) = true →
   can_annotate zz (swing_low_idx zz)) →
  (fge (_pct_change (swing_high zz) (swing_low zz)) (pct zz) = true →
   can_annotate zz (swing_high_idx zz)) →
  ∃ zz', bootstrap zz h l i = Ok zz'.
Proof.
  intros [x Hx] [y Hy] Hup Hdown. unfold bootstrap. rewrite Hx, Hy. simpl.
  rewrite <- Hx, <- Hy.
  destruct (x <? y).
  - destruct (fge (_pct_change (swing_low zz) (swing_high zz)) (pct zz))
      eqn:E; simpl; [|eauto].
    destruct (_confirm_pivot_total zz (swing_low zz) _ Low (Hup eq_refl))
      as [zzc ->]. simpl. eauto.
  - destruct (y <? x); [|eauto].
    destruct (fge (_pct_change (swing_high zz) (swing_low zz)) (pct zz))
      eqn:E; simpl; [|eauto].
    destruct (_confirm_pivot_total zz (swing_high zz) _ High (Hdown eq_refl))
      as [zzc ->]. simpl. eauto.
Qed.

Lemma hist_ok_update_df seen zz b :
  hist_ok seen zz →
  hist_ok (seen ++ [b]) (_update_df zz (b_high b) (b_low b) (b_idx b)).
Proof.
  intros [Hi Hz Ht Hp Hd].
  assert (length (col_index (historic_dic zz)) = length seen) as Hlen
    by (by rewrite Hi, length_fmap).
  split; autorewrite with zigzag; simpl.
  - by rewrite Hi, fmap_app.
  - rewrite !length_app. simpl. lia.
  - rewrite !length_app. simpl. lia.
  - intros j pos. destruct (decide (b_idx b = j)) as [<-|Hne].
    + rewrite lookup_insert_eq. intros [= <-].
      by rewrite lookup_app_r, Nat.sub_diag.
    + rewrite lookup_insert_ne by done. intros Hj.
      apply Hp in Hj. by apply lookup_app_l_Some.
  - intros b' Hin. destruct (decide (b_idx b = b_idx b')) as [->|Hne].
    + rewrite lookup_insert_eq. eauto.
    + rewrite lookup_insert_ne by done. apply Hd.
      apply elem_of_app in Hin as [Hin|Hin]; [done|].
      apply list_elem_of_singleton in Hin. congruence.
Qed.

Lemma can_annotate_swung seen zz b t price idx :
  hist_ok seen zz →
  from_valid_bar (seen ++ [b]) t price idx →
  can_annotate (swung zz (b_high b) (b_low b) (b_idx b)) idx.
Proof.
  intros Hok (b' & Hin & _ & -> & _).
  pose proof (hist_ok_update_df seen zz b Hok) as [Hi Hz Ht Hp Hd].
  destruct (Hd b' Hin) as [pos Hpos]. exists (b_idx b'), pos.
  split; [done|]. unfold row_of. autorewrite with zigzag.
  split; [by autorewrite with zigzag in Hpos|].
  apply Hp, lookup_lt_Some in Hpos. rewrite Hi, length_fmap in Hpos.
  autorewrite with zigzag in Hz, Ht. simpl in Hz, Ht. simpl.
  rewrite Hz, Ht. done.
Qed.

Lemma update_total seen zz b :
  hist_ok seen zz → swings_from seen zz → bootstrap_ok zz →
  bounded_bar b = true →
  ∃ zz' r, update zz (b_high b) (b_low b) (b_idx b) = Ok (zz', r).
Proof.
  intros Hok Hsw Hboot Hb. unfold bounded_bar in Hb.
  destruct (invalid_bar (b_high b) (b_low b)) eqn:Hv.
  - rewrite (update_invalid _ _ _ _ Hv). eauto.
  - rewrite orb_false_l in Hb. apply andb_true_iff in Hb as [Hbh Hbl].
    assert (valid_bar b = true) as Hvb by (unfold valid_bar; by rewrite Hv).
    destruct (swings_from_swung seen zz b Hvb Hsw) as [Hh Hl].
    rewrite (update_valid _ _ _ _ Hv).
    assert (∀ x, fge (_pct_change (swing_low (swung zz (b_high b) (b_low b) (b_idx b))) x)
                   (pct (swung zz (b_high b) (b_low b) (b_idx b))) = true →
                 can_annotate (swung zz (b_high b) (b_low b) (b_idx b))
                   (swing_low_idx (swung zz (b_high b) (b_low b) (b_idx b))))
      as Hlow.
    { intros x Hc. destruct Hl as [Hl|Hl].
      - rewrite Hl in Hc. by rewrite confirm_not_PInf in Hc.
      - by eapply can_annotate_swung. }
    assert (∀ x, fge (_pct_change (swing_high (swung zz (b_high b) (b_low b) (b_idx b))) x)
                   (pct (swung zz (b_high b) (b_low b) (b_idx b))) = true ∨
                 fge (fopp (_pct_change (swing_high (swung zz (b_high b) (b_low b) (b_idx b))) x))
                   (pct (swung zz (b_high b) (b_low b) (b_idx b))) = true →
                 can_annotate (swung zz (b_high b) (b_low b) (b_idx b))
                   (swing_high_idx (swung zz (b_high b) (b_low b) (b_idx b))))
      as Hhigh.
    { intros x Hc. destruct Hh as [Hh|Hh].
      - rewrite Hh in Hc. rewrite confirm_not_NInf, confirm_opp_not_NInf in Hc.
        by destruct Hc.
      - by eapply can_annotate_swung. }
    destruct (last_confirmed_type zz) as [[]|] eqn:Ht.
    + destruct (after_high_total (swung zz (b_high b) (b_low b) (b_idx b))
                  (b_high b) (b_low b) (b_idx b)) as [zz2 ->]; [apply Hlow|].
      simpl. eauto.
    + destruct (after_low_total (swung zz (b_high b) (b_low b) (b_idx b))
                  (b_high b) (b_low b) (b_idx b)) as [zz2 ->].
      { intros Hc. apply (Hhigh _ (or_intror Hc)). }
      simpl. eauto.
    + destruct (bootstrap_total (swung zz (b_high b) (b_low b) (b_idx b))
                  (b_high b) (b_low b) (b_idx b)) as [zz2 ->].
      * pose proof (swung_swings zz (b_high b) (b_low b) (b_idx b)) as Hs.
        rewrite Ht in Hs. injection Hs as _ _ Hs3 Hs4. rewrite Hs4.
        destruct (Hboot Ht) as [[_ Hsl]|[_ Hsl]].
        -- rewrite Hsl, Hbl. exact (mk_is_Some _ _ eq_refl).
        -- destruct (flt (b_low b) (swing_low zz));
             [exact (mk_is_Some _ _ eq_refl) | done].
      * pose proof (swung_swings zz (b_high b) (b_low b) (b_idx b)) as Hs.
        rewrite Ht in Hs. injection Hs as Hs1 Hs2 _ _. rewrite Hs2.
        destruct (Hboot Ht) as [[Hsh _]|[Hsh _]].
        -- rewrite Hsh, Hbh. exact (mk_is_Some _ _ eq_refl).
        -- destruct (fgt (b_high b) (swing_high zz));
             [exact (mk_is_Some _ _ eq_refl) | done].
      * apply Hlow.
      * intros Hc. apply (Hhigh _ (or_introl Hc)).
      * simpl. eauto.
Qed.

Lemma update_bootstrap_ok zz b zz' r :
  bootstrap_ok zz →
  update zz (b_high b) (b_low b) (b_idx b) = Ok (zz', r) →
  bootstrap_ok zz'.
Proof.
  intros Hboot H. unfold bootstrap_ok.
  destruct (invalid_bar (b_high b) (b_low b)) eqn:Hv.
  - rewrite (update_invalid _ _ _ _ Hv) in H. injection H as <- <-.
    by autorewrite with zigzag.
  - update_cases H Hv; frame; try (intros; congruence);
      intros _; right; rewrite Hx, Hy; eauto.
Qed.

Lemma run_total seen zz bars :
  hist_ok seen zz → swings_from seen zz → bootstrap_ok zz →
  forallb bounded_bar bars = true →
  ∃ zz', run zz bars = Ok zz'.
Proof.
  revert seen zz. induction bars as [|b bs IH];
    intros seen zz Hok Hsw Hboot Hbars; simpl; [eauto|].
  simpl in Hbars. apply andb_true_iff in Hbars as [Hb Hbs].
  destruct (update_total seen zz b Hok Hsw Hboot Hb) as (zz1 & r & H).
  rewrite H. simpl.
  destruct (update_swings_from _ _ _ _ _ Hsw H) as [Hsw1 _].
  apply (IH (seen ++ [b])); try done.
  - by eapply update_hist_ok.
  - by eapply update_bootstrap_ok.
Qed.

Lemma positive_bar_bounded b : positive_bar b = true → bounded_bar b = true.
Proof.
  unfold positive_bar, bounded_bar.
  destruct (invalid_bar (b_high b) (b_low b)); simpl; [done|].
  by destruct (b_high b), (b_low b).
Qed.

(** A newly constructed engine processes any stream whose valid bars have
    a high above -inf and a low below +inf without raising. *)
Lemma run_fresh_total pct0 debug0 bars :
  forallb bounded_bar bars = true →
  ∃ zz, run (fresh pct0 debug0) bars = Ok zz.
Proof.
  apply (run_total []).
  - apply hist_ok_fresh.
  - apply swings_from_fresh.
  - intros _. by left.
Qed.

(** ** Sentinels of the swings *)

(** C7, after a valid bar on positive prices.  A newly constructed engine
    processes a stream whose valid bars have finite prices and a positive
    low without raising; once the stream holds a valid bar, the two swings
    are not both at their sentinels at its end: the swing high is at its
    sentinel only after a High pivot (whose confirmation, or a later new
    low, reset it), the swing low only after a Low pivot. *)
Theorem one_sentinel_at_most (pct0 : float) (debug0 : bool)
    (zz0 : ZigZagClass) (bars : list bar) :
  __init__ pct0 debug0 = Ok zz0 →
  forallb positive_bar bars = true →
  existsb valid_bar bars = true →
  ∃ zz, run zz0 bars = Ok zz ∧
    ¬ (swing_high zz = NInf ∧ swing_low zz = PInf) ∧
    (swing_high zz = NInf → last_confirmed_type zz = Some High) ∧
    (swing_low zz = PInf → last_confirmed_type zz = Some Low).
Proof.
  intros Hinit Hbars Hex.
  destruct (init_phase_inv _ _ _ Hinit) as (_ & Hpos & Hinv).
  assert (zz0 = fresh pct0 debug0) as ->.
  { unfold __init__ in Hinit. destruct (fle pct0 (Fin 0)); congruence. }
  destruct (run_fresh_total pct0 debug0 bars) as [zz Hrun].
  { apply forallb_forall. intros b Hb. apply positive_bar_bounded.
    by apply (proj1 (forallb_forall _ _) Hbars). }
  exists zz. split; [done|].
  destruct (run_phase_inv _ _ _ Hpos Hinv Hbars Hrun) as [Hinv' Hst].
  specialize (Hst (or_intror Hex)). unfold started in Hst.
  destruct Hinv' as [Ht Hpr Hsh Hsl | H L Ht Hpr Hsh Hsl HL HLH
                    | P H Ht Hpr HP Hsh HH Hth Hsl
                    | P L Ht Hpr HP Hsl HL Hth Hsh].
  - by specialize (Hst Ht).
  - rewrite Hsh, Hsl. repeat split; [intros [? ?] | |]; done.
  - rewrite Hsh. repeat split; [intros [? ?] | |]; done.
  - rewrite Hsl. repeat split; [intros [? ?] | |]; done.
Qed.

(** * Further properties of the engine *)

(** ** The history records the stream *)

Lemma run_columns zz bars zz' :
  run zz bars = Ok zz' →
  col_index (historic_dic zz') =
    col_index (historic_dic zz) ++ (b_idx <$> bars) ∧
  col_High (historic_dic zz') =
    col_High (historic_dic zz) ++ (b_high <$> bars) ∧
  col_Low (historic_dic zz') =
    col_Low (historic_dic zz) ++ (b_low <$> bars) ∧
  length (col_ZigZag (historic_dic zz')) =
    (length (col_ZigZag (historic_dic zz)) + length bars)%nat ∧
  length (col_type (historic_dic zz')) =
    (length (col_type (historic_dic zz)) + length bars)%nat.
Proof.
  revert zz. induction bars as [|b bs IH]; intros zz Hrun; simpl in Hrun.
  - injection Hrun as <-. simpl. rewrite !app_nil_r. by rewrite !Nat.add_0_r.
  - apply bind_Ok in Hrun as ([zz1 r] & H & Hrun). simpl in Hrun.
    destruct (update_historic _ _ _ _ H) as (Hi & Hh & Hl & _ & Hc).
    destruct (IH _ Hrun) as (Hi' & Hh' & Hl' & Hz' & Ht').
    rewrite Hi', Hh', Hl', Hz', Ht', Hi, Hh, Hl. simpl.
    rewrite <- !app_assoc. simpl.
    assert (length (col_ZigZag (historic_dic zz1)) =
              S (length (col_ZigZag (historic_dic zz))) ∧
            length (col_type (historic_dic zz1)) =
              S (length (col_type (historic_dic zz)))) as [-> ->].
    { destruct (confirmation b zz1) as [e|].
      - destruct Hc as (pos & _ & -> & ->).
        rewrite !length_insert, !length_app. simpl. lia.
      - destruct Hc as [-> ->]. rewrite !length_app. simpl. lia. }
    repeat split; try done; lia.
Qed.

Lemma rows_columns index High Low ZigZag0 type :
  length High = length index → length Low = length index →
  length ZigZag0 = length index → length type = length index →
  r_index <$> rows index High Low ZigZag0 type = index ∧
  r_High <$> rows index High Low ZigZag0 type = High ∧
  r_Low <$> rows index High Low ZigZag0 type = Low ∧
  r_ZigZag <$> rows index High Low ZigZag0 type = ZigZag0 ∧
  r_type <$> rows index High Low ZigZag0 type = type.
Proof.
  revert High Low ZigZag0 type.
  induction index as [|i index IH]; intros [|h hs] [|l ls] [|z zs] [|t ts];
    simpl; try done.
  intros [= Hh] [= Hl] [= Hz] [= Ht].
  destruct (IH hs ls zs ts Hh Hl Hz Ht) as (E1 & E2 & E3 & E4 & E5).
  repeat split; (apply (f_equal2 cons); [reflexivity | assumption]).
Qed.

(** X1. The history of a newly constructed engine is the stream itself:
    [df] does not raise and has one row per processed bar, valid or not, in
    the order of the calls, with the index, high and low as they were
    passed. *)
Theorem df_records_stream (pct0 : float) (debug0 : bool) (zz0 : ZigZagClass)
    (bars : list bar) (zz : ZigZagClass) :
  __init__ pct0 debug0 = Ok zz0 →
  run zz0 bars = Ok zz →
  ∃ table, df zz = Ok table ∧
    r_index <$> table = b_idx <$> bars ∧
    r_High <$> table = b_high <$> bars ∧
    r_Low <$> table = b_low <$> bars ∧
    r_ZigZag <$> table = col_ZigZag (historic_dic zz) ∧
    r_type <$> table = col_type (historic_dic zz).
Proof.
  intros Hinit Hrun.
  assert (zz0 = fresh pct0 debug0) as ->.
  { unfold __init__ in Hinit. destruct (fle pct0 (Fin 0)); congruence. }
  destruct (run_columns _ _ _ Hrun) as (Hi & Hh & Hl & Hz & Ht).
  simpl in Hi, Hh, Hl, Hz, Ht.
  assert (length (col_High (historic_dic zz)) =
            length (col_index (historic_dic zz))) as Lh
    by (by rewrite Hi, Hh, !length_fmap).
  assert (length (col_Low (historic_dic zz)) =
            length (col_index (historic_dic zz))) as Ll
    by (by rewrite Hi, Hl, !length_fmap).
  assert (length (col_ZigZag (historic_dic zz)) =
            length (col_index (historic_dic zz))) as Lz
    by (by rewrite Hi, Hz, !length_fmap).
  assert (length (col_type (historic_dic zz)) =
            length (col_index (historic_dic zz))) as Lt
    by (by rewrite Hi, Ht, !length_fmap).
  unfold df. cbv zeta. rewrite Lh, Ll, Lz, Lt, !Nat.eqb_refl. simpl.
  eexists. split; [reflexivity|].
  destruct (rows_columns _ _ _ _ _ Lh Ll Lz Lt) as (-> & -> & -> & -> & ->).
  by rewrite Hi, Hh, Hl.
Qed.

(** ** The index of rows *)

Lemma update_last_row seen zz b zz' r :
  length (col_index (historic_dic zz)) = length seen →
  (∀ j pos, _index_to_pos zz !! j = Some pos → last_row_of seen j pos) →
  update zz (b_high b) (b_low b) (b_idx b) = Ok (zz', r) →
  ∀ j pos, _index_to_pos zz' !! j = Some pos → last_row_of (seen ++ [b]) j pos.
Proof.
  intros Hlen Hinv H j pos.
  destruct (update_historic _ _ _ _ H) as (_ & _ & _ & -> & _).
  rewrite Hlen. destruct (decide (b_idx b = j)) as [<-|Hne].
  - rewrite lookup_insert_eq. intros [= <-]. split.
    + exists b. by rewrite lookup_app_r, Nat.sub_diag.
    + intros m b' Hm Hb'. apply lookup_lt_Some in Hb'.
      rewrite length_app in Hb'. simpl in Hb'. lia.
  - rewrite lookup_insert_ne by done. intros Hj.
    destruct (Hinv j pos Hj) as [(b0 & Hb0 & Hidx) Hlast]. split.
    + exists b0. split; [by apply lookup_app_l_Some | done].
    + intros m b' Hm Hb'.
      destruct (decide (m < length seen)%nat) as [Hlt|Hge].
      * rewrite lookup_app_l in Hb' by done. by eapply Hlast.
      * rewrite lookup_app_r in Hb' by lia.
        destruct (m - length seen)%nat; simpl in Hb'; [|done].
        injection Hb' as <-. done.
Qed.

Lemma run_last_row seen zz bars zz' :
  hist_ok seen zz →
  (∀ j pos, _index_to_pos zz !! j = Some pos → last_row_of seen j pos) →
  run zz bars = Ok zz' →
  ∀ j pos, _index_to_pos zz' !! j = Some pos →
           last_row_of (seen ++ bars) j pos.
Proof.
  revert seen zz. induction bars as [|b bs IH]; intros seen zz Hok Hinv Hrun;
    simpl in Hrun.
  - injection Hrun as <-. by rewrite app_nil_r.
  - apply bind_Ok in Hrun as ([zz1 r] & H & Hrun). simpl in Hrun.
    rewrite app_cons_snoc. apply (IH (seen ++ [b]) zz1); [| |done].
    + by eapply update_hist_ok.
    + eapply update_last_row; [|done|done].
      by rewrite (hist_index _ _ Hok), length_fmap.
Qed.

(** X2. After any stream fed to a new engine, [_index_to_pos] knows the
    index of every processed bar and sends it to the position of the last
    bar that carried it (with distinct indices: to the position of that
    bar); it holds no other key. *)
Theorem index_to_pos_last_row (pct0 : float) (debug0 : bool)
    (zz0 : ZigZagClass) (bars : list bar) (zz : ZigZagClass) :
  __init__ pct0 debug0 = Ok zz0 →
  run zz0 bars = Ok zz →
  (∀ b, b ∈ bars → is_Some (_index_to_pos zz !! b_idx b)) ∧
  (∀ j pos, _index_to_pos zz !! j = Some pos →
     (∃ b, bars !! pos = Some b ∧ b_idx b = j) ∧
     ∀ m b', (pos < m)%nat → bars !! m = Some b' → b_idx b' ≠ j).
Proof.
  intros Hinit Hrun.
  assert (zz0 = fresh pct0 debug0) as ->.
  { unfold __init__ in Hinit. destruct (fle pct0 (Fin 0)); congruence. }
  split.
  - destruct (run_invariants [] _ _ _ (hist_ok_fresh pct0 debug0)
                (swings_from_fresh pct0 debug0) Hrun) as [Hok _].
    apply (hist_dom _ _ Hok).
  - apply (run_last_row [] (fresh pct0 debug0) bars zz
             (hist_ok_fresh pct0 debug0)); [|done].
    intros j pos Hj. simpl in Hj. by rewrite lookup_empty in Hj.
Qed.

(** ** Annotations are never erased *)


(** ** A pivot is no later than the bar that confirms it *)

(** X4. The pivot a call confirms is the high (for a High) or the low (for
    a Low) of a valid bar among those processed so far, the bar of the
    call included; when the index of the call is above all earlier ones,
    the index of the pivot is at most the index of the call. *)
Theorem pivot_not_after_confirming_bar (pct0 : float) (debug0 : bool)
    (zz0 : ZigZagClass) (pre : list bar) (zz : ZigZagClass) (b : bar)
    (zz' : ZigZagClass) (r : option pivot) (e : pivot) :
  __init__ pct0 debug0 = Ok zz0 →
  run zz0 pre = Ok zz →
  update zz (b_high b) (b_low b) (b_idx b) = Ok (zz', r) →
  confirmation b zz' = Some e →
  (∃ b', b' ∈ pre ++ [b] ∧ valid_bar b' = true ∧ p_index e = b_idx b' ∧
         p_price e = match p_type e with
                     | High => b_high b'
                     | Low => b_low b'
                     end) ∧
  ((∀ b', b' ∈ pre → b_idx b' < b_idx b) → p_index e ≤ b_idx b).
Proof.
  intros Hinit Hrun H He.
  assert (zz0 = fresh pct0 debug0) as ->.
  { unfold __init__ in Hinit. destruct (fle pct0 (Fin 0)); congruence. }
  destruct (run_invariants [] _ _ _ (hist_ok_fresh pct0 debug0)
              (swings_from_fresh pct0 debug0) Hrun) as [_ Hsw].
  simpl in Hsw.
  destruct (update_swings_from _ _ _ _ _ Hsw H) as [_ Hev].
  destruct (Hev e He) as (b' & Hin & Hv & [= Hidx] & Hprice).
  split; [by exists b'|].
  intros Hsorted. rewrite Hidx.
  apply elem_of_app in Hin as [Hin|Hin].
  - apply Hsorted in Hin. lia.
  - apply list_elem_of_singleton in Hin as ->. lia.
Qed.

(** ** What a confirmation leaves behind *)

(** X5. A call that confirms a Low pivot leaves the swing low at its
    sentinel, at the index of the call, and the candidate is that reset
    swing, [+inf] at the index of the call, not the opposite extreme; the
    pivot is the swing low [_update_swings] had left, and the swing high is
    as [_update_swings] left it.  Symmetrically for a High pivot. *)
Theorem confirmation_resets_swing (zz : ZigZagClass) (b : bar)
    (zz' : ZigZagClass) (r : option pivot) (e : pivot) :
  update zz (b_high b) (b_low b) (b_idx b) = Ok (zz', r) →
  confirmation b zz' = Some e →
  match p_type e with
  | Low =>
      p_price e = swing_low (swung zz (b_high b) (b_low b) (b_idx b)) ∧
      swing_low zz' = PInf ∧ swing_low_idx zz' = Some (b_idx b) ∧
      candidate_price zz' = Some PInf ∧
      candidate_idx zz' = Some (b_idx b) ∧
      swing_high zz' = swing_high (swung zz (b_high b) (b_low b) (b_idx b))
  | High =>
      p_price e = swing_high (swung zz (b_high b) (b_low b) (b_idx b)) ∧
      swing_high zz' = NInf ∧ swing_high_idx zz' = Some (b_idx b) ∧
      candidate_price zz' = Some NInf ∧
      candidate_idx zz' = Some (b_idx b) ∧
      swing_low zz' = swing_low (swung zz (b_high b) (b_low b) (b_idx b))
  end.
Proof.
  intros H. unfold confirmation.
  destruct (invalid_bar (b_high b) (b_low b)) eqn:Hv; [done|].
  update_cases H Hv; frame; try done; by intros [= <-].
Qed.

(** ** A threshold that is not a number *)

Lemma update_NaN_pct zz b zz' r :
  pct zz = NaN →
  update zz (b_high b) (b_low b) (b_idx b) = Ok (zz', r) →
  pct zz' = NaN ∧ confirmation b zz' = None.
Proof.
  intros Hp H. unfold confirmation.
  destruct (invalid_bar (b_high b) (b_low b)) eqn:Hv.
  - rewrite (update_invalid _ _ _ _ Hv) in H. injection H as <- <-.
    by autorewrite with zigzag.
  - update_cases H Hv; frame; try done;
      autorewrite with zigzag in Hch; rewrite Hp in Hch;
      unfold fge in Hch; simpl in Hch; done.
Qed.

(** X8. [__init__] accepts a NaN threshold ([NaN <= 0] is false), and the
    engine it yields never confirms a pivot, whatever the stream. *)
Theorem nan_threshold_never_confirms (debug0 : bool) (bars : list bar) :
  ∃ zz0, __init__ NaN debug0 = Ok zz0 ∧ confirmations zz0 bars = [].
Proof.
  exists (fresh NaN debug0). split; [done|].
  assert (∀ zz, pct zz = NaN → confirmations zz bars = []) as Hall.
  { induction bars as [|b bs IH]; intros zz Hp; simpl; [done|].
    destruct (update zz (b_high b) (b_low b) (b_idx b)) as [[zz' r]|x] eqn:H;
      [|done].
    destruct (update_NaN_pct _ _ _ _ Hp H) as [Hp' ->]. simpl. by apply IH. }
  by apply Hall.
Qed.

(** ** The debug trace *)

#[local] Transparent traced.

Lemma traced_debug zz h l i : debug (traced zz h l i) = debug zz.
Proof. unfold traced. by destruct (debug zz) eqn:E. Qed.

Lemma traced_debug_dic zz h l i :
  ∃ row, d_index row = i ∧ d_High row = h ∧ d_Low row = l ∧
    debug_dic (traced zz h l i) =
      if debug zz then debug_dic zz ++ [row] else debug_dic zz.
Proof.
  unfold traced, _debug_state. destruct (debug zz); simpl.
  - refine (ex_intro _ _ (conj _ (conj _ (conj _ eq_refl)))); reflexivity.
  - by exists {| d_index := i; d_High := h; d_Low := l;
               d_swing_high := NaN; d_swing_high_idx := None;
               d_swing_low := NaN; d_swing_low_idx := None;
               d_candidate_price := None; d_candidate_idx := None;
               d_confirmed := false; d_last_confirmed_type := None;
               d_last_confirmed_price := None;
               d_last_confirmed_idx := None |}.
Qed.

#[local] Opaque traced.

(** One call of [update]: the flag [debug] stays, and the trace grows by
    one row, for the bar of the call, when the flag is set and the bar is
    valid. *)
Lemma update_debug_dic zz b zz' r :
  update zz (b_high b) (b_low b) (b_idx b) = Ok (zz', r) →
  debug zz' = debug zz ∧
  ∃ new, debug_dic zz' = debug_dic zz ++ new ∧
    d_index <$> new = (if debug zz && valid_bar b then [b_idx b] else []) ∧
    d_High <$> new = (if debug zz && valid_bar b then [b_high b] else []) ∧
    d_Low <$> new = (if debug zz && valid_bar b then [b_low b] else []).
Proof.
  intros H. unfold valid_bar.
  destruct (invalid_bar (b_high b) (b_low b)) eqn:Hv.
  - rewrite (update_invalid _ _ _ _ Hv) in H. injection H as <- <-.
    autorewrite with zigzag. split; [done|]. exists [].
    by rewrite app_nil_r, andb_false_r.
  - assert (∀ zz2, debug zz2 = debug zz → debug_dic zz2 = debug_dic zz →
              debug (traced zz2 (b_high b) (b_low b) (b_idx b)) = debug zz ∧
              ∃ new,
                debug_dic (traced zz2 (b_high b) (b_low b) (b_idx b)) =
                  debug_dic zz ++ new ∧
                d_index <$> new = (if debug zz && true then [b_idx b] else []) ∧
                d_High <$> new = (if debug zz && true then [b_high b] else []) ∧
                d_Low <$> new = (if debug zz && true then [b_low b] else []))
      as Htr.
    { intros zz2 Hd Hdd. rewrite traced_debug. split; [done|].
      destruct (traced_debug_dic zz2 (b_high b) (b_low b) (b_idx b))
        as (row & Hi & Hh & Hl & ->).
      rewrite Hd, Hdd, andb_true_r. destruct (debug zz).
      - exists [row]. simpl. by rewrite Hi, Hh, Hl.
      - exists []. by rewrite app_nil_r. }
    update_cases H Hv; apply Htr; by frame.
Qed.

(** X9. With [debug] set, the trace of a new engine has one row per valid
    bar of the stream, in order, carrying the index, high and low of that
    bar; invalid bars are recorded in the history but not in the trace.
    Without [debug] nothing is traced. *)
Theorem debug_trace_of_valid_bars (pct0 : float) (debug0 : bool)
    (zz0 : ZigZagClass) (bars : list bar) (zz : ZigZagClass) :
  __init__ pct0 debug0 = Ok zz0 →
  run zz0 bars = Ok zz →
  d_index <$> debug_dic zz =
    (if debug0 then b_idx <$> List.filter valid_bar bars else []) ∧
  d_High <$> debug_dic zz =
    (if debug0 then b_high <$> List.filter valid_bar bars else []) ∧
  d_Low <$> debug_dic zz =
    (if debug0 then b_low <$> List.filter valid_bar bars else []).
Proof.
  intros Hinit Hrun.
  assert (zz0 = fresh pct0 debug0) as ->.
  { unfold __init__ in Hinit. destruct (fle pct0 (Fin 0)); congruence. }
  assert (∀ zz1 zz2, run zz1 bars = Ok zz2 →
            ∃ new, debug_dic zz2 = debug_dic zz1 ++ new ∧
              d_index <$> new =
                (if debug zz1 then b_idx <$> List.filter valid_bar bars
                 else []) ∧
              d_High <$> new =
                (if debug zz1 then b_high <$> List.filter valid_bar bars
                 else []) ∧
              d_Low <$> new =
                (if debug zz1 then b_low <$> List.filter valid_bar bars
                 else [])) as Hall.
  { clear. induction bars as [|b bs IH]; intros zz1 zz2 Hrun; simpl in Hrun.
    - injection Hrun as <-. exists []. rewrite app_nil_r. simpl.
      by destruct (debug zz1).
    - apply bind_Ok in Hrun as ([zz' r] & H & Hrun). simpl in Hrun.
      destruct (update_debug_dic _ _ _ _ H) as (Hd & n1 & Hn1 & Hi1 & Hh1 & Hl1).
      destruct (IH _ _ Hrun) as (n2 & Hn2 & Hi2 & Hh2 & Hl2).
      exists (n1 ++ n2). rewrite Hn2, Hn1, <- app_assoc. split; [done|].
      rewrite !fmap_app, Hi1, Hh1, Hl1, Hi2, Hh2, Hl2, Hd. simpl.
      by destruct (debug zz1), (valid_bar b). }
  destruct (Hall _ _ Hrun) as (new & Hnew & Hi & Hh & Hl).
  simpl in Hnew, Hi, Hh, Hl. by rewrite Hnew.
Qed.

(** ** The pivots series of a reachable engine *)

Lemma idx_seen_mono seen b idx :
  idx_seen seen idx → idx_seen (seen ++ [b]) idx.
Proof.
  intros [->|(b' & Hin & ->)]; [by left|]. right. exists b'.
  split; [|done]. apply elem_of_app. by left.
Qed.

Lemma idx_seen_last seen b : idx_seen (seen ++ [b]) (Some (b_idx b)).
Proof.
  right. exists b. split; [|done]. apply elem_of_app. right.
  by apply list_elem_of_singleton.
Qed.

Lemma update_indices_seen seen zz b zz' r :
  indices_seen seen zz →
  update zz (b_high b) (b_low b) (b_idx b) = Ok (zz', r) →
  indices_seen (seen ++ [b]) zz'.
Proof.
  intros (Hh & Hl & Hc) H.
  apply (idx_seen_mono _ b) in Hh, Hl, Hc.
  pose proof (idx_seen_last seen b) as Hb. unfold indices_seen.
  destruct (invalid_bar (b_high b) (b_low b)) eqn:Hv.
  - rewrite (update_invalid _ _ _ _ Hv) in H. injection H as <- <-.
    by autorewrite with zigzag.
  - assert (idx_seen (seen ++ [b])
              (swing_high_idx (swung zz (b_high b) (b_low b) (b_idx b))) ∧
            idx_seen (seen ++ [b])
              (swing_low_idx (swung zz (b_high b) (b_low b) (b_idx b))))
      as [Hh' Hl'].
    { pose proof (swung_swings zz (b_high b) (b_low b) (b_idx b)) as Hs.
      unfold fgt in Hs.
      destruct (last_confirmed_type zz) as [[]|];
        destruct (flt (swing_high zz) (b_high b));
        destruct (flt (b_low b) (swing_low zz));
        injection Hs as _ -> _ ->; done. }
    update_cases H Hv; frame; rewrite <- ?Hx, <- ?Hy; done.
Qed.

Lemma run_indices_seen seen zz bars zz' :
  indices_seen seen zz → run zz bars = Ok zz' →
  indices_seen (seen ++ bars) zz'.
Proof.
  revert seen zz. induction bars as [|b bs IH]; intros seen zz Hs Hrun;
    simpl in Hrun.
  - injection Hrun as <-. by rewrite app_nil_r.
  - apply bind_Ok in Hrun as ([zz1 r] & H & Hrun). simpl in Hrun.
    rewrite app_cons_snoc. apply (IH (seen ++ [b]) zz1); [|done].
    by eapply update_indices_seen.
Qed.

Lemma loc_set_labels (s : series) (k : option Z) (v : option float) :
  (loc_set s k v).*1 =
    s.*1 ++ match k with
            | Some i => if decide (Lbl i ∈ s.*1) then [] else [Lbl i]
            | None => [match s with [] => Lbl_None | _ :: _ => Lbl_NaN end]
            end.
Proof.
  unfold loc_set, series in *. destruct s as [|e s].
  - destruct k as [i|]; [|done].
    destruct (decide (Lbl i ∈ ([] : series).*1)) as [H|]; [|done].
    by apply elem_of_nil in H.
  - destruct k as [i|]; [|by rewrite fmap_app].
    destruct (decide (Lbl i ∈ (e :: s).*1)) as [Hin|Hout].
    + rewrite app_nil_r, <- list_fmap_compose. apply list_fmap_ext.
      intros n [k' v'] _. simpl. by destruct (decide (k' = Lbl i)).
    + by rewrite fmap_app.
Qed.

Lemma loc_set_lookup (s : series) (i : Z) (v : float)
    (n : nat) (k' : label) (v' : option float) :
  s !! n = Some (k', v') →
  loc_set s (Some i) (Some v) !! n
    = Some (k', if decide (k' = Lbl i) then Some v else v').
Proof.
  intros Hn. unfold loc_set, series in *.
  destruct s as [|e s]; [done|]. simpl default.
  destruct (decide (Lbl i ∈ (e :: s).*1)) as [Hin|Hout].
  - rewrite list_lookup_fmap, Hn. simpl. by destruct (decide (k' = Lbl i)).
  - rewrite lookup_app_l by (by eapply lookup_lt_Some).
    rewrite Hn. destruct (decide (k' = Lbl i)) as [->|]; [|done].
    exfalso. apply Hout. apply list_elem_of_fmap. exists (Lbl i, v').
    split; [done|]. by eapply list_elem_of_lookup_2.
Qed.

Lemma loc_set_lookup_None (s : series) (v : option float)
    (n : nat) (e : label * option float) :
  s !! n = Some e → loc_set s None v !! n = Some e.
Proof.
  intros Hn. unfold loc_set, series in *.
  destruct s as [|e' s]; [done|].
  by rewrite lookup_app_l by (by eapply lookup_lt_Some).
Qed.

Lemma update_candidate_priced zz h l i zz' r :
  candidate_priced zz → update zz h l i = Ok (zz', r) →
  candidate_priced zz'.
Proof.
  unfold candidate_priced. intros Hc H.
  destruct (invalid_bar h l) eqn:Hv.
  - rewrite (update_invalid _ _ _ _ Hv) in H. injection H as <- <-.
    by autorewrite with zigzag.
  - update_cases H Hv; frame; done.
Qed.

Lemma run_candidate_priced zz bars zz' :
  candidate_priced zz → run zz bars = Ok zz' → candidate_priced zz'.
Proof.
  revert zz. induction bars as [|b bs IH]; intros zz Hc Hrun;
    simpl in Hrun.
  - by injection Hrun as <-.
  - apply bind_Ok in Hrun as ([zz1 r] & H & Hrun). simpl in Hrun.
    apply (IH zz1); [|done]. by eapply update_candidate_priced.
Qed.

(** X10. On an engine a new engine has become after a stream, [pivots]
    does not raise.  The series has one entry per processed bar, labelled
    with the indices of the bars in order, and one more entry exactly while
    there is no candidate: labelled [None] when no bar has been processed
    and NaN otherwise.  The entry of a bar holds the candidate price when
    the bar carries the candidate's index, and the ['ZigZag'] value of its
    history row otherwise: the candidate hides a pivot confirmed at its own
    index. *)
Theorem pivots_of_reachable_engine (pct0 : float) (debug0 : bool)
    (zz0 : ZigZagClass) (bars : list bar) (zz : ZigZagClass) :
  __init__ pct0 debug0 = Ok zz0 →
  run zz0 bars = Ok zz →
  ∃ s : list (label * option float), pivots zz = Ok s ∧
    s.*1 = (Lbl <$> (b_idx <$> bars)) ++
           match candidate_idx zz with
           | None => [match bars with [] => Lbl_None | _ :: _ => Lbl_NaN end]
           | Some _ => []
           end ∧
    ∀ n b z, bars !! n = Some b →
      col_ZigZag (historic_dic zz) !! n = Some z →
      s !! n = Some (Lbl (b_idx b),
                     if decide (Some (b_idx b) = candidate_idx zz)
                     then candidate_price zz
                     else Some z).
Proof.
  intros Hinit Hrun.
  assert (zz0 = fresh pct0 debug0) as ->.
  { unfold __init__ in Hinit. destruct (fle pct0 (Fin 0)); congruence. }
  destruct (run_invariants [] _ _ _ (hist_ok_fresh pct0 debug0)
              (swings_from_fresh pct0 debug0) Hrun) as [Hok _].
  simpl in Hok. destruct Hok as [Hi Hz _ _ _].
  assert (indices_seen bars zz) as (_ & _ & Hc).
  { apply (run_indices_seen [] (fresh pct0 debug0)); [|done].
    repeat split; by left. }
  assert (candidate_priced zz) as Hcp.
  { by apply (run_candidate_priced (fresh pct0 debug0) bars). }
  unfold pivots, Series. rewrite Hz, Hi, length_fmap, Nat.eqb_refl. simpl.
  eexists. split; [reflexivity|].
  assert ((zip (Lbl <$> (b_idx <$> bars))
             (Some <$> col_ZigZag (historic_dic zz))).*1
          = Lbl <$> (b_idx <$> bars)) as Hfst.
  { apply fst_zip. rewrite !length_fmap. lia. }
  split.
  - rewrite loc_set_labels, Hfst. f_equal.
    destruct (candidate_idx zz) as [i|] eqn:Hci.
    + destruct Hc as [Hc|(b & Hin & [= ->])]; [done|].
      cbv beta iota. rewrite decide_True; [done|].
      apply list_elem_of_fmap. exists (b_idx b). split; [done|].
      apply list_elem_of_fmap. by exists b.
    + cbv beta iota. f_equal. destruct bars as [|b bs]; [done|].
      by destruct (col_ZigZag (historic_dic zz)).
  - intros n b z Hn Hzn.
    assert (zip (Lbl <$> (b_idx <$> bars))
              (Some <$> col_ZigZag (historic_dic zz)) !! n
            = Some (Lbl (b_idx b), Some z)) as Hl.
    { apply lookup_zip_with_Some. exists (Lbl (b_idx b)), (Some z).
      split; [done|]. rewrite !list_lookup_fmap, Hn, Hzn. done. }
    destruct (candidate_idx zz) as [i|] eqn:Hci.
    + destruct (candidate_price zz) as [v|] eqn:Hp;
        [|specialize (Hcp Hp); congruence].
      rewrite (loc_set_lookup _ _ _ n _ _ Hl).
      destruct (decide (b_idx b = i)) as [->|Hne].
      * by rewrite !decide_True.
      * rewrite !decide_False; [done| |]; by intros [= ?].
    + rewrite (loc_set_lookup_None _ _ n _ Hl).
      by rewrite decide_False.
Qed.

(** X11. [ZigZag] raises [ValueError] when [pct <= 0], whatever the table.
    Otherwise, on a table whose valid rows have a high above -inf and a low
    below +inf, it does not raise and returns the pivots series of the
    engine that has processed every row in order, one entry per row or one
    more; on an empty table that is the single entry labelled [None] and
    holding [None]. *)
Theorem ZigZag_indicator (bars : list bar) (pct0 : float) :
  (fle pct0 (Fin 0) = true → ZigZag bars pct0 = Raise ValueError) ∧
  (fle pct0 (Fin 0) = false → forallb bounded_bar bars = true →
   ∃ zz (s : list (label * option float)),
     run (fresh pct0 false) bars = Ok zz ∧ pivots zz = Ok s ∧
     ZigZag bars pct0 = Ok s ∧
     (length bars ≤ length s ≤ S (length bars))%nat) ∧
  (fle pct0 (Fin 0) = false → ZigZag [] pct0 = Ok [(Lbl_None, None)]).
Proof.
  unfold ZigZag, __init__. destruct (fle pct0 (Fin 0)) eqn:Hp.
  - split; [done|]. split; intros [=].
  - split; [intros [=]|]. split; [|done]. intros _ Hb. simpl.
    destruct (run_fresh_total pct0 false bars Hb) as [zz Hrun].
    assert (__init__ pct0 false = Ok (fresh pct0 false)) as Hinit
      by (unfold __init__; by rewrite Hp).
    destruct (run_invariants [] _ _ _ (hist_ok_fresh pct0 false)
                (swings_from_fresh pct0 false) Hrun) as [Hok _].
    simpl in Hok. destruct Hok as [Hi Hz _ _ _].
    exists zz. rewrite Hrun. simpl.
    unfold pivots, Series. rewrite Hz, Hi, length_fmap, Nat.eqb_refl. simpl.
    eexists. split; [done|]. split; [reflexivity|]. split; [done|].
    assert (length (loc_set (zip (Lbl <$> (b_idx <$> bars))
                              (Some <$> col_ZigZag (historic_dic zz)))
                      (candidate_idx zz) (candidate_price zz))
            = length (loc_set (zip (Lbl <$> (b_idx <$> bars))
                                 (Some <$> col_ZigZag (historic_dic zz)))
                        (candidate_idx zz) (candidate_price zz)).*1) as ->
      by (by rewrite length_fmap).
    rewrite loc_set_labels, length_app, fst_zip, !length_fmap
      by (rewrite !length_fmap; lia).
    destruct (candidate_idx zz); [destruct (decide _)|]; simpl; lia.
Qed.

(** ** Direction of the pivots on positive prices *)

Local Open Scope Q_scope.

(** The swings [_update_swings] leaves on a valid positive bar, under the
    invariant: in the bootstrap both finite; after a Low pivot [P] a swing
    high above [P]; after a High pivot [P] a swing low below [P]. *)
Lemma swung_phase zz (h l : Q) (i : Z) :
  fle (pct zz) (Fin 0) = false → phase_inv zz → 0 < l → l <= h →
  match last_confirmed_type zz with
  | None =>
      last_confirmed_price zz = None ∧
      ∃ H1 L1, swing_high (swung zz (Fin h) (Fin l) i) = Fin H1 ∧
               swing_low (swung zz (Fin h) (Fin l) i) = Fin L1 ∧
               0 < L1 ∧ L1 <= H1
  | Some Low =>
      ∃ P H1, last_confirmed_price zz = Some (Fin P) ∧ 0 < P ∧
              swing_high (swung zz (Fin h) (Fin l) i) = Fin H1 ∧ P < H1
  | Some High =>
      ∃ P L1, last_confirmed_price zz = Some (Fin P) ∧ 0 < P ∧
              swing_low (swung zz (Fin h) (Fin l) i) = Fin L1 ∧ L1 < P
  end.
Proof.
  intros Hp Hinv Hl0 Hlh.
  pose proof (swung_swings zz (Fin h) (Fin l) i) as Hs. unfold fgt in Hs.
  destruct Hinv as [Ht Hpr Hsh Hsl | H0 L0 Ht Hpr Hsh Hsl HL0 HLH
                   | P H0 Ht Hpr HP Hsh HH0 Hth Hsl
                   | P L0 Ht Hpr HP Hsl HL0 Hth Hsh]; rewrite Ht in *.
  - rewrite Hsh, Hsl in Hs. simpl in Hs. injection Hs as Hs1 _ Hs3 _.
    split; [done|]. by exists h, l.
  - rewrite Hsh, Hsl in Hs. split; [done|].
    destruct (flt (Fin H0) (Fin h)) eqn:C1;
      destruct (flt (Fin l) (Fin L0)) eqn:C2;
      injection Hs as Hs1 _ Hs3 _;
      try apply flt_Fin_iff in C1; try apply flt_Fin_iff in C2;
      try apply flt_Fin_false in C1; try apply flt_Fin_false in C2;
      eexists _, _; (split; [exact Hs1|]); (split; [exact Hs3|]); lra.
  - assert (P < H0) as HPH.
    { by apply (pct_change_rise _ _ _ Hp HP Hth). }
    rewrite Hsh in Hs. destruct (flt (Fin H0) (Fin h)) eqn:C1.
    + injection Hs as Hs1 _ _ _. apply flt_Fin_iff in C1.
      exists P, h. repeat split; try done. lra.
    + destruct (flt (Fin l) (swing_low zz)); injection Hs as Hs1 _ _ _;
        exists P, H0; by repeat split.
  - assert (L0 < P) as HLP.
    { by apply (pct_change_fall _ _ _ Hp HP Hth). }
    rewrite Hsl in Hs. destruct (flt (Fin l) (Fin L0)) eqn:C1.
    + injection Hs as _ _ Hs3 _. apply flt_Fin_iff in C1.
      exists P, l. repeat split; try done. lra.
    + destruct (flt (swing_high zz) (Fin h)); injection Hs as _ _ Hs3 _;
        exists P, L0; by repeat split.
Qed.

(** One call on a positive bar: in the bootstrap only a Low is confirmed,
    and a confirmed pivot turns from the last confirmed one. *)
Lemma update_turns zz b zz' r e :
  fle (pct zz) (Fin 0) = false → phase_inv zz → positive_bar b = true →
  update zz (b_high b) (b_low b) (b_idx b) = Ok (zz', r) →
  confirmation b zz' = Some e →
  (last_confirmed_type zz = None → p_type e = Low) ∧
  (∀ P, last_confirmed_price zz = Some P → turns_from P e).
Proof.
  intros Hp Hinv Hb H. unfold confirmation, turns_from.
  destruct (invalid_bar (b_high b) (b_low b)) eqn:Hv; [done|].
  destruct (positive_bar_valid b Hb Hv) as (h & l & Hh & Hl & Hl0 & Hlh).
  rewrite Hh, Hl in *.
  pose proof (swung_phase zz h l (b_idx b) Hp Hinv Hl0 Hlh) as Hph.
  update_cases H Hv; rewrite ?Hlast in Hph; frame; try done;
    intros [= <-]; simpl.
  - destruct Hph as (P & L1 & Hpr & HP & Hs3 & HLP).
    split; [done|]. intros P0 HP0. rewrite Hpr in HP0. injection HP0 as <-.
    rewrite Hs3. by apply flt_Fin_iff.
  - destruct Hph as (P & H1 & Hpr & HP & Hs1 & HPH).
    split; [done|]. intros P0 HP0. rewrite Hpr in HP0. injection HP0 as <-.
    rewrite Hs1. by apply flt_Fin_iff.
  - destruct Hph as (Hpr & _). split; [done|]. intros P0 HP0. congruence.
  - destruct Hph as (_ & H1 & L1 & Hs1 & Hs3 & HL1 & HLH1).
    autorewrite with zigzag in Hch. rewrite Hs1, Hs3 in Hch.
    by rewrite (confirm_bootstrap_down _ _ _ Hp HL1 HLH1) in Hch.
Qed.

Local Open Scope Z_scope.

Lemma confirmations_turning_chain zz bars :
  fle (pct zz) (Fin 0) = false → phase_inv zz →
  forallb positive_bar bars = true →
  turning_chain (last_confirmed_price zz) (confirmations zz bars) ∧
  (last_confirmed_type zz = None →
   ∀ e, confirmations zz bars !! 0%nat = Some e → p_type e = Low).
Proof.
  revert zz. induction bars as [|b bs IH]; intros zz Hp Hinv Hbars;
    simpl; [done|].
  simpl in Hbars. apply andb_true_iff in Hbars as [Hb Hbs].
  destruct (update zz (b_high b) (b_low b) (b_idx b)) as [[zz' r]|x] eqn:H;
    [|done].
  destruct (update_phase_inv _ _ _ _ Hp Hinv Hb H)
    as (Hpct & Hinv' & _ & _ & Hev).
  pose proof (update_last_confirmed_type _ _ _ _ H) as Hty.
  assert (fle (pct zz') (Fin 0) = false) as Hp' by (by rewrite Hpct).
  destruct (IH zz' Hp' Hinv' Hbs) as [IH1 IH2].
  destruct (confirmation b zz') as [e|] eqn:He; simpl.
  - destruct (update_turns _ _ _ _ _ Hp Hinv Hb H He) as [Hlow Hturn].
    destruct Hev as [He1 _]. rewrite He1 in IH1. split; [done|].
    intros Hnone e0 [= <-]. by apply Hlow.
  - rewrite Hev in IH1. split; [done|]. intros Hnone. apply IH2. congruence.
Qed.

Lemma turning_chain_adjacent prev evs k e e' :
  turning_chain prev evs →
  evs !! k = Some e → evs !! S k = Some e' → turns_from (p_price e) e'.
Proof.
  revert prev k. induction evs as [|a evs IH]; intros prev k Hc Hk HSk;
    [done|].
  destruct Hc as [_ Hc]. destruct k as [|k]; simpl in *.
  - injection Hk as ->. destruct evs as [|a' evs]; [done|].
    injection HSk as ->. destruct Hc as [Hc _]. by apply Hc.
  - eapply IH; eauto.
Qed.

(** X6. On a stream whose valid bars have finite prices and a positive
    low, the pivots a new engine confirms do zigzag: a confirmed High is
    above the pivot confirmed before it, a confirmed Low is below it. *)
Theorem pivots_turn (pct0 : float) (debug0 : bool) (zz0 : ZigZagClass)
    (bars : list bar) (k : nat) (p q : pivot) :
  __init__ pct0 debug0 = Ok zz0 →
  forallb positive_bar bars = true →
  confirmations zz0 bars !! k = Some p →
  confirmations zz0 bars !! S k = Some q →
  match p_type q with
  | High => flt (p_price p) (p_price q) = true
  | Low => flt (p_price q) (p_price p) = true
  end.
Proof.
  intros Hinit Hbars Hp Hq.
  destruct (init_phase_inv _ _ _ Hinit) as (_ & Hpos & Hinv).
  destruct (confirmations_turning_chain zz0 bars Hpos Hinv Hbars) as [Hc _].
  exact (turning_chain_adjacent _ _ _ _ _ Hc Hp Hq).
Qed.

(** X7. On such a stream the first pivot a new engine confirms is a Low:
    the downward test of the bootstrap computes
    [(swing_low - swing_high) / swing_high], which is never positive there,
    so a High is never confirmed first. *)
Theorem first_pivot_is_low (pct0 : float) (debug0 : bool)
    (zz0 : ZigZagClass) (bars : list bar) (e : pivot) :
  __init__ pct0 debug0 = Ok zz0 →
  forallb positive_bar bars = true →
  confirmations zz0 bars !! 0%nat = Some e →
  p_type e = Low.
Proof.
  intros Hinit Hbars He.
  destruct (init_phase_inv _ _ _ Hinit) as (_ & Hpos & Hinv).
  destruct (confirmations_turning_chain zz0 bars Hpos Hinv Hbars) as [_ Hf].
  apply Hf; [|done].
  unfold __init__ in Hinit. destruct (fle pct0 (Fin 0)); [done|].
  by injection Hinit as <-.
Qed.

(** ** The debug trace and the pivots *)

#[local] Transparent traced.

Lemma traced_row zz h l i :
  debug zz = true →
  ∃ row, debug_dic (traced zz h l i) = debug_dic zz ++ [row] ∧
    d_confirmed row = confirmed zz ∧
    d_last_confirmed_type row = last_confirmed_type zz ∧
    d_last_confirmed_price row =
      (if confirmed zz then last_confirmed_price zz else None) ∧
    d_last_confirmed_idx row =
      (if confirmed zz then last_confirmed_idx zz else None) ∧
    d_swing_high row = swing_high zz ∧ d_swing_low row = swing_low zz ∧
    d_candidate_price row = candidate_price zz ∧
    d_candidate_idx row = candidate_idx zz.
Proof.
  intros Hd. unfold traced, _debug_state. rewrite Hd. simpl.
  eexists. split; [reflexivity|]. by simpl.
Qed.

#[local] Opaque traced.

(** One call of [update] on an engine with [debug] set: the rows the call
    adds to the trace report what the call confirmed. *)
Lemma update_traced_pivot zz b zz' r :
  debug zz = true →
  update zz (b_high b) (b_low b) (b_idx b) = Ok (zz', r) →
  ∃ new, debug_dic zz' = debug_dic zz ++ new ∧
    omap traced_pivot new = option_list (confirmation b zz').
Proof.
  intros Hd H. unfold confirmation.
  destruct (invalid_bar (b_high b) (b_low b)) eqn:Hv.
  - rewrite (update_invalid _ _ _ _ Hv) in H. injection H as <- <-.
    autorewrite with zigzag. exists []. by rewrite app_nil_r.
  - assert (∀ zz2, debug zz2 = true → debug_dic zz2 = debug_dic zz →
              ∃ new,
                debug_dic (traced zz2 (b_high b) (b_low b) (b_idx b)) =
                  debug_dic zz ++ new ∧
                omap traced_pivot new =
                  option_list
                    (if confirmed (traced zz2 (b_high b) (b_low b) (b_idx b))
                     then
                       match
                         last_confirmed_price
                           (traced zz2 (b_high b) (b_low b) (b_idx b)),
                         last_confirmed_idx
                           (traced zz2 (b_high b) (b_low b) (b_idx b)),
                         last_confirmed_type
                           (traced zz2 (b_high b) (b_low b) (b_idx b))
                       with
                       | Some p, Some i, Some t =>
                           Some {| p_price := p; p_index := i; p_type := t |}
                       | _, _, _ => None
                       end
                     else None)) as Htr.
    { intros zz2 Hd2 Hdd.
      destruct (traced_row zz2 (b_high b) (b_low b) (b_idx b) Hd2)
        as (row & -> & Hc & Ht & Hp & Hi & _).
      rewrite traced_confirmed, traced_last_confirmed_price,
        traced_last_confirmed_idx, traced_last_confirmed_type, Hdd.
      exists [row]. split; [done|]. simpl. unfold traced_pivot.
      rewrite Hc, Ht, Hp, Hi. by destruct (confirmed zz2). }
    update_cases H Hv; apply Htr; by frame.
Qed.

(** X12. With [debug] set, the rows of the trace flagged [confirmed]
    report, in order, exactly the pivots the stream confirmed, with their
    price, index and type; the rows of the other valid bars report none
    (their [last_confirmed_price] and [last_confirmed_idx] are blank). *)
Theorem debug_trace_reports_pivots (pct0 : float) (zz0 : ZigZagClass)
    (bars : list bar) (zz : ZigZagClass) :
  __init__ pct0 true = Ok zz0 →
  run zz0 bars = Ok zz →
  omap traced_pivot (debug_dic zz) = confirmations zz0 bars.
Proof.
  intros Hinit Hrun.
  assert (zz0 = fresh pct0 true) as ->.
  { unfold __init__ in Hinit. destruct (fle pct0 (Fin 0)); congruence. }
  assert (∀ zz1 zz2, debug zz1 = true → run zz1 bars = Ok zz2 →
            omap traced_pivot (debug_dic zz2) =
              omap traced_pivot (debug_dic zz1) ++ confirmations zz1 bars)
    as Hall.
  { clear. induction bars as [|b bs IH]; intros zz1 zz2 Hd Hrun;
      simpl in Hrun |- *.
    - injection Hrun as <-. by rewrite app_nil_r.
    - apply bind_Ok in Hrun as ([zz' r] & H & Hrun). simpl in Hrun.
      rewrite H.
      destruct (update_traced_pivot _ _ _ _ Hd H) as (new & Hnew & Hpiv).
      destruct (update_debug_dic _ _ _ _ H) as (Hd' & _).
      rewrite (IH zz' zz2) by congruence.
      by rewrite Hnew, omap_app, Hpiv, app_assoc. }
  by rewrite (Hall (fresh pct0 true) zz eq_refl Hrun).
Qed.

(** ** When the engine raises *)

Lemma swung_indexed zz h l i :
  indexed zz → indexed (swung zz h l i).
Proof.
  intros [Hh Hl]. unfold indexed.
  pose proof (swung_swings zz h l i) as Hs.
  destruct (last_confirmed_type zz) as [[]|]; unfold fgt in Hs.
  - destruct (flt l (swing_low zz)); [|destruct (flt (swing_high zz) h)];
      injection Hs as _ -> _ ->; split; done || exact (mk_is_Some _ _ eq_refl).
  - destruct (flt (swing_high zz) h); [|destruct (flt l (swing_low zz))];
      injection Hs as _ -> _ ->; split; done || exact (mk_is_Some _ _ eq_refl).
  - destruct (flt (swing_high zz) h); destruct (flt l (swing_low zz));
      injection Hs as _ -> _ ->; split; done || exact (mk_is_Some _ _ eq_refl).
Qed.

Lemma swung_untouched zz b :
  untouched zz → valid_bar b = true → bounded_bar b = true →
  indexed (swung zz (b_high b) (b_low b) (b_idx b)).
Proof.
  intros (Ht & Hh & _ & Hl & _) Hv Hb. unfold indexed.
  unfold valid_bar in Hv. apply negb_true_iff in Hv.
  unfold bounded_bar in Hb. rewrite Hv, orb_false_l in Hb.
  apply andb_true_iff in Hb as [Hbh Hbl].
  pose proof (swung_swings zz (b_high b) (b_low b) (b_idx b)) as Hs.
  rewrite Ht, Hh, Hl, Hbh, Hbl in Hs. injection Hs as _ -> _ ->.
  split; exact (mk_is_Some _ _ eq_refl).
Qed.

(** Once both swing indices are set they stay set. *)
Lemma update_indexed zz b zz' r :
  indexed zz ∨ (untouched zz ∧ valid_bar b = true ∧ bounded_bar b = true) →
  invalid_bar (b_high b) (b_low b) = false →
  update zz (b_high b) (b_low b) (b_idx b) = Ok (zz', r) →
  indexed zz'.
Proof.
  intros Hi Hv H.
  assert (indexed (swung zz (b_high b) (b_low b) (b_idx b))) as [Hh Hl].
  { destruct Hi as [Hi|(Hu & Hvb & Hb)];
      [by apply swung_indexed | by apply swung_untouched]. }
  unfold indexed.
  update_cases H Hv; frame; split; done || exact (mk_is_Some _ _ eq_refl).
Qed.

Lemma update_indexed_total seen zz b :
  hist_ok seen zz → swings_from seen zz → indexed zz →
  ∃ zz' r, update zz (b_high b) (b_low b) (b_idx b) = Ok (zz', r).
Proof.
  intros Hok Hsw Hi.
  destruct (invalid_bar (b_high b) (b_low b)) eqn:Hv.
  - rewrite (update_invalid _ _ _ _ Hv). eauto.
  - assert (valid_bar b = true) as Hvb by (unfold valid_bar; by rewrite Hv).
    destruct (swings_from_swung seen zz b Hvb Hsw) as [Hh Hl].
    destruct (swung_indexed zz (b_high b) (b_low b) (b_idx b) Hi)
      as [Hih Hil].
    rewrite (update_valid _ _ _ _ Hv).
    assert (∀ x, fge (_pct_change (swing_low (swung zz (b_high b) (b_low b) (b_idx b))) x)
                   (pct (swung zz (b_high b) (b_low b) (b_idx b))) = true →
                 can_annotate (swung zz (b_high b) (b_low b) (b_idx b))
                   (swing_low_idx (swung zz (b_high b) (b_low b) (b_idx b))))
      as Hlow.
    { intros x Hc. destruct Hl as [Hl|Hl].
      - rewrite Hl in Hc. by rewrite confirm_not_PInf in Hc.
      - by eapply can_annotate_swung. }
    assert (∀ x, fge (_pct_change (swing_high (swung zz (b_high b) (b_low b) (b_idx b))) x)
                   (pct (swung zz (b_high b) (b_low b) (b_idx b))) = true ∨
                 fge (fopp (_pct_change (swing_high (swung zz (b_high b) (b_low b) (b_idx b))) x))
                   (pct (swung zz (b_high b) (b_low b) (b_idx b))) = true →
                 can_annotate (swung zz (b_high b) (b_low b) (b_idx b))
                   (swing_high_idx (swung zz (b_high b) (b_low b) (b_idx b))))
      as Hhigh.
    { intros x Hc. destruct Hh as [Hh|Hh].
      - rewrite Hh in Hc. rewrite confirm_not_NInf, confirm_opp_not_NInf in Hc.
        by destruct Hc.
      - by eapply can_annotate_swung. }
    destruct (last_confirmed_type zz) as [[]|] eqn:Ht.
    + destruct (after_high_total (swung zz (b_high b) (b_low b) (b_idx b))
                  (b_high b) (b_low b) (b_idx b)) as [zz2 ->]; [apply Hlow|].
      simpl. eauto.
    + destruct (after_low_total (swung zz (b_high b) (b_low b) (b_idx b))
                  (b_high b) (b_low b) (b_idx b)) as [zz2 ->].
      { intros Hc. apply (Hhigh _ (or_intror Hc)). }
      simpl. eauto.
    + destruct (bootstrap_total (swung zz (b_high b) (b_low b) (b_idx b))
                  (b_high b) (b_low b) (b_idx b)) as [zz2 ->]; try done.
      * apply Hlow.
      * intros Hc. apply (Hhigh _ (or_introl Hc)).
      * simpl. eauto.
Qed.

Lemma run_indexed_total seen zz bars :
  hist_ok seen zz → swings_from seen zz → indexed zz →
  ∃ zz', run zz bars = Ok zz'.
Proof.
  revert seen zz. induction bars as [|b bs IH];
    intros seen zz Hok Hsw Hi; simpl; [eauto|].
  destruct (update_indexed_total seen zz b Hok Hsw Hi) as (zz1 & r & H).
  rewrite H. simpl.
  destruct (update_swings_from _ _ _ _ _ Hsw H) as [Hsw1 _].
  apply (IH (seen ++ [b])); try done.
  - by eapply update_hist_ok.
  - destruct (invalid_bar (b_high b) (b_low b)) eqn:Hv.
    + rewrite (update_invalid _ _ _ _ Hv) in H. injection H as <- _.
      unfold indexed in *. by autorewrite with zigzag.
    + eapply update_indexed; eauto.
Qed.

(** The first valid bar on an untouched engine, when its high is -inf or
    its low +inf: a swing index stays [None] and the comparison of the
    two indices raises. *)
Lemma update_untouched_unbounded zz b :
  untouched zz → valid_bar b = true → bounded_bar b = false →
  update zz (b_high b) (b_low b) (b_idx b) = Raise TypeError.
Proof.
  intros (Ht & Hh & Hhi & Hl & Hli) Hv Hb.
  unfold valid_bar in Hv. apply negb_true_iff in Hv.
  unfold bounded_bar in Hb. rewrite Hv, orb_false_l in Hb.
  rewrite (update_valid _ _ _ _ Hv), Ht. unfold bootstrap.
  pose proof (swung_swings zz (b_high b) (b_low b) (b_idx b)) as Hs.
  rewrite Ht, Hh, Hl, Hhi, Hli in Hs. injection Hs as _ Hs2 _ Hs4.
  rewrite Hs2, Hs4.
  destruct (b_high b), (b_low b); try reflexivity; discriminate Hb.
Qed.

Lemma run_untouched seen zz bars :
  hist_ok seen zz → swings_from seen zz → untouched zz →
  match first_valid bars with
  | Some b =>
      if bounded_bar b then ∃ zz', run zz bars = Ok zz'
      else run zz bars = Raise TypeError
  | None => ∃ zz', run zz bars = Ok zz'
  end.
Proof.
  revert seen zz. induction bars as [|b bs IH];
    intros seen zz Hok Hsw Hu; unfold first_valid; simpl; [eauto|].
  destruct (valid_bar b) eqn:Hvb; simpl.
  - destruct (bounded_bar b) eqn:Hb.
    + destruct (update_total seen zz b Hok Hsw) as (zz1 & r & H); [|done|].
      { intros _. left. destruct Hu as (_ & ? & _ & ? & _). done. }
      rewrite H. simpl.
      destruct (update_swings_from _ _ _ _ _ Hsw H) as [Hsw1 _].
      apply (run_indexed_total (seen ++ [b])); try done.
      * by eapply update_hist_ok.
      * eapply update_indexed; [|by apply negb_true_iff|exact H].
        right. done.
    + by rewrite (update_untouched_unbounded zz b Hu Hvb Hb).
  - unfold valid_bar in Hvb. apply negb_false_iff in Hvb.
    rewrite (update_invalid _ _ _ _ Hvb). simpl.
    assert (update zz (b_high b) (b_low b) (b_idx b) =
            Ok (_update_df zz (b_high b) (b_low b) (b_idx b), None)) as H
      by (by apply update_invalid).
    destruct (update_swings_from _ _ _ _ _ Hsw H) as [Hsw1 _].
    apply (IH (seen ++ [b])); [by eapply update_hist_ok | done |].
    unfold untouched in *. by autorewrite with zigzag.
Qed.

(** X13. With the prices passed as NumPy [float64] scalars, as [ZigZag]
    passes them (a division by zero then yields an infinity or NaN and
    does not raise, which is how [fdiv] is written), the only stream on
    which a new engine raises is one whose first valid bar has a high of
    -inf or a low of +inf: that bar leaves a swing index at [None], and the
    comparison of the swing indices raises [TypeError].  On every other
    stream, whatever prices and indices the later bars carry, every call
    of [update] completes. *)
Theorem engine_raises_only_on_unbounded_first_bar (pct0 : float)
    (debug0 : bool) (zz0 : ZigZagClass) (bars : list bar) :
  __init__ pct0 debug0 = Ok zz0 →
  match first_valid bars with
  | Some b =>
      if bounded_bar b then ∃ zz, run zz0 bars = Ok zz
      else run zz0 bars = Raise TypeError
  | None => ∃ zz, run zz0 bars = Ok zz
  end.
Proof.
  intros Hinit.
  assert (zz0 = fresh pct0 debug0) as ->.
  { unfold __init__ in Hinit. destruct (fle pct0 (Fin 0)); congruence. }
  apply (run_untouched []).
  - apply hist_ok_fresh.
  - apply swings_from_fresh.
  - by repeat split.
Qed.

(** ** The scenario of the specification *)

Lemma rnd_at_least (n : Z) (k : N) (x : Q) (p : float) :
  (Z.abs n <= 2 ^ 53)%Z → (k <= 1000)%N →
  fle p (Fin (n # Z.to_pos (2 ^ Z.of_N k))) = true →
  (n # Z.to_pos (2 ^ Z.of_N k) <= x)%Q →
  fle p (rnd x) = true.
Proof.
  intros Hn Hk Hp Hx. eapply fle_trans; [exact Hp|].
  rewrite <- (rnd_dyadic n k Hn Hk). by apply rnd_mono.
Qed.

(** The test of the second bar: the rounded [(110 - 99) / 99] is at least
    1/16. *)
Lemma scenario_second_test (p : Q) :
  (p <= 1 # 16)%Q →
  fge (_pct_change (Fin 99) (Fin 110)) (Fin p) = true.
Proof.
  intros Hp. unfold fge. rewrite pct_change_Fin.
  assert (rnd (110 - 99) = Fin 11) as -> by (by apply (rnd_dyadic 11 0)).
  apply (rnd_at_least 1 4); [done | done | by apply Qle_bool_iff | done].
Qed.

(** The test of the third bar: the rounded [-(95 - 110) / 110] is at least
    1/16. *)
Lemma scenario_third_test (p : Q) :
  (p <= 1 # 16)%Q →
  fge (fopp (_pct_change (Fin 110) (Fin 95))) (Fin p) = true.
Proof.
  intros Hp. unfold fge. rewrite pct_change_Fin.
  assert (rnd (95 - 110) = Fin (-15)) as -> by (by apply (rnd_dyadic (-15) 0)).
  rewrite <- round_opp.
  apply (rnd_at_least 1 4); [done | done | by apply Qle_bool_iff | done].
Qed.

Lemma update_Ok_confirmations zz b bs zz' r :
  update zz (b_high b) (b_low b) (b_idx b) = Ok (zz', r) →
  confirmations zz (b :: bs) =
    option_list (confirmation b zz') ++ confirmations zz' bs.
Proof. intros H. simpl. by rewrite H. Qed.

Lemma update_Ok_run zz b bs zz' r :
  update zz (b_high b) (b_low b) (b_idx b) = Ok (zz', r) →
  run zz (b :: bs) = run zz' bs.
Proof. intros H. simpl. by rewrite H. Qed.

(** The three calls of the scenario, one by one. *)
Lemma scenario_steps (p : Q) :
  (p <= 1 # 16)%Q →
  ∃ zz1 zz2 zz3,
    update (fresh (Fin p) false) (b_high bar0) (b_low bar0) (b_idx bar0)
      = Ok (zz1, None) ∧
    update zz1 (b_high bar1) (b_low bar1) (b_idx bar1) = Ok (zz2, None) ∧
    update zz2 (b_high bar2) (b_low bar2) (b_idx bar2) = Ok (zz3, None) ∧
    confirmation bar0 zz1 = None ∧
    confirmation bar1 zz2 = Some low99 ∧
    confirmation bar2 zz3 = Some high110 ∧
    swing_high zz2 = Fin 110 ∧ swing_high_idx zz2 = Some 1.
Proof.
  intros Hp.
  pose proof (scenario_second_test p Hp) as H2.
  pose proof (scenario_third_test p Hp) as H3.
  set (s1 := traced (swung (fresh (Fin p) false) (Fin 100) (Fin 99) 0)
               (Fin 100) (Fin 99) 0).
  set (s2 := traced (low_pivoted (swung s1 (Fin 110) (Fin 109) 1) 0 0 1)
               (Fin 110) (Fin 109) 1).
  set (s3 := traced (high_pivoted (swung s2 (Fin 96) (Fin 95) 2) 1 1 2)
               (Fin 96) (Fin 95) 2).
  exists s1, s2, s3.
  split; [|split; [|split; [|repeat split; vm_compute; reflexivity]]].
  - vm_compute. reflexivity.
  - rewrite update_valid by reflexivity.
    assert (last_confirmed_type s1 = None) as -> by (vm_compute; reflexivity).
    unfold bootstrap. simpl b_high. simpl b_low. simpl b_idx.
    set (sw := swung s1 (Fin 110) (Fin 109) 1).
    assert (swing_low_idx sw = Some 0) as -> by (vm_compute; reflexivity).
    assert (swing_high_idx sw = Some 1) as -> by (vm_compute; reflexivity).
    assert (swing_low sw = Fin 99) as -> by (vm_compute; reflexivity).
    assert (swing_high sw = Fin 110) as -> by (vm_compute; reflexivity).
    assert (pct sw = Fin p) as -> by (vm_compute; reflexivity).
    simpl idx_lt.
    cbn [mbind result_bind Z.ltb Z.compare Pos.compare Pos.compare_cont].
    rewrite H2. vm_compute. reflexivity.
  - rewrite update_valid by reflexivity.
    assert (last_confirmed_type s2 = Some Low) as ->
      by (vm_compute; reflexivity).
    unfold after_low. simpl b_high. simpl b_low. simpl b_idx.
    set (sw := swung s2 (Fin 96) (Fin 95) 2).
    assert (swing_low sw = Fin 95) as -> by (vm_compute; reflexivity).
    assert (swing_high sw = Fin 110) as -> by (vm_compute; reflexivity).
    assert (pct sw = Fin p) as -> by (vm_compute; reflexivity).
    rewrite H3. vm_compute. reflexivity.
Qed.

(** C3, as the code behaves.  With the bars (0, 100, 99), (1, 110, 109),
    (2, 96, 95) and a threshold [pct] up to 0.0625 (so with 0.05, and with
    the float64 nearest to it), whatever the rounding: the first update
    confirms nothing; the second update confirms the Low pivot 99 at index
    0, as soon as the rise to 110 meets the threshold, and leaves the swing
    high at 110, index 1; the third update confirms the High pivot 110 at
    index 1. *)
Theorem scenario_three_bars (p : Q) :
  (0 < p)%Q → (p <= 1 # 16)%Q →
  ∃ zz0 zz2,
    __init__ (Fin p) false = Ok zz0 ∧
    confirmations zz0 (take 1 bars3) = [] ∧
    confirmations zz0 (take 2 bars3) = [low99] ∧
    run zz0 (take 2 bars3) = Ok zz2 ∧
    swing_high zz2 = Fin 110 ∧ swing_high_idx zz2 = Some 1 ∧
    confirmations zz0 bars3 = [low99; high110].
Proof.
  intros Hp0 Hp.
  destruct (scenario_steps p Hp)
    as (zz1 & zz2 & zz3 & E0 & E1 & E2 & C0 & C1 & C2 & Hh & Hi).
  exists (fresh (Fin p) false), zz2.
  split.
  { unfold __init__. simpl. destruct (Qle_bool p 0) eqn:H; [|done].
    apply Qle_bool_iff in H. lra. }
  change bars3 with [bar0; bar1; bar2].
  change (take 1 [bar0; bar1; bar2]) with [bar0].
  change (take 2 [bar0; bar1; bar2]) with [bar0; bar1].
  rewrite (update_Ok_confirmations _ bar0 [bar1; bar2] _ _ E0),
    (update_Ok_confirmations _ bar0 [bar1] _ _ E0),
    (update_Ok_confirmations _ bar0 [] _ _ E0),
    (update_Ok_confirmations _ bar1 [bar2] _ _ E1),
    (update_Ok_confirmations _ bar1 [] _ _ E1),
    (update_Ok_confirmations _ bar2 [] _ _ E2),
    (update_Ok_run _ bar0 [bar1] _ _ E0), (update_Ok_run _ bar1 [] _ _ E1),
    C0, C1, C2.
  done.
Qed.

End engine.

#[local] Existing Instance exact_rounding.

(** * Witnesses and counterexamples

    Evaluated with exact arithmetic ([exact_rounding]).  The counterexamples
    compute on dyadic numbers only, where no rounding changes a result, or
    run the scenario, whose tests [scenario_steps] settles for every
    rounding. *)

Lemma confirmed_types_alternate_witness :
  confirmations (fresh (Fin 0.05) false) bars3 !! 0%nat = Some low99 ∧
  confirmations (fresh (Fin 0.05) false) bars3 !! 1%nat = Some high110 ∧
  p_type high110 = opposite (p_type low99).
Proof.
  assert (confirmations (fresh (Fin 0.05) false) bars3 !! 0%nat = Some low99)
    as Hp by (vm_compute; reflexivity).
  assert (confirmations (fresh (Fin 0.05) false) bars3 !! 1%nat
          = Some high110) as Hq by (vm_compute; reflexivity).
  split; [exact Hp|]. split; [exact Hq|].
  exact (confirmed_types_alternate _ _ _ _ _ Hp Hq).
Defined.

Lemma init_rejects_nonpositive_pct_witness :
  __init__ (Fin 0) true = Raise ValueError ∧
  ∃ zz, __init__ (Fin 0.05) false = Ok zz ∧ swing_high zz = NInf ∧
        swing_low zz = PInf.
Proof.
  split.
  - apply (proj1 (init_rejects_nonpositive_pct (Fin 0) true)). reflexivity.
  - destruct (proj1 (proj2 (init_rejects_nonpositive_pct (Fin 0.05) false))
                eq_refl) as (zz & H & _ & _ & Hh & Hl & _).
    exists zz. done.
Defined.

Lemma scenario_three_bars_witness :
  (0 < 0.05)%Q ∧ (0.05 <= 1 # 16)%Q ∧
  confirmations (fresh (Fin 0.05) false) (take 2 bars3) = [low99] ∧
  confirmations (fresh (Fin 0.05) false) bars3 = [low99; high110].
Proof.
  split; [done|]. split; [done|].
  destruct (scenario_three_bars 0.05)
    as (zz0 & zz2 & Hi & _ & H2 & _ & _ & _ & H3); [done | done |].
  injection Hi as <-. split; [exact H2 | exact H3].
Defined.

(** C3 as stated fails: what the third update confirms is the High pivot
    110 at index 1, not the Low pivot 99 at index 0, which the second
    update has confirmed. *)
Lemma scenario_third_update_not_low :
  (zz0 ← __init__ (Fin 0.05) false;
   zz2 ← run zz0 (take 2 bars3);
   r ← update zz2 (Fin 96) (Fin 95) 2;
   Ok (confirmations zz0 (take 2 bars3), confirmation bar2 (fst r)))
  = Ok ([low99], Some high110) ∧
  Some high110 ≠ Some low99.
Proof. split; [vm_compute; reflexivity | discriminate]. Qed.

Lemma update_returns_None_witness :
  confirmed (fed (take 2 bars3)) = true ∧
  last_confirmed_price (fed (take 2 bars3)) = Some (Fin 99).
Proof.
  assert (update (fed (take 1 bars3)) (b_high bar1) (b_low bar1) (b_idx bar1)
          = Ok (fed (take 2 bars3), None)) as H
    by (vm_compute; reflexivity).
  apply update_returns_None in H as [_ H].
  vm_compute in H. destruct H as (Hc & _ & Hp & _). split; [exact Hc | exact Hp].
Defined.

(** C4 as stated fails: the second update of the scenario confirms the Low
    pivot 99 at index 0, and returns [None]. *)
Lemma update_confirms_and_returns_None :
  (zz0 ← __init__ (Fin 0.05) false;
   zz1 ← run zz0 (take 1 bars3);
   r ← update zz1 (Fin 110) (Fin 109) 1;
   Ok (confirmation {| b_idx := 1; b_high := Fin 110; b_low := Fin 109 |}
         (fst r),
       snd r))
  = Ok (Some {| p_price := Fin 99; p_index := 0; p_type := Low |}, None).
Proof. vm_compute. reflexivity. Qed.

Lemma candidate_tracks_swing_witness :
  candidate_price (fed bars3) = Some (swing_high (fed bars3)) ∧
  candidate_idx (fed bars3) = swing_high_idx (fed bars3).
Proof.
  refine (proj2 (candidate_tracks_swing (fed (take 2 bars3))
                   (Fin 96) (Fin 95) 2 (fed bars3) None _ _) _);
    vm_compute; reflexivity.
Defined.

Lemma same_bar_opposite_extreme_suppressed_witness :
  swing_high (fed (bars3 ++ [ {| b_idx := 3; b_high := Fin 94;
                                 b_low := Fin 90 |} ])) ≠ Fin 94.
Proof.
  refine (proj1 (proj1 (same_bar_opposite_extreme_suppressed (fed bars3)
                          (Fin 94) (Fin 90) 3 _ None _ _ _) _));
    vm_compute; reflexivity.
Defined.

Lemma threshold_between_pivots_witness :
  forallb positive_bar bars3 = true ∧
  confirmations (fresh (Fin 0.05) false) bars3 !! 0%nat = Some low99 ∧
  confirmations (fresh (Fin 0.05) false) bars3 !! 1%nat = Some high110 ∧
  fge (relative_move (p_price low99) (p_price high110)) (Fin 0.05) = true.
Proof.
  assert (forallb positive_bar bars3 = true) as Hb
    by (vm_compute; reflexivity).
  assert (confirmations (fresh (Fin 0.05) false) bars3 !! 0%nat = Some low99)
    as Hp by (vm_compute; reflexivity).
  assert (confirmations (fresh (Fin 0.05) false) bars3 !! 1%nat
          = Some high110) as Hq by (vm_compute; reflexivity).
  split; [exact Hb|]. split; [exact Hp|]. split; [exact Hq|].
  exact (threshold_between_pivots (Fin 0.05) false (fresh (Fin 0.05) false)
           bars3 0 low99 high110 eq_refl Hb Hp Hq).
Defined.

(** C2 as stated fails on negative prices: with threshold 0.125 the bars
    -4, -5, -6 confirm the High pivot -4 and then the Low pivot -6, and
    [|-6 - -4| / -4 = -0.5] is below the threshold. *)
Lemma threshold_fails_on_negative_prices :
  __init__ (Fin 0.125) false = Ok (fresh (Fin 0.125) false) ∧
  confirmations (fresh (Fin 0.125) false) bars_neg =
    [ {| p_price := Fin (-4); p_index := 0; p_type := High |};
      {| p_price := Fin (-6); p_index := 2; p_type := Low |} ] ∧
  fge (relative_move (Fin (-4)) (Fin (-6))) (Fin 0.125) = false.
Proof. repeat split; vm_compute; reflexivity. Qed.

Lemma invalid_bar_absorbed_witness :
  col_ZigZag (historic_dic
                (fed (take 1 bars3 ++
                      {| b_idx := 7; b_high := NaN; b_low := Fin 98 |}
                      :: drop 1 bars3))) !! 1%nat = Some NaN.
Proof.
  refine (proj1 (proj2 (proj2 invalid_bar_absorbed (Fin 0.05) false
                          (fresh (Fin 0.05) false) (take 1 bars3)
                          {| b_idx := 7; b_high := NaN; b_low := Fin 98 |}
                          (drop 1 bars3) _ _ _) _ _)).
  - reflexivity.
  - reflexivity.
  - intros b Hin _. simpl in Hin. rewrite !elem_of_cons in Hin.
    destruct Hin as [-> | [-> | [-> | Hin]]];
      [done | done | done | by apply elem_of_nil in Hin].
  - vm_compute. reflexivity.
Defined.

Lemma bootstrap_same_bar_no_candidate_witness :
  ∃ zz, run (fresh (Fin 0.05) false) (take 1 bars3) = Ok zz ∧
        candidate_idx zz = None ∧
        pivots zz = Ok [(Lbl 0, Some NaN); (Lbl_NaN, Some NaN)].
Proof.
  destruct (bootstrap_same_bar_no_candidate (Fin 0.05) false
              (fresh (Fin 0.05) false) (take 1 bars3))
    as (zz & Hrun & _ & _ & _ & _ & _ & Hci & Hp).
  - reflexivity.
  - apply (widening_one_valid_bar []
             {| b_idx := 0; b_high := Fin 100; b_low := Fin 99 |} []);
      reflexivity.
  - exists zz. split; [exact Hrun|]. split; [exact Hci | exact Hp].
Defined.

(** C10 as stated fails.  One valid bar need not move both swings: the bar
    with high and low at +inf moves the swing high only, and the direction
    test of the bootstrap raises [TypeError] on the unset index of the
    swing low.  And once a bar has been processed the extra entry of
    [pivots] is labelled NaN and holds NaN, not [None]. *)
Lemma one_valid_bar_raises :
  valid_bar {| b_idx := 0; b_high := PInf; b_low := PInf |} = true ∧
  (zz0 ← __init__ (Fin 0.05) false;
   run zz0 [ {| b_idx := 0; b_high := PInf; b_low := PInf |} ])
  = Raise TypeError ∧
  (zz0 ← __init__ (Fin 0.05) false;
   zz ← run zz0 (take 1 bars3);
   pivots zz)
  = Ok [(Lbl 0, Some NaN); (Lbl_NaN, Some NaN)] ∧
  (Lbl_NaN, Some NaN) ≠ (Lbl_None, @None float).
Proof. repeat split; try (vm_compute; reflexivity). discriminate. Qed.

Lemma one_sentinel_at_most_witness :
  ∃ zz, run (fresh (Fin 0.05) false) bars3 = Ok zz ∧
        ¬ (swing_high zz = NInf ∧ swing_low zz = PInf).
Proof.
  destruct (one_sentinel_at_most (Fin 0.05) false (fresh (Fin 0.05) false)
              bars3) as (zz & Hrun & Hne & _);
    [reflexivity | reflexivity | reflexivity |].
  by exists zz.
Defined.

(** C7 as stated fails on the engine just constructed: both swings are at
    their sentinels. *)
Lemma both_sentinels_at_construction :
  __init__ (Fin 0.05) false = Ok (fresh (Fin 0.05) false) ∧
  swing_high (fresh (Fin 0.05) false) = NInf ∧
  swing_low (fresh (Fin 0.05) false) = PInf.
Proof. repeat split. Qed.

(** It also fails later on negative prices: after the bars -4, -5, -6 both
    swings are back at their sentinels. *)
Example both_sentinels_on_negative_prices :
  (zz ← run (fresh (Fin 0.125) false) bars_neg;
   Ok (swing_high zz, swing_low zz)) = Ok (NInf, PInf).
Proof. vm_compute. reflexivity. Qed.

Lemma df_records_stream_witness :
  ∃ table, df (fed bars3) = Ok table ∧ r_High <$> table = b_high <$> bars3.
Proof.
  destruct (df_records_stream (Fin 0.05) false (fresh (Fin 0.05) false)
              bars3 (fed bars3)) as (table & Hdf & _ & Hh & _);
    [reflexivity | vm_compute; reflexivity |].
  by exists table.
Defined.

Lemma index_to_pos_last_row_witness :
  is_Some (_index_to_pos (fed bars3) !! 1).
Proof.
  refine (proj1 (index_to_pos_last_row (Fin 0.05) false
                   (fresh (Fin 0.05) false) bars3 (fed bars3) _ _)
            bar1 _).
  - reflexivity.
  - vm_compute. reflexivity.
  - unfold bars3, bar1. apply elem_of_cons. right. apply elem_of_cons. by left.
Defined.


Lemma pivot_not_after_confirming_bar_witness :
  p_index low99 ≤ b_idx bar1.
Proof.
  refine (proj2 (pivot_not_after_confirming_bar (Fin 0.05) false
                   (fresh (Fin 0.05) false) (take 1 bars3)
                   (fed (take 1 bars3)) bar1 (fed (take 2 bars3)) None low99
                   _ _ _ _) _).
  - reflexivity.
  - vm_compute. reflexivity.
  - vm_compute. reflexivity.
  - vm_compute. reflexivity.
  - intros b' Hin. simpl in Hin. apply list_elem_of_singleton in Hin as ->.
    reflexivity.
Defined.

Lemma confirmation_resets_swing_witness :
  candidate_price (fed (take 2 bars3)) = Some PInf ∧
  swing_low (fed (take 2 bars3)) = PInf.
Proof.
  pose proof (confirmation_resets_swing (fed (take 1 bars3)) bar1
                (fed (take 2 bars3)) None low99) as H.
  simpl in H. destruct H as (_ & Hs & _ & Hc & _);
    [vm_compute; reflexivity | vm_compute; reflexivity |].
  split; [exact Hc | exact Hs].
Defined.

Lemma debug_trace_of_valid_bars_witness :
  ∃ zz, run (fresh (Fin 0.05) true)
          (bars3 ++ [ {| b_idx := 3; b_high := NaN; b_low := NaN |} ]) = Ok zz ∧
        d_index <$> debug_dic zz = [0; 1; 2].
Proof.
  destruct (run_fresh_total (Fin 0.05) true
              (bars3 ++ [ {| b_idx := 3; b_high := NaN; b_low := NaN |} ]))
    as [zz Hrun]; [reflexivity|].
  exists zz. split; [exact Hrun|].
  exact (proj1 (debug_trace_of_valid_bars (Fin 0.05) true
                  (fresh (Fin 0.05) true) _ zz eq_refl Hrun)).
Defined.

Lemma pivots_of_reachable_engine_witness :
  ∃ s : list (label * option float),
    pivots (fed bars3) = Ok s ∧ s.*1 = [Lbl 0; Lbl 1; Lbl 2].
Proof.
  destruct (pivots_of_reachable_engine (Fin 0.05) false
              (fresh (Fin 0.05) false) bars3 (fed bars3))
    as (s & Hs & Hl & _); [reflexivity | vm_compute; reflexivity |].
  exists s. split; [exact Hs | exact Hl].
Defined.

Lemma ZigZag_indicator_witness :
  ZigZag bars3 (Fin 0) = Raise ValueError ∧
  ∃ s : list (label * option float),
    ZigZag bars3 (Fin 0.05) = Ok s ∧ (3 ≤ length s ≤ 4)%nat.
Proof.
  split.
  - apply (proj1 (ZigZag_indicator bars3 (Fin 0))). reflexivity.
  - destruct (proj1 (proj2 (ZigZag_indicator bars3 (Fin 0.05))))
      as (zz & s & _ & _ & Hs & Hlen); [reflexivity | reflexivity |].
    exists s. split; [exact Hs | exact Hlen].
Defined.

Lemma pivots_turn_witness :
  flt (p_price low99) (p_price high110) = true.
Proof.
  exact (pivots_turn (Fin 0.05) false (fresh (Fin 0.05) false) bars3 0
           low99 high110 eq_refl eq_refl eq_refl eq_refl).
Defined.

Lemma first_pivot_is_low_witness : p_type low99 = Low.
Proof.
  exact (first_pivot_is_low (Fin 0.05) false (fresh (Fin 0.05) false) bars3
           low99 eq_refl eq_refl eq_refl).
Defined.

Lemma debug_trace_reports_pivots_witness :
  ∃ zz, run (fresh (Fin 0.05) true) bars3 = Ok zz ∧
        omap traced_pivot (debug_dic zz) =
          confirmations (fresh (Fin 0.05) true) bars3.
Proof.
  destruct (run_fresh_total (Fin 0.05) true bars3) as [zz Hrun];
    [reflexivity|].
  exists zz. split; [exact Hrun|].
  exact (debug_trace_reports_pivots (Fin 0.05) (fresh (Fin 0.05) true)
           bars3 zz eq_refl Hrun).
Defined.

Lemma engine_raises_only_on_unbounded_first_bar_witness :
  run (fresh (Fin 0.05) false)
    [ {| b_idx := 0; b_high := NaN; b_low := Fin 1 |};
      {| b_idx := 1; b_high := PInf; b_low := PInf |};
      {| b_idx := 2; b_high := Fin 2; b_low := Fin 1 |} ] = Raise TypeError.
Proof.
  exact (engine_raises_only_on_unbounded_first_bar (Fin 0.05) false
           (fresh (Fin 0.05) false)
           [ {| b_idx := 0; b_high := NaN; b_low := Fin 1 |};
             {| b_idx := 1; b_high := PInf; b_low := PInf |};
             {| b_idx := 2; b_high := Fin 2; b_low := Fin 1 |} ] eq_refl).
Defined.

(** * Properties of the range indicators *)

(** The previous close of row [i] is the close of row [i - 1], and of row
    0 the close of row 0 itself. *)
Lemma previous_close_lookup (Close : list float) (c0 : float)
    (pc : list float) (i : nat) :
  iloc0 Close = Ok c0 → iloc0_set (shift1 Close) c0 = Ok pc →
  length pc = length Close ∧
  ((i < length Close)%nat → pc !! i = Close !! Nat.pred i).
Proof.
  destruct Close as [|c cs]; [done|]. simpl. intros [= <-] [= <-].
  split.
  - simpl. rewrite length_take. simpl. lia.
  - intros Hi. destruct i as [|i]; [done|]. simpl.
    rewrite Nat.sub_0_r. simpl in Hi.
    rewrite lookup_take_lt by lia. by destruct i.
Qed.

Lemma sabs_ssub_lookup (a b : list float) (i : nat) (x y : float) :
  a !! i = Some x → b !! i = Some y →
  sabs (ssub a b) !! i = Some (fabs (fsub x y)).
Proof.
  intros Ha Hb. unfold sabs, ssub.
  rewrite list_lookup_fmap, lookup_zip_with, Ha, Hb. done.
Qed.

(** One row of the three ranges and of their maximum. *)
Lemma concat_max_lookup (High Low pc : list float) (i : nat) (x y p : float) :
  High !! i = Some x → Low !! i = Some y → pc !! i = Some p →
  concat_max (sabs (ssub High Low)) (sabs (ssub High pc))
    (sabs (ssub pc Low)) !! i =
  Some (row_max [fabs (fsub x y); fabs (fsub x p); fabs (fsub p y)]).
Proof.
  intros Hx Hy Hp. unfold concat_max.
  rewrite lookup_zip_with, (sabs_ssub_lookup _ _ _ _ _ Hx Hy). simpl.
  rewrite lookup_zip_with, (sabs_ssub_lookup _ _ _ _ _ Hx Hp). simpl.
  rewrite (sabs_ssub_lookup _ _ _ _ _ Hp Hy). done.
Qed.

Lemma concat_max_length (High Low pc : list float) (n : nat) :
  length High = n → length Low = n → length pc = n →
  length (concat_max (sabs (ssub High Low)) (sabs (ssub High pc))
            (sabs (ssub pc Low))) = n.
Proof.
  intros Hh Hl Hp. unfold concat_max, sabs, ssub.
  rewrite !length_zip_with, !length_fmap, !length_zip_with. lia.
Qed.

(** [TR] on Series of one index: the error on an empty Series, and the
    rows otherwise. *)
Lemma TR_rows (High Low Close : list float) :
  length High = length Close → length Low = length Close →
  (Close = [] → TR High Low Close = Raise IndexError) ∧
  (Close ≠ [] → ∃ tr, TR High Low Close = Ok tr ∧
     length tr = length Close ∧
     ∀ i x y p, High !! i = Some x → Low !! i = Some y →
       Close !! Nat.pred i = Some p →
       tr !! i =
         Some (row_max [fabs (fsub x y); fabs (fsub x p); fabs (fsub p y)])).
Proof.
  intros Hh Hl. split; [by intros ->|]. intros Hne.
  destruct (iloc0 Close) as [c0|e] eqn:Hc0; [|by destruct Close].
  destruct (iloc0_set (shift1 Close) c0) as [pc|e] eqn:Hpc;
    [|by destruct Close].
  unfold TR. rewrite Hc0. simpl. rewrite Hpc. simpl.
  eexists. split; [reflexivity|].
  destruct (previous_close_lookup Close c0 pc 0 Hc0 Hpc) as [Hlen _].
  split; [by apply concat_max_length|].
  intros i x y p Hx Hy Hp. apply concat_max_lookup; try done.
  destruct (previous_close_lookup Close c0 pc i Hc0 Hpc) as [_ Hi].
  rewrite Hi; [done|]. apply lookup_lt_Some in Hx. lia.
Qed.

Local Open Scope Q_scope.

Lemma Qabs_cases (z : Q) :
  (0 <= z ∧ Qabs z == z) ∨ (z <= 0 ∧ Qabs z == - z).
Proof.
  destruct (Qlt_le_dec z 0) as [H|H].
  - right. split; [by apply Qlt_le_weak|]. by apply Qabs_neg, Qlt_le_weak.
  - left. split; [done|]. by apply Qabs_pos.
Qed.

(** The maximum of a row of three finite values is one of them and bounds
    them all. *)
Lemma row_max_Fin (a b c : Q) :
  ∃ t, row_max [Fin a; Fin b; Fin c] = Fin t ∧
       a <= t ∧ b <= t ∧ c <= t ∧ (t = a ∨ t = b ∨ t = c).
Proof.
  unfold row_max. cbn [foldr]. unfold fmax_skipna. cbn [isna].
  destruct (flt (Fin b) (Fin c)) eqn:E1.
  - apply flt_Fin_iff in E1. destruct (flt (Fin a) (Fin c)) eqn:E2.
    + apply flt_Fin_iff in E2. exists c. repeat split; auto; lra.
    + apply flt_Fin_false in E2. exists a. repeat split; auto; lra.
  - apply flt_Fin_false in E1. destruct (flt (Fin a) (Fin b)) eqn:E2.
    + apply flt_Fin_iff in E2. exists b. repeat split; auto; lra.
    + apply flt_Fin_false in E2. exists a. repeat split; auto; lra.
Qed.

(** X14. On Series of one index, [TR] raises [IndexError] when they are
    empty and otherwise returns a Series of the same length.  On a row
    with finite prices, [low <= high], the value is the true range: the
    high minus the low when the previous close lies within the bar, the
    previous close minus the low when it lies above the high, the high
    minus the previous close when it lies below the low.  The previous
    close of the first row is its own close. *)
Theorem TR_true_range (High Low Close : list float) :
  length High = length Close → length Low = length Close →
  (Close = [] → TR High Low Close = Raise IndexError) ∧
  (Close ≠ [] → ∃ tr, TR High Low Close = Ok tr ∧
     length tr = length Close ∧
     ∀ (i : nat) (h l p : Q),
       High !! i = Some (Fin h) → Low !! i = Some (Fin l) →
       Close !! Nat.pred i = Some (Fin p) → l <= h →
       ∃ t, tr !! i = Some (Fin t) ∧
         (l <= p → p <= h → t == h - l) ∧
         (h < p → t == p - l) ∧
         (p < l → t == h - p)).
Proof.
  intros Hh Hl. destruct (TR_rows High Low Close Hh Hl) as [He Hrows].
  split; [done|]. intros Hne.
  destruct (Hrows Hne) as (tr & Htr & Hlen & Hrow).
  exists tr. split; [done|]. split; [done|].
  intros i h l p Hx Hy Hp Hlh. rewrite (Hrow i _ _ _ Hx Hy Hp). cbn [fsub fabs].
  destruct (row_max_Fin (Qabs (h - l)) (Qabs (h - p)) (Qabs (p - l)))
    as (t & -> & Ha & Hb & Hc & Ht).
  exists t. split; [done|].
  destruct (Qabs_cases (h - l)) as [[Ha1 Ha2]|[Ha1 Ha2]];
    destruct (Qabs_cases (h - p)) as [[Hb1 Hb2]|[Hb1 Hb2]];
    destruct (Qabs_cases (p - l)) as [[Hc1 Hc2]|[Hc1 Hc2]];
    destruct Ht as [-> | [-> | ->]];
    repeat split; intros; lra.
Qed.

Lemma TR_true_range_witness :
  ∃ tr, TR [Fin 10; Fin 12; Fin 9] [Fin 8; Fin 11; Fin 7]
           [Fin 9; Fin 11.5; Fin 8] = Ok tr ∧ length tr = 3%nat.
Proof.
  destruct (TR_true_range [Fin 10; Fin 12; Fin 9] [Fin 8; Fin 11; Fin 7]
              [Fin 9; Fin 11.5; Fin 8] eq_refl eq_refl) as [_ H].
  destruct (H ltac:(discriminate)) as (tr & Htr & Hlen & _).
  exists tr. split; [exact Htr | exact Hlen].
Defined.

Lemma isna_fabs (z : float) : isna (fabs z) = isna z.
Proof. by destruct z. Qed.

(** The maximum of a row is NaN only when every value of the row is. *)
Lemma row_max_isna (a b c : float) :
  isna (row_max [a; b; c]) = isna a && isna b && isna c.
Proof.
  unfold row_max. cbn [foldr]. unfold fmax_skipna.
  destruct a, b, c; cbn [isna andb]; try reflexivity;
    repeat match goal with |- context [if ?c then _ else _] =>
             destruct c end;
    reflexivity.
Qed.

(** X15. [TR] skips missing values: on a row where the low is NaN the
    value is [|high - previous close|], where the high is NaN it is
    [|previous close - low|], where the previous close is NaN it is
    [|high - low|]; the value is NaN only when all three ranges are. *)
Theorem TR_skips_missing (High Low Close tr : list float) (i : nat)
    (x y p : float) :
  length High = length Close → length Low = length Close →
  TR High Low Close = Ok tr →
  High !! i = Some x → Low !! i = Some y → Close !! Nat.pred i = Some p →
  ∃ t, tr !! i = Some t ∧
    (isna y = true → t = fabs (fsub x p)) ∧
    (isna x = true → t = fabs (fsub p y)) ∧
    (isna p = true → t = fabs (fsub x y)) ∧
    (isna t = true ↔
       isna (fsub x y) = true ∧ isna (fsub x p) = true ∧
       isna (fsub p y) = true).
Proof.
  intros Hh Hl Htr Hx Hy Hp.
  destruct (TR_rows High Low Close Hh Hl) as [He Hrows].
  assert (Close ≠ []) as Hne.
  { intros ->. rewrite He in Htr; done. }
  destruct (Hrows Hne) as (tr' & Htr' & _ & Hrow).
  assert (tr' = tr) as -> by congruence.
  eexists. split; [by apply Hrow|].
  split; [|split; [|split]].
  - intros Hy'. destruct y; try done. unfold row_max, fmax_skipna.
    destruct x, p; reflexivity.
  - intros Hx'. destruct x; try done. unfold row_max, fmax_skipna.
    destruct y, p; reflexivity.
  - intros Hp'. destruct p; try done. unfold row_max, fmax_skipna.
    destruct x, y; reflexivity.
  - rewrite row_max_isna, !isna_fabs, !andb_true_iff. tauto.
Qed.

Lemma TR_skips_missing_witness :
  ∃ t, [Fin 3; Fin 2] !! 1%nat = Some t ∧ t = fabs (fsub (Fin 12) (Fin 10)).
Proof.
  destruct (TR_skips_missing [Fin 11; Fin 12] [Fin 8; NaN] [Fin 10; Fin 11]
              [Fin 3; Fin 2] 1 (Fin 12) NaN (Fin 10)
              eq_refl eq_refl eq_refl eq_refl eq_refl eq_refl)
    as (t & Ht & Hy & _).
  exists t. split; [exact Ht | exact (Hy eq_refl)].
Defined.

(** [RTR] on Series of one index. *)
Lemma RTR_rows (High Low Close : list float) :
  length High = length Close → length Low = length Close →
  (Close = [] → RTR High Low Close = Raise IndexError) ∧
  (Close ≠ [] → ∃ rtr, RTR High Low Close = Ok rtr ∧
     length rtr = length Close ∧
     ∀ i x y p, High !! i = Some x → Low !! i = Some y →
       Close !! Nat.pred i = Some p →
       rtr !! i =
         Some (fdiv (row_max [fabs (fsub x y); fabs (fsub x p);
                              fabs (fsub p y)]) p)).
Proof.
  intros Hh Hl. split; [by intros ->|]. intros Hne.
  destruct (iloc0 Close) as [c0|e] eqn:Hc0; [|by destruct Close].
  destruct (iloc0_set (shift1 Close) c0) as [pc|e] eqn:Hpc;
    [|by destruct Close].
  unfold RTR. rewrite Hc0. simpl. rewrite Hpc. simpl.
  eexists. split; [reflexivity|].
  destruct (previous_close_lookup Close c0 pc 0 Hc0 Hpc) as [Hlen _].
  split.
  - unfold sdiv. rewrite length_zip_with.
    rewrite (concat_max_length High Low pc (length Close)) by done.
    lia.
  - intros i x y p Hx Hy Hp.
    destruct (previous_close_lookup Close c0 pc i Hc0 Hpc) as [_ Hi].
    assert (pc !! i = Some p) as Hpi.
    { rewrite Hi; [done|]. apply lookup_lt_Some in Hx. lia. }
    unfold sdiv.
    rewrite lookup_zip_with, (concat_max_lookup _ _ _ _ _ _ _ Hx Hy Hpi).
    simpl. by rewrite Hpi.
Qed.

(** The maximum of three ranges is NaN, +inf or a finite value that is not
    negative. *)
Lemma row_max_fabs (a b c : float) :
  match row_max [fabs a; fabs b; fabs c] with
  | NaN | PInf => True
  | NInf => False
  | Fin t => 0 <= t
  end.
Proof.
  unfold row_max. cbn [foldr]. unfold fmax_skipna.
  destruct a, b, c; cbn [fabs isna];
    repeat match goal with |- context [if ?c then _ else _] =>
             destruct c end;
    try done; apply Qabs_nonneg.
Qed.

(** X16. On Series of one index, [RTR] raises [IndexError] when they are
    empty; otherwise each row of [RTR] is the row of [TR] divided by the
    previous close.  With a positive previous close the value is not
    negative; with a previous close of zero nothing is raised and the
    value is an infinity or NaN (which infinity depends on the sign of the
    zero, which [float] does not have). *)
Theorem RTR_relative_range (High Low Close : list float) :
  length High = length Close → length Low = length Close →
  (Close = [] → RTR High Low Close = Raise IndexError) ∧
  (Close ≠ [] → ∃ tr rtr,
     TR High Low Close = Ok tr ∧ RTR High Low Close = Ok rtr ∧
     length rtr = length Close ∧
     ∀ (i : nat) (x y : float) (p : Q),
       High !! i = Some x → Low !! i = Some y →
       Close !! Nat.pred i = Some (Fin p) →
       ∃ t r, tr !! i = Some t ∧ rtr !! i = Some r ∧
         (¬ p == 0 → r = fdiv t (Fin p)) ∧
         (0 < p → flt r (Fin 0) = false ∧ r ≠ NInf) ∧
         (p == 0 → r = PInf ∨ r = NInf ∨ r = NaN)).
Proof.
  intros Hh Hl.
  destruct (TR_rows High Low Close Hh Hl) as [_ Htr].
  destruct (RTR_rows High Low Close Hh Hl) as [He Hrtr].
  split; [done|]. intros Hne.
  destruct (Htr Hne) as (tr & Ht & _ & Hrow).
  destruct (Hrtr Hne) as (rtr & Hr & Hlen & Hrrow).
  exists tr, rtr. repeat split; try done.
  intros i x y p Hx Hy Hp.
  rewrite (Hrow i _ _ _ Hx Hy Hp), (Hrrow i _ _ _ Hx Hy Hp).
  eexists _, _. split; [done|]. split; [done|]. split; [done|].
  pose proof (row_max_fabs (fsub x y) (fsub x (Fin p)) (fsub (Fin p) y))
    as Hm.
  destruct (row_max _) as [| | |t]; try done; unfold fdiv, Qsign.
  - split; [done|]. intros _. by right; right.
  - split.
    + intros Hpos. apply Qgt_alt in Hpos. by rewrite Hpos.
    + intros H0. apply Qeq_alt in H0. rewrite H0. by left.
  - split.
    + intros Hpos. pose proof Hpos as Hgt. apply Qgt_alt in Hgt.
      rewrite Hgt. split; [|done]. apply flt_Fin_false.
      apply Qle_shift_div_l; [done|]. lra.
    + intros H0. apply Qeq_alt in H0. rewrite H0.
      destruct (t ?= 0) eqn:E.
      * by right; right.
      * apply Qlt_alt in E. lra.
      * by left.
Qed.

Lemma RTR_relative_range_witness :
  ∃ rtr, RTR [Fin 10; Fin 12] [Fin 8; Fin 11] [Fin 9; Fin 11.5] = Ok rtr ∧
         length rtr = 2%nat.
Proof.
  destruct (RTR_relative_range [Fin 10; Fin 12] [Fin 8; Fin 11]
              [Fin 9; Fin 11.5] eq_refl eq_refl) as [_ H].
  destruct (H ltac:(discriminate)) as (tr & rtr & _ & Hr & Hlen & _).
  exists rtr. split; [exact Hr | exact Hlen].
Defined.

Local Open Scope Z_scope.

(** * Properties of the accessor *)

Section accessor.
Import ti_accessor.

(** [_validate_columns] raises exactly when a mapped column is missing. *)
Lemma _validate_columns_spec (self : TechnicalIndicatorsAccessor) :
  (_validate_columns self = Ok tt ∧
   ∀ k v, _column_mapping self !! k = Some v → v ∈ _df self) ∨
  (_validate_columns self = Raise ValueError ∧
   ∃ k v, _column_mapping self !! k = Some v ∧ v ∉ _df self).
Proof.
  unfold _validate_columns.
  destruct (filter (λ kv : string * string, kv.2 ∉ _df self)
              (map_to_list (_column_mapping self))) as [|[k v] l] eqn:E.
  - left. split; [done|]. intros k v Hkv.
    destruct (decide (v ∈ _df self)) as [|Hout]; [done|].
    assert ((k, v) ∈ filter (λ kv : string * string, kv.2 ∉ _df self)
                        (map_to_list (_column_mapping self))) as Hin.
    { apply list_elem_of_filter. split; [done|].
      by apply elem_of_map_to_list. }
    rewrite E in Hin. by apply elem_of_nil in Hin.
  - right. split; [done|]. exists k, v.
    assert ((k, v) ∈ filter (λ kv : string * string, kv.2 ∉ _df self)
                        (map_to_list (_column_mapping self))) as Hin
      by (rewrite E; apply list_elem_of_here).
    apply list_elem_of_filter in Hin as [Hout Hin].
    by apply elem_of_map_to_list in Hin.
Qed.

(** [find] returns the first element that passes. *)
Lemma find_first {A : Type} (P : A → bool) (l : list A) :
  match find P l with
  | Some v => ∃ pre post, l = pre ++ v :: post ∧ P v = true ∧
                ∀ u, u ∈ pre → P u = false
  | None => ∀ u, u ∈ l → P u = false
  end.
Proof.
  induction l as [|a l IH]; simpl.
  - intros u Hu. by apply elem_of_nil in Hu.
  - destruct (P a) eqn:Ha.
    + exists [], l. split; [done|]. split; [done|].
      intros u Hu. by apply elem_of_nil in Hu.
    + destruct (find P l) as [v|].
      * destruct IH as (pre & post & -> & Hv & Hpre).
        exists (a :: pre), post. split; [done|]. split; [done|].
        intros u Hu. apply elem_of_cons in Hu as [->|Hu]; auto.
      * intros u Hu. apply elem_of_cons in Hu as [->|Hu]; auto.
Qed.

(** The column detected for a key whose default name is among its
    variations. *)
Lemma detected_column (df : list string) (vars : list string)
    (dflt : string) :
  dflt ∈ vars →
  let d := match find (λ var, bool_decide (var ∈ df)) vars with
           | Some var => var
           | None => dflt
           end in
  (d ∈ df ↔ ∃ v, v ∈ vars ∧ v ∈ df) ∧
  (d ∈ df → ∃ pre post, vars = pre ++ d :: post ∧ ∀ u, u ∈ pre → u ∉ df).
Proof.
  intros Hd. simpl.
  pose proof (find_first (λ var, bool_decide (var ∈ df)) vars) as Hf.
  destruct (find _ vars) as [v|].
  - destruct Hf as (pre & post & -> & Hv & Hpre).
    apply bool_decide_eq_true in Hv. split.
    + split; [|done]. intros _. exists v. split; [|done].
      apply elem_of_app. right. apply list_elem_of_here.
    + intros _. exists pre, post. split; [done|].
      intros u Hu. by apply Hpre, bool_decide_eq_false in Hu.
  - split.
    + split.
      * intros Hin. by exists dflt.
      * intros (v & Hv & Hin). apply Hf, bool_decide_eq_false in Hv. done.
    + intros Hin. apply Hf, bool_decide_eq_false in Hd. done.
Qed.

(** X17. Without a column mapping ([None] or an empty [dict]) the
    accessor detects the columns: the construction succeeds exactly when
    each of the five standard names has one of its listed variations among
    the columns of the DataFrame, and then each name is mapped to the first
    of its variations, in the listed order, that is a column.  Otherwise
    [__init__] raises [ValueError]. *)
Theorem columns_auto_detected (df : list string)
    (cm : option (list (string * string))) :
  cm = None ∨ cm = Some [] →
  ((∀ key vars, (key, vars) ∈ common_variations →
      ∃ v, v ∈ vars ∧ v ∈ df) →
   ∃ self, __init__ df cm = Ok self ∧ _df self = df ∧
     (∀ key v, _column_mapping self !! key = Some v →
        ∃ vars, (key, vars) ∈ common_variations) ∧
     ∀ key vars, (key, vars) ∈ common_variations →
       ∃ pre v post, vars = pre ++ v :: post ∧
         _column_mapping self !! key = Some v ∧ v ∈ df ∧
         ∀ u, u ∈ pre → u ∉ df) ∧
  (¬ (∀ key vars, (key, vars) ∈ common_variations →
        ∃ v, v ∈ vars ∧ v ∈ df) →
   __init__ df cm = Raise ValueError).
Proof.
  intros Hcm.
  assert (_initialize_column_mapping df cm =
          _initialize_column_mapping df None) as Hm
    by (by destruct Hcm as [-> | ->]).
  unfold __init__. rewrite Hm. clear Hm Hcm cm.
  remember (_initialize_column_mapping df None) as m eqn:Hm.
  unfold _initialize_column_mapping, common_variations in Hm.
  cbn [foldl fst snd] in Hm.
  assert (∀ key vars, (key, vars) ∈ common_variations →
            ∃ dflt, dflt ∈ vars ∧
              m !! key =
                Some (match find (λ var, bool_decide (var ∈ df)) vars with
                      | Some var => var
                      | None => dflt
                      end)) as Hlook.
  { intros key vars Hin. unfold common_variations in Hin. subst m.
    repeat (apply elem_of_cons in Hin as [[= -> ->]|Hin]);
      [..|by apply elem_of_nil in Hin];
      eexists; (split; [|by rewrite ?lookup_insert_ne, lookup_insert_eq by done]);
      vm_compute; set_solver. }
  assert (∀ key v, m !! key = Some v →
            ∃ vars, (key, vars) ∈ common_variations) as Hdom.
  { intros key v Hv. subst m. unfold common_variations.
    repeat (apply lookup_insert_Some in Hv as [[<- _]|[_ Hv]];
            [eexists;
             repeat first [apply list_elem_of_here
                          |apply list_elem_of_further]|]).
    by rewrite lookup_empty in Hv. }
  destruct (_validate_columns_spec {| _df := df; _column_mapping := m |})
    as [[-> Hall]|[-> (k & v & Hkv & Hout)]]; simpl in *.
  - assert (∀ key vars, (key, vars) ∈ common_variations →
              ∃ pre v post, vars = pre ++ v :: post ∧ m !! key = Some v ∧
                v ∈ df ∧ ∀ u, u ∈ pre → u ∉ df) as Hfirst.
    { intros key vars Hin. destruct (Hlook key vars Hin) as (dflt & Hd & Hk).
      destruct (detected_column df vars dflt Hd) as [_ Hpre].
      simpl in Hpre. pose proof (Hall _ _ Hk) as Hin'.
      destruct (Hpre Hin') as (pre & post & Hvars & Hu).
      eexists pre, _, post. done. }
    split.
    + intros _. eexists. split; [done|]. done.
    + intros Hnot. exfalso. apply Hnot. intros key vars Hin.
      destruct (Hfirst key vars Hin) as (pre & v & post & -> & _ & Hv & _).
      exists v. split; [|done]. apply elem_of_app. right.
      apply list_elem_of_here.
  - split; [|done]. intros Hvars. exfalso.
    destruct (Hdom k v Hkv) as [vars Hin].
    destruct (Hlook k vars Hin) as (dflt & Hd & Hk).
    destruct (detected_column df vars dflt Hd) as [Hiff _]. simpl in Hiff.
    rewrite Hkv in Hk. injection Hk as ->. apply Hout, Hiff.
    by apply (Hvars k).
Qed.

Lemma columns_auto_detected_witness :
  ∃ self, __init__ ["Date"; "open"; "HIGH"; "L"; "Adj Close"; "Close"; "V"]%string
            None = Ok self ∧
          _df self = ["Date"; "open"; "HIGH"; "L"; "Adj Close"; "Close"; "V"]%string.
Proof.
  destruct (columns_auto_detected
              ["Date"; "open"; "HIGH"; "L"; "Adj Close"; "Close"; "V"]%string None
              (or_introl eq_refl)) as [H _].
  destruct H as (self & Hs & Hdf & _).
  - intros key vars Hin. unfold common_variations in Hin.
    repeat (apply elem_of_cons in Hin as [[= -> ->]|Hin]);
      [..|by apply elem_of_nil in Hin].
    + exists "open"%string. split; set_solver.
    + exists "HIGH"%string. split; set_solver.
    + exists "L"%string. split; set_solver.
    + exists "Close"%string. split; set_solver.
    + exists "V"%string. split; set_solver.
  - exists self. split; [exact Hs | exact Hdf].
Defined.

(** The keys of a caller's mapping after lowercasing: a key is bound to the
    column of the last item that spells it. *)
Lemma lowered_lookup (items : list (string * string)) (key col : string) :
  foldl (λ m kv, <[lower kv.1 := kv.2]> m) (∅ : gmap string string) items
    !! key = Some col ↔
  ∃ pre k post, items = pre ++ (k, col) :: post ∧ lower k = key ∧
    ∀ k' c', (k', c') ∈ post → lower k' ≠ key.
Proof.
  induction items as [|[k0 c0] items IH] using rev_ind.
  - simpl. rewrite lookup_empty. split; [done|].
    intros (pre & k & post & H & _). by destruct pre.
  - rewrite foldl_snoc. simpl.
    destruct (decide (lower k0 = key)) as [Hk|Hk].
    + rewrite Hk, lookup_insert_eq. split.
      * intros [= ->]. exists items, k0, []. split; [done|]. split; [done|].
        intros k' c' Hin. by apply elem_of_nil in Hin.
      * intros (pre & k & post & H & Hkey & Hpost).
        destruct post as [|x post _] using rev_ind.
        -- apply app_inj_tail in H as [_ [= -> ->]]. done.
        -- rewrite app_comm_cons, app_assoc in H.
           apply app_inj_tail in H as [_ <-].
           exfalso. apply (Hpost k0 c0); [|done].
           apply elem_of_app. right. apply list_elem_of_here.
    + rewrite lookup_insert_ne by done. rewrite IH. split.
      * intros (pre & k & post & -> & Hkey & Hpost).
        exists pre, k, (post ++ [(k0, c0)]).
        split; [by rewrite <- app_assoc|]. split; [done|].
        intros k' c' Hin. apply elem_of_app in Hin as [Hin|Hin].
        -- by eapply Hpost.
        -- apply list_elem_of_singleton in Hin. by injection Hin as -> ->.
      * intros (pre & k & post & H & Hkey & Hpost).
        destruct post as [|x post _] using rev_ind.
        -- apply app_inj_tail in H as [_ [= -> ->]]. done.
        -- rewrite app_comm_cons, app_assoc in H.
           apply app_inj_tail in H as [-> <-].
           exists pre, k, post. split; [done|]. split; [done|].
           intros k' c' Hin. apply (Hpost k' c').
           apply elem_of_app. by left.
Qed.

Lemma lowered_lookup_None (items : list (string * string)) (key : string) :
  foldl (λ m kv, <[lower kv.1 := kv.2]> m) (∅ : gmap string string) items
    !! key = None ↔
  ∀ k c, (k, c) ∈ items → lower k ≠ key.
Proof.
  induction items as [|[k0 c0] items IH] using rev_ind.
  - simpl. rewrite lookup_empty. split; [|done].
    intros _ k c Hin. by apply elem_of_nil in Hin.
  - rewrite foldl_snoc. simpl. rewrite lookup_insert_None, IH. split.
    + intros [Hall Hk] k c Hin. apply elem_of_app in Hin as [Hin|Hin].
      * by eapply Hall.
      * apply list_elem_of_singleton in Hin. by injection Hin as -> ->.
    + intros Hall. split.
      * intros k c Hin. apply (Hall k c). apply elem_of_app. by left.
      * apply (Hall k0 c0). apply elem_of_app. right.
        apply list_elem_of_here.
Qed.

(** X18. With a column mapping (not empty) the accessor's mapping is
    this one: a key a caller's item spells, lowercased, is bound to the
    column of the last item that spells it; a standard name no item spells
    is bound to its default column name (it is not detected); nothing else
    is bound.  The construction succeeds, with that mapping, exactly when
    all the columns bound exist in the DataFrame; otherwise it raises
    [ValueError]. *)
Theorem user_mapping_over_defaults (df : list string)
    (items : list (string * string)) :
  items ≠ [] →
  ∃ m : gmap string string,
    (∀ key col, m !! key = Some col ↔
       (∃ pre k post, items = pre ++ (k, col) :: post ∧ lower k = key ∧
          ∀ k' c', (k', c') ∈ post → lower k' ≠ key) ∨
       (default_mapping !! key = Some col ∧
        ∀ k c, (k, c) ∈ items → lower k ≠ key)) ∧
    ((∀ key col, m !! key = Some col → col ∈ df) →
     ∃ self, __init__ df (Some items) = Ok self ∧ _df self = df ∧
             _column_mapping self = m) ∧
    (¬ (∀ key col, m !! key = Some col → col ∈ df) →
     __init__ df (Some items) = Raise ValueError).
Proof.
  intros Hne. unfold __init__.
  assert (_initialize_column_mapping df (Some items) =
          foldl (λ m kv, <[lower kv.1 := kv.2]> m) ∅ items ∪ default_mapping)
    as -> by (by destruct items).
  set (user := foldl (λ m kv, <[lower kv.1 := kv.2]> m)
                 (∅ : gmap string string) items).
  exists (user ∪ default_mapping). split.
  { intros key col. rewrite lookup_union_Some_raw.
    unfold user. rewrite lowered_lookup, lowered_lookup_None. tauto. }
  destruct (_validate_columns_spec
              {| _df := df; _column_mapping := user ∪ default_mapping |})
    as [[-> Hall]|[-> (key & col & Hk & Hout)]]; simpl in *.
  - split; [|done]. intros _. by eexists.
  - split; [|done]. intros Hall. exfalso. by apply Hout, (Hall key).
Qed.

Lemma user_mapping_over_defaults_witness :
  __init__ ["open"; "high"; "low"; "close"; "volume"]%string
    (Some [("Close", "close")]%string) = Raise ValueError.
Proof.
  destruct (user_mapping_over_defaults
              ["open"; "high"; "low"; "close"; "volume"]%string
              [("Close", "close")]%string ltac:(discriminate))
    as (m & Hm & _ & H).
  apply H. intros Hall.
  assert ("Open"%string ∈ ["open"; "high"; "low"; "close"; "volume"]%string)
    as Hin.
  { apply (Hall "open"%string). apply Hm. right. split; [reflexivity|].
    intros k c Hin. apply list_elem_of_singleton in Hin.
    injection Hin as -> ->. discriminate. }
  repeat (apply elem_of_cons in Hin as [Hin|Hin]; [discriminate|]).
  by apply elem_of_nil in Hin.
Defined.

(** X19. [set_column_mapping] assigns the new mapping before it validates
    it.  A call that raises (always [ValueError]) leaves the accessor with
    the new mapping, which names a column the DataFrame does not have, not
    with the mapping it had; a call that returns leaves the accessor
    [__init__] constructs from that mapping. *)
Theorem set_column_mapping_assigns_first (self : TechnicalIndicatorsAccessor)
    (items : list (string * string)) :
  ∃ self' r, set_column_mapping self items = (self', r) ∧
    _df self' = _df self ∧
    _column_mapping self' =
      _initialize_column_mapping (_df self) (Some items) ∧
    match r with
    | Ok _ => __init__ (_df self) (Some items) = Ok self'
    | Raise e =>
        e = ValueError ∧
        __init__ (_df self) (Some items) = Raise ValueError ∧
        ∃ key col, _column_mapping self' !! key = Some col ∧ col ∉ _df self'
    end.
Proof.
  unfold set_column_mapping, __init__.
  eexists _, _. split; [reflexivity|]. split; [done|]. split; [done|].
  destruct (_validate_columns_spec
              {| _df := _df self;
                 _column_mapping :=
                   _initialize_column_mapping (_df self) (Some items) |})
    as [[-> _]|[-> Hmiss]]; done.
Qed.

End accessor.

